(** * classFlowAI lesson playback engine: timeline, geometry and narration

    A shallow embedding of the pure parts of the engine package
    (timeline operations and engine-state transitions, stroke geometry,
    narration timings) together with the properties stated for them.

    Number model.  A TypeScript [number] is read as a real number: the
    arithmetic of the source ([+], [-], [*], [/], [Math.min], [Math.max],
    [Math.sqrt], comparisons) is the exact arithmetic of [R].  Rounding,
    NaN and the infinities of IEEE doubles are outside this model.

    Strings.  A JavaScript string is a sequence of UTF-16 code units;
    [length] counts code units and the regular expression class [\s] is a
    set of code units.

    Identifiers.  [generateId] reads the clock and a random source; the
    identifier it returned is passed to the embedded function as an
    argument.

    Records.  Several interfaces of the source share field names ([id],
    [type], [startTime], [endTime]); the projections carry a short prefix
    naming their interface. *)

From Stdlib Require Import String Ascii.
From Stdlib Require Import Reals Lra Lia List Bool Arith NArith.
From Stdlib Require Import Permutation Sorted.
Import ListNotations.

Open Scope R_scope.

(* ================================================================== *)
(** * JavaScript prelude *)
(* ================================================================== *)

Module Js.

(** UTF-16 code units and strings. *)
Definition codeUnit := N.
Definition jsString := list codeUnit.

(** An ASCII literal as a JavaScript string. *)
Fixpoint lit (s : string) : jsString :=
  match s with
  | EmptyString => []
  | String c s' => N_of_ascii c :: lit s'
  end.

(** Outcome of a call that may [throw new Error(message)]. *)
Inductive Result (A : Type) : Type :=
| Ok (value : A)
| Throw (message : jsString).
Arguments Ok {A} value.
Arguments Throw {A} message.

(** [Array.prototype.sort(compare)] on a copy of the array.  For a
    consistent comparator the result is the stable sorted permutation of
    the input, whatever algorithm the engine runs; it is computed here by
    insertion from the right, an element going in front of the first
    later element it does not compare greater than. *)
Section Sort.
Context {A : Type} (compare : A -> A -> R).

Fixpoint insertSorted (a : A) (l : list A) : list A :=
  match l with
  | [] => [a]
  | b :: l' =>
      if Rle_dec (compare a b) 0 then a :: b :: l'
      else b :: insertSorted a l'
  end.

Definition sort (l : list A) : list A := fold_right insertSorted [] l.
End Sort.

(** [Array.prototype.map] with the callback's index argument. *)
Fixpoint mapIndexFrom {A B : Type} (f : A -> nat -> B) (i : nat) (l : list A)
  : list B :=
  match l with
  | [] => []
  | a :: l' => f a i :: mapIndexFrom f (S i) l'
  end.

Definition mapIndex {A B : Type} (f : A -> nat -> B) (l : list A) : list B :=
  mapIndexFrom f 0 l.

(** [Array.prototype.join(sep)] on an array of strings. *)
Fixpoint join (sep : jsString) (parts : list jsString) : jsString :=
  match parts with
  | [] => []
  | [p] => p
  | p :: rest => p ++ sep ++ join sep rest
  end.

(** The code units matched by [\s]: ECMAScript WhiteSpace and
    LineTerminator. *)
Definition isWhiteSpace (c : codeUnit) : bool :=
  ((9 <=? c) && (c <=? 13) || (c =? 32) || (c =? 160) || (c =? 5760)
   || (8192 <=? c) && (c <=? 8202) || (c =? 8232) || (c =? 8233)
   || (c =? 8239) || (c =? 8287) || (c =? 12288) || (c =? 65279))%N.

(** [text.split(/\s+/)]: the pieces between maximal runs of white space;
    a run at either end of the text leaves an empty piece there.
    [piece] is the current piece in reverse, [inRun] tells whether the
    previous code unit was white space. *)
Fixpoint splitLoop (piece : jsString) (inRun : bool) (text : jsString)
  : list jsString :=
  match text with
  | [] => [rev piece]
  | c :: rest =>
      if isWhiteSpace c then
        if inRun then splitLoop [] true rest
        else rev piece :: splitLoop [] true rest
      else splitLoop (c :: piece) false rest
  end.

Definition splitWhiteSpace (text : jsString) : list jsString :=
  splitLoop [] false text.

(** [Math.round]: the nearest integer, a tie going up, that is the
    integer part of [x + 0.5]. *)
Definition roundZ (x : R) : Z := Int_part (x + 0.5).

Definition round (x : R) : R := IZR (roundZ x).

(** [String.prototype.trim]: the text without the white space at its two
    ends. *)
Fixpoint dropWhiteSpace (text : jsString) : jsString :=
  match text with
  | [] => []
  | c :: rest => if isWhiteSpace c then dropWhiteSpace rest else text
  end.

Definition trim (text : jsString) : jsString :=
  rev (dropWhiteSpace (rev (dropWhiteSpace text))).

End Js.

Import Js.

(* ================================================================== *)
(** * Shared interfaces (types package) *)
(* ================================================================== *)

Module Types.

Record Point : Type := mkPoint { p_x : R; p_y : R }.

Inductive EngineStatus : Type :=
| idle | loading | ready | playing | paused | error.

Definition EngineStatus_eqb (a b : EngineStatus) : bool :=
  match a, b with
  | idle, idle | loading, loading | ready, ready
  | playing, playing | paused, paused | error, error => true
  | _, _ => false
  end.

Record EngineState : Type := mkEngineState {
  isPlaying : bool;
  currentTime : R;
  duration : R;
  playbackRate : R;
  status : EngineStatus
}.

Inductive TimelineEventType : Type :=
| cursor_move | draw_stroke | text_highlight | narration_segment | pause.

Definition TimelineEventType_eqb (a b : TimelineEventType) : bool :=
  match a, b with
  | cursor_move, cursor_move | draw_stroke, draw_stroke
  | text_highlight, text_highlight
  | narration_segment, narration_segment | pause, pause => true
  | _, _ => false
  end.

Record TimelineEventPayload : Type := mkPayload {
  pl_position : option Point;
  pl_path : option (list Point);
  pl_text : option jsString;
  pl_audioUrl : option jsString;
  pl_color : option jsString;
  pl_strokeWidth : option R
}.

Definition emptyPayload : TimelineEventPayload :=
  mkPayload None None None None None None.

Record TimelineEvent : Type := mkEvent {
  ev_id : jsString;
  ev_type : TimelineEventType;
  ev_startTime : R;
  ev_endTime : R;
  ev_payload : TimelineEventPayload
}.

Inductive TrackType : Type :=
| cursor | drawing | text | narration | highlight.

Definition TrackType_eqb (a b : TrackType) : bool :=
  match a, b with
  | cursor, cursor | drawing, drawing | text, text
  | narration, narration | highlight, highlight => true
  | _, _ => false
  end.

Record TimelineTrack : Type := mkTrack {
  trk_id : jsString;
  trk_type : TrackType;
  trk_events : list TimelineEvent;
  trk_locked : bool;
  trk_visible : bool
}.

Inductive Severity : Type := warning | severityError.

(** The three message templates of [validateTimeline] with the values
    they interpolate; the rendering of numbers ([toFixed]) is not
    modelled. *)
Inductive ValidationMessage : Type :=
| NonPositiveDuration (startTime endTime : R)
| OverlapsPrevious (prevId : jsString) (overlap : R)
| LargeGap (gap : R).

Record TimelineValidationError : Type := mkValidationError {
  ve_eventId : jsString;
  ve_message : ValidationMessage;
  ve_severity : Severity
}.

Record TimelineBuildResult : Type := mkBuildResult {
  br_tracks : list TimelineTrack;
  br_duration : R;
  br_eventCount : nat;
  br_errors : list TimelineValidationError
}.

Record Stroke : Type := mkStroke {
  st_id : jsString;
  st_points : list Point;
  st_color : jsString;
  st_width : R;
  st_opacity : R
}.

Record BezierCurve : Type := mkBezierCurve {
  bz_start : Point;
  bz_cp1 : Point;
  bz_cp2 : Point;
  bz_end : Point
}.

Record WordTiming : Type := mkWordTiming {
  wt_word : jsString;
  wt_startTime : R;
  wt_endTime : R;
  wt_index : nat
}.

Record NarrationSegmentConfig : Type := mkSegment {
  seg_id : jsString;
  seg_text : jsString;
  seg_startTime : R;
  seg_endTime : R;
  seg_audioUrl : option jsString;
  seg_wordTimings : list WordTiming
}.

Record BoundingBox : Type := mkBoundingBox {
  bb_x : R;
  bb_y : R;
  bb_width : R;
  bb_height : R
}.

Inductive EasingName : Type :=
| Easing_linear | Easing_easeIn | Easing_easeOut | Easing_easeInOut.

Record NarrationState : Type := mkNarrationState {
  ns_isActive : bool;
  ns_currentSegmentId : option jsString;
  ns_volume : R
}.

Inductive CursorStyle : Type :=
| style_default | style_pointer | style_writing | style_drawing.

Record CursorState : Type := mkCursorState {
  cur_x : R;
  cur_y : R;
  cur_visible : bool;
  cur_style : CursorStyle
}.

Record DrawingState : Type := mkDrawingState {
  dr_strokes : list Stroke;
  dr_activeStroke : option Stroke
}.

Record ActiveEventsByType : Type := mkActiveEvents {
  ae_cursor : list TimelineEvent;
  ae_drawing : list TimelineEvent;
  ae_text : list TimelineEvent;
  ae_narration : list TimelineEvent;
  ae_highlight : list TimelineEvent
}.

Record PlaybackSnapshot : Type := mkSnapshot {
  snap_engineState : EngineState;
  snap_currentTime : R;
  snap_deltaMs : R;
  snap_progress : R;
  snap_activeEvents : ActiveEventsByType;
  snap_cursorState : CursorState;
  snap_drawingState : DrawingState;
  snap_narrationState : NarrationState
}.

Record PlaybackConfig : Type := mkPlaybackConfig {
  cfg_targetFps : R;
  cfg_maxDeltaMs : R;
  cfg_autoPlay : bool
}.

End Types.

Import Types.

(* ================================================================== *)
(** * Geometry module *)
(* ================================================================== *)

Module Geometry.

(** ** Internal helpers *)

Definition distance (a b : Point) : R :=
  let dx := p_x b - p_x a in
  let dy := p_y b - p_y a in
  sqrt (dx * dx + dy * dy).

Definition lerpPoint (a b : Point) (t : R) : Point :=
  {| p_x := p_x a + (p_x b - p_x a) * t;
     p_y := p_y a + (p_y b - p_y a) * t |}.

Definition clamp01 (value : R) : R := Rmin (Rmax value 0) 1.

(** ** Cubic Bezier curves *)

Definition createBezierCurve (start cp1 cp2 end_ : Point) : BezierCurve :=
  mkBezierCurve start cp1 cp2 end_.

Definition evaluateBezierPoint (curve : BezierCurve) (t : R) : Point :=
  let ct := clamp01 t in
  let u := 1 - ct in
  let u2 := u * u in
  let u3 := u2 * u in
  let ct2 := ct * ct in
  let ct3 := ct2 * ct in
  {| p_x := u3 * p_x (bz_start curve) + 3 * u2 * ct * p_x (bz_cp1 curve)
            + 3 * u * ct2 * p_x (bz_cp2 curve) + ct3 * p_x (bz_end curve);
     p_y := u3 * p_y (bz_start curve) + 3 * u2 * ct * p_y (bz_cp1 curve)
            + 3 * u * ct2 * p_y (bz_cp2 curve) + ct3 * p_y (bz_end curve) |}.

Definition splitBezierAt (curve : BezierCurve) (t : R)
  : BezierCurve * BezierCurve :=
  let ct := clamp01 t in
  let a := lerpPoint (bz_start curve) (bz_cp1 curve) ct in
  let b := lerpPoint (bz_cp1 curve) (bz_cp2 curve) ct in
  let c := lerpPoint (bz_cp2 curve) (bz_end curve) ct in
  let d := lerpPoint a b ct in
  let e := lerpPoint b c ct in
  let mid := lerpPoint d e ct in
  ({| bz_start := bz_start curve; bz_cp1 := a; bz_cp2 := d; bz_end := mid |},
   {| bz_start := mid; bz_cp1 := e; bz_cp2 := c; bz_end := bz_end curve |}).

(** ** Arc length *)

(** Loop of [calculatePathLength], [i] running from 1: [prev] is
    [points[i-1]] and [rest] starts at [points[i]]. *)
Fixpoint pathLengthLoop (length : R) (prev : Point) (rest : list Point) : R :=
  match rest with
  | [] => length
  | curr :: rest' => pathLengthLoop (length + distance prev curr) curr rest'
  end.

Definition calculatePathLength (points : list Point) : R :=
  if (List.length points <? 2)%nat then 0
  else match points with
       | [] => 0
       | first :: rest => pathLengthLoop 0 first rest
       end.

(** Loop of [getPointAtDistance]; [last] is [points[points.length - 1]],
    returned when the walk runs off the path. *)
Fixpoint pointAtDistanceLoop (targetDistance accumulated : R)
    (prev : Point) (rest : list Point) (last : Point) : Point :=
  match rest with
  | [] => last
  | curr :: rest' =>
      let segLen := distance prev curr in
      if Rge_dec (accumulated + segLen) targetDistance then
        let remaining := targetDistance - accumulated in
        let t := if Req_dec_T segLen 0 then 0 else remaining / segLen in
        {| p_x := p_x prev + (p_x curr - p_x prev) * t;
           p_y := p_y prev + (p_y curr - p_y prev) * t |}
      else
        pointAtDistanceLoop targetDistance (accumulated + segLen)
                            curr rest' last
  end.

Definition getPointAtDistance (points : list Point) (targetDistance : R)
  : Point :=
  match points with
  | [] => {| p_x := 0; p_y := 0 |}
  | first :: rest =>
      if (List.length points =? 1)%nat then first
      else if Rle_dec targetDistance 0 then first
      else pointAtDistanceLoop targetDistance 0 first rest
                               (List.last points first)
  end.

(** Loop of [getStrokeProgress]: [result] is the sub-path built so far,
    [accumulated] its arc length. *)
Fixpoint strokeProgressLoop (targetLength : R) (result : list Point)
    (accumulated : R) (prev : Point) (rest : list Point) : list Point :=
  match rest with
  | [] => result
  | curr :: rest' =>
      let segLen := distance prev curr in
      if Rge_dec (accumulated + segLen) targetLength then
        let remaining := targetLength - accumulated in
        let t := if Req_dec_T segLen 0 then 0 else remaining / segLen in
        result ++ [ {| p_x := p_x prev + (p_x curr - p_x prev) * t;
                       p_y := p_y prev + (p_y curr - p_y prev) * t |} ]
      else
        strokeProgressLoop targetLength (result ++ [curr])
                           (accumulated + segLen) curr rest'
  end.

Definition getStrokeProgress (stroke : Stroke) (progress : R) : list Point :=
  match st_points stroke with
  | [] => []
  | first :: rest =>
      if Rle_dec progress 0 then []
      else if Rge_dec progress 1 then st_points stroke
      else
        let totalLength := calculatePathLength (st_points stroke) in
        let targetLength := totalLength * clamp01 progress in
        strokeProgressLoop targetLength [first] 0 first rest
  end.

(** ** Constants *)

Definition BASE_PX_PER_MS : R := 0.35.
Definition MIN_STROKE_ANIMATION_MS : R := 200.
Definition MAX_STROKE_ANIMATION_MS : R := 8000.
Definition COMPLEXITY_FACTOR_PER_POINT : R := 1.02.

(** ** Interpolation and flattening *)

(** [Math.max(1, Math.round(steps))], the bound of the sampling loops. *)
Definition safeCount (steps : R) : nat := Z.to_nat (Z.max 1 (roundZ steps)).

(** The loop [for (i = 0; i <= safeSteps; i++)] pushes one point per
    index. *)
Definition interpolatePoints (start end_ : Point) (steps : R) : list Point :=
  let safeSteps := safeCount steps in
  map (fun i =>
         let t := INR i / INR safeSteps in
         {| p_x := p_x start + (p_x end_ - p_x start) * t;
            p_y := p_y start + (p_y end_ - p_y start) * t |})
      (seq 0 (S safeSteps)).

Definition flattenBezier (curve : BezierCurve) (segments : R) : list Point :=
  let safeSegments := safeCount segments in
  map (fun i => evaluateBezierPoint curve (INR i / INR safeSegments))
      (seq 0 (S safeSegments)).

(** ** Easing functions *)

Definition easeLinear (t : R) : R := clamp01 t.

Definition easeIn (t : R) : R :=
  let ct := clamp01 t in ct * ct.

Definition easeOut (t : R) : R :=
  let ct := clamp01 t in ct * (2 - ct).

Definition easeInOut (t : R) : R :=
  let ct := clamp01 t in
  if Rlt_dec ct 0.5 then 2 * ct * ct else -1 + (4 - 2 * ct) * ct.

Definition getEasingFunction (name : EasingName) : R -> R :=
  match name with
  | Easing_easeIn => easeIn
  | Easing_easeOut => easeOut
  | Easing_easeInOut => easeInOut
  | Easing_linear => easeLinear
  end.

(** ** Bounding boxes *)

(** The scan of the bounding-box functions.  The source starts the four
    extremes at plus and minus [Infinity]; its first pass replaces them by
    the coordinates of the first point, from which this loop continues. *)
Fixpoint extremesLoop (minX minY maxX maxY : R) (points : list Point)
  : R * R * R * R :=
  match points with
  | [] => (minX, minY, maxX, maxY)
  | point :: rest =>
      extremesLoop
        (if Rlt_dec (p_x point) minX then p_x point else minX)
        (if Rlt_dec (p_y point) minY then p_y point else minY)
        (if Rgt_dec (p_x point) maxX then p_x point else maxX)
        (if Rgt_dec (p_y point) maxY then p_y point else maxY)
        rest
  end.

Definition calculateBoundingBox (stroke : Stroke) : BoundingBox :=
  match st_points stroke with
  | [] => {| bb_x := 0; bb_y := 0; bb_width := 0; bb_height := 0 |}
  | first :: rest =>
      let '(minX, minY, maxX, maxY) :=
        extremesLoop (p_x first) (p_y first) (p_x first) (p_y first) rest in
      let halfWidth := st_width stroke / 2 in
      {| bb_x := minX - halfWidth;
         bb_y := minY - halfWidth;
         bb_width := maxX - minX + st_width stroke;
         bb_height := maxY - minY + st_width stroke |}
  end.

Definition calculateBoundingBoxForPoints (points : list Point) : BoundingBox :=
  match points with
  | [] => {| bb_x := 0; bb_y := 0; bb_width := 0; bb_height := 0 |}
  | first :: rest =>
      let '(minX, minY, maxX, maxY) :=
        extremesLoop (p_x first) (p_y first) (p_x first) (p_y first) rest in
      {| bb_x := minX; bb_y := minY;
         bb_width := maxX - minX; bb_height := maxY - minY |}
  end.

(** ** Path simplification (Ramer-Douglas-Peucker) *)

Definition perpendicularDistance (point lineStart lineEnd : Point) : R :=
  let dx := p_x lineEnd - p_x lineStart in
  let dy := p_y lineEnd - p_y lineStart in
  let lengthSq := dx * dx + dy * dy in
  if Req_dec_T lengthSq 0 then
    let pdx := p_x point - p_x lineStart in
    let pdy := p_y point - p_y lineStart in
    sqrt (pdx * pdx + pdy * pdy)
  else
    let numerator :=
      Rabs (dy * p_x point - dx * p_y point
            + p_x lineEnd * p_y lineStart - p_y lineEnd * p_x lineStart) in
    numerator / sqrt lengthSq.

(** The scan of [simplifyPath] over the interior points
    [points[1 .. length - 2]]; [i] is the index of the head of
    [interior]. *)
Fixpoint farthestLoop (first last : Point) (i : nat)
    (maxDistance : R) (maxIndex : nat) (interior : list Point) : R * nat :=
  match interior with
  | [] => (maxDistance, maxIndex)
  | point :: rest =>
      let d := perpendicularDistance point first last in
      if Rgt_dec d maxDistance
      then farthestLoop first last (S i) d i rest
      else farthestLoop first last (S i) maxDistance maxIndex rest
  end.

(** [simplifyPath] calls itself on two slices of its input.  [fuel]
    bounds the depth of the recursion; [None] stands for a recursion
    deeper than that. *)
Fixpoint simplifyPath (fuel : nat) (points : list Point) (tolerance : R)
  : option (list Point) :=
  match fuel with
  | O => None
  | S fuel' =>
      if (List.length points <=? 2)%nat then Some points
      else
        match points with
        | [] => Some []
        | first :: _ =>
            let last := List.last points first in
            let '(maxDistance, maxIndex) :=
              farthestLoop first last 1 0 0 (removelast (tl points)) in
            if Rgt_dec maxDistance tolerance then
              match simplifyPath fuel' (firstn (maxIndex + 1) points) tolerance,
                    simplifyPath fuel' (skipn maxIndex points) tolerance with
              | Some left_, Some right_ => Some (removelast left_ ++ right_)
              | _, _ => None
              end
            else Some [first; last]
        end
  end.

(** ** Stroke animation and transforms *)

Definition calculateStrokeAnimationDuration (stroke : Stroke) : R :=
  if (List.length (st_points stroke) <? 2)%nat then MIN_STROKE_ANIMATION_MS
  else
    let pathLength := calculatePathLength (st_points stroke) in
    let complexityMultiplier :=
      pow COMPLEXITY_FACTOR_PER_POINT (List.length (st_points stroke)) in
    let rawDuration := (pathLength / BASE_PX_PER_MS) * complexityMultiplier in
    round (Rmin (Rmax rawDuration MIN_STROKE_ANIMATION_MS)
                MAX_STROKE_ANIMATION_MS).

Definition mergeStrokes (newId : jsString) (a b : Stroke) : Stroke :=
  {| st_id := newId;
     st_points := st_points a ++ st_points b;
     st_color := st_color a;
     st_width := st_width a;
     st_opacity := st_opacity a |}.

Definition scaleStroke (newId : jsString) (stroke : Stroke)
    (scaleX scaleY : R) (origin : Point) : Stroke :=
  {| st_id := newId;
     st_points :=
       map (fun p => {| p_x := p_x origin + (p_x p - p_x origin) * scaleX;
                        p_y := p_y origin + (p_y p - p_y origin) * scaleY |})
           (st_points stroke);
     st_color := st_color stroke;
     st_width := st_width stroke;
     st_opacity := st_opacity stroke |}.

Definition translateStroke (newId : jsString) (stroke : Stroke) (dx dy : R)
  : Stroke :=
  {| st_id := newId;
     st_points := map (fun p => {| p_x := p_x p + dx; p_y := p_y p + dy |})
                      (st_points stroke);
     st_color := st_color stroke;
     st_width := st_width stroke;
     st_opacity := st_opacity stroke |}.

End Geometry.

(* ================================================================== *)
(** * Timeline module *)
(* ================================================================== *)

Module Timeline.

(** ** Constants *)

Definition MIN_PLAYBACK_RATE : R := 0.25.
Definition MAX_PLAYBACK_RATE : R := 4.0.
Definition OVERLAP_TOLERANCE_MS : R := 1.
Definition GAP_WARNING_THRESHOLD_MS : R := 5000.

(** ** Internal helpers *)

Definition clamp01 (value : R) : R := Rmin (Rmax value 0) 1.

Definition clampTime (value min max : R) : R := Rmin (Rmax value min) max.

(** [time >= e.startTime && time < e.endTime] *)
Definition activeAt (time : R) (e : TimelineEvent) : bool :=
  (if Rge_dec time (ev_startTime e) then true else false)
  && (if Rlt_dec time (ev_endTime e) then true else false).

(** ** Events *)

Definition createTimelineEvent (newId : jsString) (type : TimelineEventType)
    (startTime endTime : R) (payload : TimelineEventPayload) : TimelineEvent :=
  mkEvent newId type startTime endTime payload.

Definition getEventsAtTime (events : list TimelineEvent) (time : R)
  : list TimelineEvent :=
  filter (activeAt time) events.

Definition getEventsByType (events : list TimelineEvent)
    (type : TimelineEventType) : list TimelineEvent :=
  filter (fun e => TimelineEventType_eqb (ev_type e) type) events.

(** [a.startTime - b.startTime || a.endTime - b.endTime] *)
Definition compareEvents (a b : TimelineEvent) : R :=
  let d := ev_startTime a - ev_startTime b in
  if Req_dec_T d 0 then ev_endTime a - ev_endTime b else d.

Definition sortTimelineEvents (events : list TimelineEvent)
  : list TimelineEvent :=
  Js.sort compareEvents events.

(** [Math.max(...values)] on a non-empty argument list. *)
Fixpoint maxOf (first : R) (others : list R) : R :=
  match others with
  | [] => first
  | v :: others' => maxOf (Rmax first v) others'
  end.

Definition calculateTimelineDuration (events : list TimelineEvent) : R :=
  match map ev_endTime events with
  | [] => 0
  | v :: vs => maxOf v vs
  end.

(** ** Engine state *)

Definition createInitialEngineState : EngineState :=
  {| isPlaying := false; currentTime := 0; duration := 0;
     playbackRate := 1; status := idle |}.

(** ** Tracks *)

Definition createTimelineTrack (newId : jsString) (type : TrackType)
    (events : list TimelineEvent) : TimelineTrack :=
  {| trk_id := newId; trk_type := type; trk_events := events;
     trk_locked := false; trk_visible := true |}.

Definition addEventToTrack (track : TimelineTrack) (event : TimelineEvent)
  : TimelineTrack :=
  if trk_locked track then track
  else {| trk_id := trk_id track; trk_type := trk_type track;
          trk_events := trk_events track ++ [event];
          trk_locked := trk_locked track; trk_visible := trk_visible track |}.

Definition jsString_eqb (a b : jsString) : bool :=
  if list_eq_dec N.eq_dec a b then true else false.

Definition removeEventFromTrack (track : TimelineTrack) (eventId : jsString)
  : TimelineTrack :=
  if trk_locked track then track
  else {| trk_id := trk_id track; trk_type := trk_type track;
          trk_events :=
            filter (fun e => negb (jsString_eqb (ev_id e) eventId))
                   (trk_events track);
          trk_locked := trk_locked track; trk_visible := trk_visible track |}.

Definition toggleTrackVisibility (track : TimelineTrack) : TimelineTrack :=
  {| trk_id := trk_id track; trk_type := trk_type track;
     trk_events := trk_events track; trk_locked := trk_locked track;
     trk_visible := negb (trk_visible track) |}.

Definition lockTrack (track : TimelineTrack) : TimelineTrack :=
  {| trk_id := trk_id track; trk_type := trk_type track;
     trk_events := trk_events track; trk_locked := true;
     trk_visible := trk_visible track |}.

Definition unlockTrack (track : TimelineTrack) : TimelineTrack :=
  {| trk_id := trk_id track; trk_type := trk_type track;
     trk_events := trk_events track; trk_locked := false;
     trk_visible := trk_visible track |}.

(** ** Validation *)

(** First loop of [validateTimeline]: events of non-positive duration. *)
Definition durationErrors (sorted : list TimelineEvent)
  : list TimelineValidationError :=
  flat_map (fun event =>
    if Rle_dec (ev_endTime event) (ev_startTime event) then
      [ {| ve_eventId := ev_id event;
           ve_message :=
             NonPositiveDuration (ev_startTime event) (ev_endTime event);
           ve_severity := severityError |} ]
    else []) sorted.

(** Body of the second loop for one pair [sorted[i-1]], [sorted[i]]. *)
Definition neighbourErrors (prev curr : TimelineEvent)
  : list TimelineValidationError :=
  let overlap := ev_endTime prev - ev_startTime curr in
  let gap := ev_startTime curr - ev_endTime prev in
  (if Rgt_dec overlap OVERLAP_TOLERANCE_MS then
     [ {| ve_eventId := ev_id curr;
          ve_message := OverlapsPrevious (ev_id prev) overlap;
          ve_severity := severityError |} ]
   else [])
  ++
  (if Rgt_dec gap GAP_WARNING_THRESHOLD_MS then
     [ {| ve_eventId := ev_id curr;
          ve_message := LargeGap gap;
          ve_severity := warning |} ]
   else []).

(** Second loop, [i] running from 1: [prev] is [sorted[i-1]] and [rest]
    starts at [sorted[i]]. *)
Fixpoint neighbourLoop (prev : TimelineEvent) (rest : list TimelineEvent)
  : list TimelineValidationError :=
  match rest with
  | [] => []
  | curr :: rest' => neighbourErrors prev curr ++ neighbourLoop curr rest'
  end.

Definition validateTrack (track : TimelineTrack)
  : list TimelineValidationError :=
  let sorted := sortTimelineEvents (trk_events track) in
  durationErrors sorted
  ++ match sorted with
     | [] => []
     | first :: rest => neighbourLoop first rest
     end.

Definition validateTimeline (tracks : list TimelineTrack)
  : list TimelineValidationError :=
  flat_map validateTrack tracks.

Definition buildTimeline (tracks : list TimelineTrack) : TimelineBuildResult :=
  let allEvents := flat_map trk_events tracks in
  {| br_tracks :=
       map (fun t =>
              {| trk_id := trk_id t; trk_type := trk_type t;
                 trk_events := sortTimelineEvents (trk_events t);
                 trk_locked := trk_locked t; trk_visible := trk_visible t |})
           tracks;
     br_duration := calculateTimelineDuration allEvents;
     br_eventCount := length allEvents;
     br_errors := validateTimeline tracks |}.

Definition getTimelineProgress (currentTime duration : R) : R :=
  if Rle_dec duration 0 then 0 else clamp01 (currentTime / duration).

(** ** Engine-state transitions *)

Definition advanceEngineState (state : EngineState) (deltaMs : R)
  : EngineState :=
  if negb (isPlaying state) || negb (EngineStatus_eqb (status state) playing)
  then state
  else
    let newTime := currentTime state + deltaMs * playbackRate state in
    if Rge_dec newTime (duration state) then
      {| isPlaying := false;
         currentTime := duration state;
         duration := duration state;
         playbackRate := playbackRate state;
         status := ready |}
    else
      {| isPlaying := isPlaying state;
         currentTime := Rmax 0 newTime;
         duration := duration state;
         playbackRate := playbackRate state;
         status := status state |}.

Definition pauseEngine (state : EngineState) : EngineState :=
  if negb (isPlaying state) then state
  else {| isPlaying := false;
          currentTime := currentTime state;
          duration := duration state;
          playbackRate := playbackRate state;
          status := paused |}.

Definition resumeEngine (state : EngineState) : EngineState :=
  if negb (EngineStatus_eqb (status state) paused)
     && negb (EngineStatus_eqb (status state) ready)
  then state
  else {| isPlaying := true;
          currentTime := currentTime state;
          duration := duration state;
          playbackRate := playbackRate state;
          status := playing |}.

Definition seekEngine (state : EngineState) (time : R) : EngineState :=
  {| isPlaying := isPlaying state;
     currentTime := clampTime time 0 (duration state);
     duration := duration state;
     playbackRate := playbackRate state;
     status := status state |}.

Definition setPlaybackRate (state : EngineState) (rate : R) : EngineState :=
  {| isPlaying := isPlaying state;
     currentTime := currentTime state;
     duration := duration state;
     playbackRate := clampTime rate MIN_PLAYBACK_RATE MAX_PLAYBACK_RATE;
     status := status state |}.

Definition getActiveTracksAtTime (tracks : list TimelineTrack) (time : R)
  : list TimelineTrack :=
  filter (fun t => trk_visible t && existsb (activeAt time) (trk_events t))
         tracks.

Definition trackTypeName (type : TrackType) : jsString :=
  match type with
  | cursor => lit "cursor"
  | drawing => lit "drawing"
  | text => lit "text"
  | narration => lit "narration"
  | highlight => lit "highlight"
  end.

(** The double-quote character. *)
Definition quote : jsString := [34%N].

(** The message of the one [throw] of the module. *)
Definition mergeTypeMismatch (a b : TrackType) : jsString :=
  lit "Cannot merge tracks of different types: "
  ++ quote ++ trackTypeName a ++ quote
  ++ lit " and "
  ++ quote ++ trackTypeName b ++ quote.

Definition mergeTimelineTracks (newId : jsString) (a b : TimelineTrack)
  : Result TimelineTrack :=
  if negb (TrackType_eqb (trk_type a) (trk_type b)) then
    Throw (mergeTypeMismatch (trk_type a) (trk_type b))
  else
    Ok {| trk_id := newId;
          trk_type := trk_type a;
          trk_events := sortTimelineEvents (trk_events a ++ trk_events b);
          trk_locked := trk_locked a;
          trk_visible := trk_visible a |}.

Definition clampToTimeline (events : list TimelineEvent) (time : R) : R :=
  clampTime time 0 (calculateTimelineDuration events).

Definition setEngineStatus (state : EngineState) (newStatus : EngineStatus)
  : EngineState :=
  {| isPlaying := EngineStatus_eqb newStatus playing;
     currentTime := currentTime state;
     duration := duration state;
     playbackRate := playbackRate state;
     status := newStatus |}.

Definition setEngineDuration (state : EngineState) (newDuration : R)
  : EngineState :=
  let nextStatus :=
    if EngineStatus_eqb (status state) loading
       || EngineStatus_eqb (status state) idle
    then ready else status state in
  {| isPlaying := isPlaying state;
     currentTime := currentTime state;
     duration := Rmax 0 newDuration;
     playbackRate := playbackRate state;
     status := nextStatus |}.

Definition getTracksByType (tracks : list TimelineTrack) (type : TrackType)
  : list TimelineTrack :=
  filter (fun t => TrackType_eqb (trk_type t) type) tracks.

Definition getAllEventsFromTracks (tracks : list TimelineTrack)
  : list TimelineEvent :=
  sortTimelineEvents (flat_map trk_events tracks).

End Timeline.

(* ================================================================== *)
(** * Narration module *)
(* ================================================================== *)

Module Narration.

(** ** Constants *)

Definition AVERAGE_WORDS_PER_MINUTE : R := 150.
Definition DEFAULT_MERGE_GAP_THRESHOLD : R := 0.3.

(** ** Word timings *)

(** [text.split(/\s+/).filter((w) => w.length > 0)] *)
Definition wordsOf (text : jsString) : list jsString :=
  filter (fun w => (0 <? List.length w)%nat) (splitWhiteSpace text).

(** [words.reduce((sum, w) => sum + w.length, 0)] *)
Definition totalCharsOf (words : list jsString) : nat :=
  fold_left (fun sum w => (sum + List.length w)%nat) words 0%nat.

(** Loop of [estimateWordTimings]: [count] is [words.length], [i] the
    loop index, [rest] the words from index [i] on. *)
Fixpoint timingLoop (count totalChars : nat) (totalDuration endTime : R)
    (i : nat) (cursor : R) (rest : list jsString) : list WordTiming :=
  match rest with
  | [] => []
  | word :: rest' =>
      let proportion := INR (List.length word) / INR totalChars in
      let wordDuration := totalDuration * proportion in
      let wordEnd :=
        if (i =? count - 1)%nat then endTime else cursor + wordDuration in
      {| wt_word := word; wt_startTime := cursor;
         wt_endTime := wordEnd; wt_index := i |}
      :: timingLoop count totalChars totalDuration endTime (S i) wordEnd rest'
  end.

Definition estimateWordTimings (text : jsString) (startTime endTime : R)
  : list WordTiming :=
  let words := wordsOf text in
  if (List.length words =? 0)%nat then []
  else
    let totalChars := totalCharsOf words in
    let totalDuration := endTime - startTime in
    if (if Rle_dec totalDuration 0 then true else false)
       || (totalChars =? 0)%nat
    then
      mapIndex (fun word index =>
                  {| wt_word := word; wt_startTime := startTime;
                     wt_endTime := startTime; wt_index := index |})
               words
    else
      timingLoop (List.length words) totalChars totalDuration endTime
                 0 startTime words.

Definition createNarrationSegment (newId text : jsString)
    (startTime duration : R) (audioUrl : option jsString)
  : NarrationSegmentConfig :=
  let endTime := startTime + duration in
  {| seg_id := newId; seg_text := text;
     seg_startTime := startTime; seg_endTime := endTime;
     seg_audioUrl := audioUrl;
     seg_wordTimings := estimateWordTimings text startTime endTime |}.

(** ** Merging adjacent segments *)

(** The [group] array of [mergeAdjacentSegments] is never empty: it is
    created holding one segment and only grows by [push].  It is kept as
    that first segment and the segments pushed after it. *)
Record Group : Type := mkGroup {
  g_first : NarrationSegmentConfig;
  g_pushed : list NarrationSegmentConfig
}.

Definition members (group : Group) : list NarrationSegmentConfig :=
  g_first group :: g_pushed group.

(** [group[group.length - 1]] *)
Definition lastOf (group : Group) : NarrationSegmentConfig :=
  List.last (g_pushed group) (g_first group).

Definition push (group : Group) (s : NarrationSegmentConfig) : Group :=
  {| g_first := g_first group; g_pushed := g_pushed group ++ [s] |}.

(** [group.find((s) => s.audioUrl !== null)?.audioUrl ?? null] *)
Definition firstAudioUrl (segments : list NarrationSegmentConfig)
  : option jsString :=
  match find (fun s => match seg_audioUrl s with
                       | Some _ => true
                       | None => false
                       end) segments with
  | Some s => seg_audioUrl s
  | None => None
  end.

(** The nested loops of [collapseGroup] that copy every word timing of
    every segment, numbering them with the running [wordIndex]. *)
Definition combineTimings (segments : list NarrationSegmentConfig)
  : list WordTiming :=
  mapIndex (fun wt wordIndex =>
              {| wt_word := wt_word wt;
                 wt_startTime := wt_startTime wt;
                 wt_endTime := wt_endTime wt;
                 wt_index := wordIndex |})
           (flat_map seg_wordTimings segments).

(** [newId] is what [generateId] returns; it is called only for a group
    of two or more segments. *)
Definition collapseGroup (newId : jsString) (group : Group)
  : NarrationSegmentConfig :=
  match g_pushed group with
  | [] => g_first group
  | _ :: _ =>
      let first := g_first group in
      let last := lastOf group in
      {| seg_id := newId;
         seg_text := join (lit " ") (map seg_text (members group));
         seg_startTime := seg_startTime first;
         seg_endTime := seg_endTime last;
         seg_audioUrl := firstAudioUrl (members group);
         seg_wordTimings := combineTimings (members group) |}
  end.

(** [(a, b) => a.startTime - b.startTime] *)
Definition compareSegments (a b : NarrationSegmentConfig) : R :=
  seg_startTime a - seg_startTime b.

(** Loop of [mergeAdjacentSegments] over [sorted[1..]].  [ids n] is the
    identifier [generateId] returns while the output segment of index
    [n] is built. *)
Fixpoint mergeLoop (ids : nat -> jsString) (gapThreshold : R)
    (merged : list NarrationSegmentConfig) (group : Group)
    (rest : list NarrationSegmentConfig) : list NarrationSegmentConfig :=
  match rest with
  | [] => merged ++ [collapseGroup (ids (List.length merged)) group]
  | current :: rest' =>
      let prev := lastOf group in
      let gap := seg_startTime current - seg_endTime prev in
      if Rle_dec gap gapThreshold then
        mergeLoop ids gapThreshold merged (push group current) rest'
      else
        mergeLoop ids gapThreshold
                  (merged ++ [collapseGroup (ids (List.length merged)) group])
                  (mkGroup current []) rest'
  end.

Definition mergeAdjacentSegments (ids : nat -> jsString)
    (segments : list NarrationSegmentConfig) (gapThreshold : R)
  : list NarrationSegmentConfig :=
  if (List.length segments =? 0)%nat then []
  else
    match Js.sort compareSegments segments with
    | [] => []
    | first :: rest => mergeLoop ids gapThreshold [] (mkGroup first []) rest
    end.

(** ** Narration state *)

Definition clamp01 (value : R) : R := Rmin (Rmax value 0) 1.

Definition clampVolume (volume : R) : R := clamp01 volume.

Definition createNarrationState : NarrationState :=
  {| ns_isActive := false; ns_currentSegmentId := None; ns_volume := 1.0 |}.

Definition activateNarration (state : NarrationState)
    (segmentId : option jsString) : NarrationState :=
  {| ns_isActive := true; ns_currentSegmentId := segmentId;
     ns_volume := ns_volume state |}.

Definition deactivateNarration (state : NarrationState) : NarrationState :=
  {| ns_isActive := false; ns_currentSegmentId := None;
     ns_volume := ns_volume state |}.

Definition setVolume (state : NarrationState) (volume : R) : NarrationState :=
  {| ns_isActive := ns_isActive state;
     ns_currentSegmentId := ns_currentSegmentId state;
     ns_volume := clampVolume volume |}.

Definition setCurrentSegment (state : NarrationState)
    (segmentId : option jsString) : NarrationState :=
  {| ns_isActive := ns_isActive state;
     ns_currentSegmentId := segmentId;
     ns_volume := ns_volume state |}.

(** ** Lookup by time *)

(** [time >= startTime && time < endTime] *)
Definition contains (startTime endTime time : R) : bool :=
  (if Rge_dec time startTime then true else false)
  && (if Rlt_dec time endTime then true else false).

Definition findSegmentAtTime (segments : list NarrationSegmentConfig)
    (time : R) : option NarrationSegmentConfig :=
  find (fun s => contains (seg_startTime s) (seg_endTime s) time) segments.

Definition findWordAtTime (segment : NarrationSegmentConfig) (time : R)
  : option WordTiming :=
  find (fun w => contains (wt_startTime w) (wt_endTime w) time)
       (seg_wordTimings segment).

Definition calculateSegmentProgress (segment : NarrationSegmentConfig)
    (currentTime : R) : R :=
  let duration := seg_endTime segment - seg_startTime segment in
  if Rle_dec duration 0 then 0
  else
    let elapsed := currentTime - seg_startTime segment in
    clamp01 (elapsed / duration).

Definition calculateWordProgress (segment : NarrationSegmentConfig)
    (currentTime : R) : R :=
  match findWordAtTime segment currentTime with
  | None => 0
  | Some word =>
      let duration := wt_endTime word - wt_startTime word in
      if Rle_dec duration 0 then 0
      else
        let elapsed := currentTime - wt_startTime word in
        clamp01 (elapsed / duration)
  end.

(** ** Highlighting *)

Inductive WordHighlightState : Type := past | current | future.

Record HighlightedWord : Type := mkHighlightedWord {
  hw_word : jsString;
  hw_index : nat;
  hw_state : WordHighlightState
}.

Definition getHighlightedWords (segment : NarrationSegmentConfig)
    (currentTime : R) : list HighlightedWord :=
  map (fun wt =>
         let state :=
           if Rge_dec currentTime (wt_endTime wt) then past
           else if Rge_dec currentTime (wt_startTime wt) then current
           else future in
         {| hw_word := wt_word wt; hw_index := wt_index wt;
            hw_state := state |})
      (seg_wordTimings segment).

(** ** Laying out a narration *)

Definition estimateSpeechDuration (text : jsString) : R :=
  let words := wordsOf text in
  if (List.length words =? 0)%nat then 0
  else (INR (List.length words) / AVERAGE_WORDS_PER_MINUTE) * 60.

(** Loop of [buildNarrationTimeline].  [ids n] is the identifier
    [generateId] returns while the segment of index [n] is created. *)
Fixpoint buildLoop (ids : nat -> jsString) (gapBetween : R)
    (segments : list NarrationSegmentConfig) (cursor : R)
    (texts : list jsString) : list NarrationSegmentConfig :=
  match texts with
  | [] => segments
  | txt :: rest =>
      if (List.length (trim txt) =? 0)%nat then
        buildLoop ids gapBetween segments cursor rest
      else
        let duration := estimateSpeechDuration txt in
        buildLoop ids gapBetween
          (segments ++ [createNarrationSegment (ids (List.length segments))
                          txt cursor duration None])
          (cursor + (duration + gapBetween)) rest
  end.

Definition buildNarrationTimeline (ids : nat -> jsString)
    (texts : list jsString) (startOffset gapBetween : R)
  : list NarrationSegmentConfig :=
  buildLoop ids gapBetween [] startOffset texts.

(** What one segment contributes to [parts] in
    [getNarrationTextAtTime]. *)
Definition visibleParts (currentTime : R) (segment : NarrationSegmentConfig)
  : list jsString :=
  if Rge_dec currentTime (seg_endTime segment) then [seg_text segment]
  else if Rge_dec currentTime (seg_startTime segment) then
    let revealedWords :=
      map wt_word
          (filter (fun wt => if Rge_dec currentTime (wt_startTime wt)
                             then true else false)
                  (seg_wordTimings segment)) in
    if (0 <? List.length revealedWords)%nat
    then [join (lit " ") revealedWords]
    else []
  else [].

Definition getNarrationTextAtTime (segments : list NarrationSegmentConfig)
    (currentTime : R) : jsString :=
  join (lit " ") (flat_map (visibleParts currentTime) segments).

End Narration.

(* ================================================================== *)
(** * Playback controller *)
(* ================================================================== *)

(** The class [LessonPlaybackEngine].  An instance is a record of its
    private fields; a method takes the instance and returns the instance
    after the call together with what the call emitted, in order.  The
    readings of the clock ([now()]) a method makes are arguments of the
    method.  The listener sets are not part of the record: an emission
    stands for the call of every listener registered on its channel. *)

Module Playback.

Import Geometry Timeline.

(** ** Constants *)

Definition DEFAULT_TARGET_FPS : R := 60.
Definition DEFAULT_MAX_DELTA_MS : R := 100.
Definition DEFAULT_AUTO_PLAY : bool := false.

Definition DEFAULT_CONFIG : PlaybackConfig :=
  {| cfg_targetFps := DEFAULT_TARGET_FPS;
     cfg_maxDeltaMs := DEFAULT_MAX_DELTA_MS;
     cfg_autoPlay := DEFAULT_AUTO_PLAY |}.

(** [Partial<PlaybackConfig>]: the fields the caller supplies. *)
Record PartialConfig : Type := mkPartialConfig {
  pc_targetFps : option R;
  pc_maxDeltaMs : option R;
  pc_autoPlay : option bool
}.

Inductive LogLevel : Type := log_info | log_warn | log_error.

(** What a method emits: the calls of the four listener channels and the
    entries it logs (their text is not modelled). *)
Inductive Notification : Type :=
| Frame (snapshot : PlaybackSnapshot)
| StateChange (current previous : EngineState)
| Complete
| Seek (fromTime toTime : R)
| Logged (level : LogLevel).

Record LessonPlaybackEngine : Type := mkEngine {
  e_state : EngineState;
  e_tracks : list TimelineTrack;
  e_config : PlaybackConfig;
  e_lastTickTimestamp : R;
  e_lastSnapshot : option PlaybackSnapshot;
  (** the pending timer of the self-managed loop, with its delay *)
  e_loopTimer : option R;
  e_loopRunning : bool;
  e_nextTickTime : R
}.

Definition clamp01 (value : R) : R := Rmin (Rmax value 0) 1.

(** [{ ...DEFAULT_CONFIG, ...config }] *)
Definition mergeConfig (config : PartialConfig) : PlaybackConfig :=
  {| cfg_targetFps :=
       match pc_targetFps config with
       | Some v => v
       | None => cfg_targetFps DEFAULT_CONFIG
       end;
     cfg_maxDeltaMs :=
       match pc_maxDeltaMs config with
       | Some v => v
       | None => cfg_maxDeltaMs DEFAULT_CONFIG
       end;
     cfg_autoPlay :=
       match pc_autoPlay config with
       | Some v => v
       | None => cfg_autoPlay DEFAULT_CONFIG
       end |}.

Definition construct (config : PartialConfig) : LessonPlaybackEngine :=
  {| e_state := createInitialEngineState;
     e_tracks := [];
     e_config := mergeConfig config;
     e_lastTickTimestamp := 0;
     e_lastSnapshot := None;
     e_loopTimer := None;
     e_loopRunning := false;
     e_nextTickTime := 0 |}.

(** ** Field updates *)

Definition withState (e : LessonPlaybackEngine) (state : EngineState)
  : LessonPlaybackEngine :=
  mkEngine state (e_tracks e) (e_config e) (e_lastTickTimestamp e)
           (e_lastSnapshot e) (e_loopTimer e) (e_loopRunning e)
           (e_nextTickTime e).

Definition withLastTick (e : LessonPlaybackEngine) (timestamp : R)
  : LessonPlaybackEngine :=
  mkEngine (e_state e) (e_tracks e) (e_config e) timestamp
           (e_lastSnapshot e) (e_loopTimer e) (e_loopRunning e)
           (e_nextTickTime e).

Definition withSnapshot (e : LessonPlaybackEngine)
    (snapshot : option PlaybackSnapshot) : LessonPlaybackEngine :=
  mkEngine (e_state e) (e_tracks e) (e_config e) (e_lastTickTimestamp e)
           snapshot (e_loopTimer e) (e_loopRunning e) (e_nextTickTime e).

Definition withTracks (e : LessonPlaybackEngine)
    (tracks : list TimelineTrack) : LessonPlaybackEngine :=
  mkEngine (e_state e) tracks (e_config e) (e_lastTickTimestamp e)
           (e_lastSnapshot e) (e_loopTimer e) (e_loopRunning e)
           (e_nextTickTime e).

(** ** Snapshot computation *)

Definition noActiveEvents : ActiveEventsByType :=
  mkActiveEvents [] [] [] [] [].

(** One pass of the loop of [_computeActiveEvents]. *)
Definition collectActive (currentTime : R) (result : ActiveEventsByType)
    (track : TimelineTrack) : ActiveEventsByType :=
  if negb (trk_visible track) then result
  else
    let active := getEventsAtTime (trk_events track) currentTime in
    if (List.length active =? 0)%nat then result
    else
      match trk_type track with
      | cursor =>
          mkActiveEvents (ae_cursor result ++ active) (ae_drawing result)
            (ae_text result) (ae_narration result) (ae_highlight result)
      | drawing =>
          mkActiveEvents (ae_cursor result) (ae_drawing result ++ active)
            (ae_text result) (ae_narration result) (ae_highlight result)
      | text =>
          mkActiveEvents (ae_cursor result) (ae_drawing result)
            (ae_text result ++ active) (ae_narration result)
            (ae_highlight result)
      | narration =>
          mkActiveEvents (ae_cursor result) (ae_drawing result)
            (ae_text result) (ae_narration result ++ active)
            (ae_highlight result)
      | highlight =>
          mkActiveEvents (ae_cursor result) (ae_drawing result)
            (ae_text result) (ae_narration result)
            (ae_highlight result ++ active)
      end.

Definition computeActiveEvents (e : LessonPlaybackEngine)
  : ActiveEventsByType :=
  fold_left (collectActive (currentTime (e_state e))) (e_tracks e)
            noActiveEvents.

(** Progress through an event at the current time. *)
Definition eventProgress (currentTime : R) (event : TimelineEvent) : R :=
  let eventDuration := ev_endTime event - ev_startTime event in
  if Rgt_dec eventDuration 0
  then clamp01 ((currentTime - ev_startTime event) / eventDuration)
  else 1.

Definition computeCursorState (e : LessonPlaybackEngine)
    (activeEvents : ActiveEventsByType) : CursorState :=
  match rev (ae_cursor activeEvents) with
  | [] => {| cur_x := 0; cur_y := 0; cur_visible := false;
             cur_style := style_default |}
  | event :: _ =>
      let progress := eventProgress (currentTime (e_state e)) event in
      let position :=
        match pl_path (ev_payload event) with
        | Some (first :: rest) =>
            let path := first :: rest in
            let totalLength := calculatePathLength path in
            let point := getPointAtDistance path (totalLength * progress) in
            (p_x point, p_y point)
        | _ =>
            match pl_position (ev_payload event) with
            | Some position => (p_x position, p_y position)
            | None => (0, 0)
            end
        end in
      let style :=
        if (0 <? List.length (ae_drawing activeEvents))%nat
        then style_drawing
        else if (0 <? List.length (ae_text activeEvents))%nat
             then style_writing
             else style_pointer in
      {| cur_x := fst position; cur_y := snd position;
         cur_visible := true; cur_style := style |}
  end.

Definition defaultColor : jsString := lit "#ffffff".

(** One pass of the inner loop of [_computeDrawingState]. *)
Definition drawEvent (currentTime : R) (acc : list Stroke * option Stroke)
    (event : TimelineEvent) : list Stroke * option Stroke :=
  match pl_path (ev_payload event) with
  | Some (first :: rest) =>
      let path := first :: rest in
      let color :=
        match pl_color (ev_payload event) with
        | Some c => c
        | None => defaultColor
        end in
      let width :=
        match pl_strokeWidth (ev_payload event) with
        | Some w => w
        | None => 2
        end in
      if Rge_dec currentTime (ev_endTime event) then
        (fst acc ++ [ {| st_id := ev_id event; st_points := path;
                         st_color := color; st_width := width;
                         st_opacity := 1 |} ],
         snd acc)
      else if Rge_dec currentTime (ev_startTime event) then
        let progress := eventProgress currentTime event in
        let fullStroke :=
          {| st_id := ev_id event; st_points := path; st_color := color;
             st_width := width; st_opacity := 1 |} in
        (fst acc,
         Some {| st_id := ev_id event;
                 st_points := getStrokeProgress fullStroke progress;
                 st_color := color; st_width := width; st_opacity := 1 |})
      else acc
  | _ => acc
  end.

(** One pass of the outer loop of [_computeDrawingState]. *)
Definition drawTrack (currentTime : R) (acc : list Stroke * option Stroke)
    (track : TimelineTrack) : list Stroke * option Stroke :=
  if negb (TrackType_eqb (trk_type track) drawing) || negb (trk_visible track)
  then acc
  else fold_left (drawEvent currentTime) (trk_events track) acc.

Definition computeDrawingState (e : LessonPlaybackEngine) : DrawingState :=
  let '(completedStrokes, activeStroke) :=
    fold_left (drawTrack (currentTime (e_state e))) (e_tracks e) ([], None) in
  {| dr_strokes := completedStrokes; dr_activeStroke := activeStroke |}.

Definition computeNarrationState (narrationEvents : list TimelineEvent)
  : NarrationState :=
  let state := Narration.createNarrationState in
  match narrationEvents with
  | [] => state
  | event :: _ => Narration.activateNarration state (Some (ev_id event))
  end.

Definition computeSnapshot (e : LessonPlaybackEngine) (deltaMs : R)
  : PlaybackSnapshot :=
  let activeEvents := computeActiveEvents e in
  {| snap_engineState := e_state e;
     snap_currentTime := currentTime (e_state e);
     snap_deltaMs := deltaMs;
     snap_progress :=
       getTimelineProgress (currentTime (e_state e)) (duration (e_state e));
     snap_activeEvents := activeEvents;
     snap_cursorState := computeCursorState e activeEvents;
     snap_drawingState := computeDrawingState e;
     snap_narrationState :=
       computeNarrationState (ae_narration activeEvents) |}.

(** ** Self-managed loop *)

Definition stopLoop (e : LessonPlaybackEngine) : LessonPlaybackEngine :=
  mkEngine (e_state e) (e_tracks e) (e_config e) (e_lastTickTimestamp e)
           (e_lastSnapshot e) None false (e_nextTickTime e).

(** [_scheduleNextTick]: the deadline moves on by one frame interval and
    a timer is set for the time left until it, at least 1 ms. *)
Definition scheduleNextTick (nowMs : R) (e : LessonPlaybackEngine)
  : LessonPlaybackEngine :=
  let intervalMs := 1000 / cfg_targetFps (e_config e) in
  let nextTickTime := e_nextTickTime e + intervalMs in
  let delay := Rmax 1 (nextTickTime - nowMs) in
  mkEngine (e_state e) (e_tracks e) (e_config e) (e_lastTickTimestamp e)
           (e_lastSnapshot e) (Some delay) (e_loopRunning e) nextTickTime.

Definition startLoop (nowStart nowSchedule : R) (e : LessonPlaybackEngine)
  : LessonPlaybackEngine :=
  if e_loopRunning e then e
  else
    scheduleNextTick nowSchedule
      (mkEngine (e_state e) (e_tracks e) (e_config e) nowStart
                (e_lastSnapshot e) (e_loopTimer e) true nowStart).

(** ** Tick *)

Definition processTick (timestamp : R) (e : LessonPlaybackEngine)
  : LessonPlaybackEngine * list Notification * PlaybackSnapshot :=
  let rawDelta :=
    if Rgt_dec (e_lastTickTimestamp e) 0
    then timestamp - e_lastTickTimestamp e
    else 0 in
  let deltaMs := Rmin (Rmax rawDelta 0) (cfg_maxDeltaMs (e_config e)) in
  let previous := e_state e in
  let state := advanceEngineState previous deltaMs in
  let e1 := withState (withLastTick e timestamp) state in
  let snapshot := computeSnapshot e1 deltaMs in
  let e2 := withSnapshot e1 (Some snapshot) in
  if isPlaying previous && negb (isPlaying state)
     && (if Rge_dec (currentTime state) (duration state) then true else false)
  then (stopLoop e2,
        [Frame snapshot; Complete; StateChange state previous],
        snapshot)
  else (e2, [Frame snapshot], snapshot).

Definition tick (timestamp : R) (e : LessonPlaybackEngine)
  : LessonPlaybackEngine * list Notification * PlaybackSnapshot :=
  processTick timestamp e.

(** The callback of the timer set by [scheduleNextTick], run at
    [timestamp]; [nowSchedule] is the clock when the next timer is
    set. *)
Definition timerFired (timestamp nowSchedule : R) (e : LessonPlaybackEngine)
  : LessonPlaybackEngine * list Notification :=
  let e0 :=
    mkEngine (e_state e) (e_tracks e) (e_config e) (e_lastTickTimestamp e)
             (e_lastSnapshot e) None (e_loopRunning e) (e_nextTickTime e) in
  if negb (e_loopRunning e0) then (e0, [])
  else
    let '(e1, emitted, _) := processTick timestamp e0 in
    if e_loopRunning e1 then
      let e2 :=
        if Rlt_dec (e_nextTickTime e1) timestamp
        then mkEngine (e_state e1) (e_tracks e1) (e_config e1)
                      (e_lastTickTimestamp e1) (e_lastSnapshot e1)
                      (e_loopTimer e1) (e_loopRunning e1) timestamp
        else e1 in
      (scheduleNextTick nowSchedule e2, emitted)
    else (e1, emitted).

(** ** Playback controls *)

Definition play (nowMs : R) (e : LessonPlaybackEngine)
  : LessonPlaybackEngine * list Notification :=
  if EngineStatus_eqb (status (e_state e)) playing then (e, [])
  else if Rle_dec (duration (e_state e)) 0 then (e, [Logged log_warn])
  else
    let previous := e_state e in
    let s1 :=
      if Rge_dec (currentTime previous) (duration previous)
      then seekEngine previous 0
      else previous in
    let s2 := resumeEngine s1 in
    let s3 :=
      if negb (EngineStatus_eqb (status s2) playing)
      then setEngineStatus s2 playing
      else s2 in
    (withLastTick (withState e s3) nowMs, [StateChange s3 previous]).

Definition pause (e : LessonPlaybackEngine)
  : LessonPlaybackEngine * list Notification :=
  if negb (isPlaying (e_state e)) then (e, [])
  else
    let previous := e_state e in
    let state := pauseEngine previous in
    (withState e state, [StateChange state previous]).

Definition resume (nowMs : R) (e : LessonPlaybackEngine)
  : LessonPlaybackEngine * list Notification :=
  if negb (EngineStatus_eqb (status (e_state e)) paused)
     && negb (EngineStatus_eqb (status (e_state e)) ready)
  then (e, [])
  else
    let previous := e_state e in
    let state := resumeEngine previous in
    (withLastTick (withState e state) nowMs, [StateChange state previous]).

Definition seek (timeMs nowMs : R) (e : LessonPlaybackEngine)
  : LessonPlaybackEngine * list Notification :=
  let fromTime := currentTime (e_state e) in
  let previous := e_state e in
  let state := seekEngine previous timeMs in
  let e1 := withLastTick (withState e state) nowMs in
  let snapshot := computeSnapshot e1 0 in
  let e2 := withSnapshot e1 (Some snapshot) in
  (e2,
   [Seek fromTime (currentTime state); Frame snapshot]
   ++ (if negb (EngineStatus_eqb (status previous) (status state))
       then [StateChange state previous]
       else [])).

Definition setSpeed (rate : R) (e : LessonPlaybackEngine)
  : LessonPlaybackEngine * list Notification :=
  let previous := e_state e in
  let state := setPlaybackRate previous rate in
  (withState e state,
   if Req_dec_T (playbackRate state) (playbackRate previous)
   then []
   else [StateChange state previous]).

(** ** Lifecycle *)

Definition load (tracks : list TimelineTrack)
    (nowPlay nowLoop nowSchedule : R) (e : LessonPlaybackEngine)
  : LessonPlaybackEngine * list Notification :=
  let result := buildTimeline tracks in
  let logs :=
    map (fun err =>
           match ve_severity err with
           | severityError => Logged log_error
           | warning => Logged log_warn
           end)
        (br_errors result) in
  let previous := e_state e in
  let state := setEngineDuration createInitialEngineState (br_duration result) in
  let e1 := withSnapshot (withState (withTracks e (br_tracks result)) state)
                         None in
  let emitted := logs ++ [StateChange state previous; Logged log_info] in
  if cfg_autoPlay (e_config e) then
    let '(e2, played) := play nowPlay e1 in
    (startLoop nowLoop nowSchedule e2, emitted ++ played)
  else (e1, emitted).

Definition destroy (e : LessonPlaybackEngine) : LessonPlaybackEngine :=
  let e1 := stopLoop e in
  mkEngine createInitialEngineState [] (e_config e1) 0 None
           (e_loopTimer e1) (e_loopRunning e1) (e_nextTickTime e1).

End Playback.

Import Geometry Timeline Narration.

(* ================================================================== *)
(** * Vocabulary of the statements and sample data *)
(* ================================================================== *)

(** The invariant of [EngineState]: [isPlaying] holds exactly in status
    [playing]. *)
Definition playingInvariant (s : EngineState) : Prop :=
  isPlaying s = true <-> status s = playing.

(** [currentTime + deltaMs * playbackRate], the [newTime] of
    [advanceEngineState]. *)
Definition advancedTime (s : EngineState) (deltaMs : R) : R :=
  currentTime s + deltaMs * playbackRate s.

(** A state playing at 1x, 0 ms into a 100 ms timeline. *)
Definition playingState : EngineState :=
  {| isPlaying := true; currentTime := 0; duration := 100;
     playbackRate := 1; status := playing |}.

(** A state playing at 1x, 10 ms into a 100 ms timeline. *)
Definition playingAt10 : EngineState :=
  {| isPlaying := true; currentTime := 10; duration := 100;
     playbackRate := 1; status := playing |}.


(** Ascending by [startTime], ties broken by [endTime]. *)
Definition eventOrder (a b : TimelineEvent) : Prop :=
  ev_startTime a < ev_startTime b \/
  (ev_startTime a = ev_startTime b /\ ev_endTime a <= ev_endTime b).

(** An event spanning [[startTime, endTime)]. *)
Definition spanEvent (id : jsString) (type : TimelineEventType)
    (payload : TimelineEventPayload) (startTime endTime : R) : TimelineEvent :=
  {| ev_id := id; ev_type := type; ev_startTime := startTime;
     ev_endTime := endTime; ev_payload := payload |}.

(** Two events in the order given, or swapped. *)
Definition inEitherOrder (swapped : bool) (e1 e2 : TimelineEvent)
  : list TimelineEvent :=
  if swapped then [e2; e1] else [e1; e2].

Definition cursorTrack (events : list TimelineEvent) : TimelineTrack :=
  {| trk_id := lit "trk_a"; trk_type := cursor; trk_events := events;
     trk_locked := false; trk_visible := true |}.

Definition drawingTrack (events : list TimelineEvent) : TimelineTrack :=
  {| trk_id := lit "trk_b"; trk_type := drawing; trk_events := events;
     trk_locked := false; trk_visible := true |}.

Definition moveEvent (id : string) (startTime endTime : R) : TimelineEvent :=
  spanEvent (lit id) cursor_move emptyPayload startTime endTime.


(** Arc length of the polyline that starts at [prev] and runs through
    [rest]: the sum of the consecutive distances. *)
Fixpoint polylineLength (prev : Point) (rest : list Point) : R :=
  match rest with
  | [] => 0
  | curr :: rest' => distance prev curr + polylineLength curr rest'
  end.

(** A stroke through the given points. *)
Definition strokeOf (points : list Point) : Stroke :=
  {| st_id := lit "stroke_1"; st_points := points;
     st_color := lit "#ffffff"; st_width := 2; st_opacity := 1 |}.

(** The path (0,0), (10,0), (10,10). *)
Definition cornerPath : list Point :=
  [mkPoint 0 0; mkPoint 10 0; mkPoint 10 10].

(** The curve from (0,0) to (3,0) with control points (1,2) and (2,2). *)
Definition archCurve : BezierCurve :=
  {| bz_start := mkPoint 0 0; bz_cp1 := mkPoint 1 2;
     bz_cp2 := mkPoint 2 2; bz_end := mkPoint 3 0 |}.


(** A text is non-blank when it holds a code unit that is not white
    space ([text.trim().length > 0]). *)
Definition nonBlank (text : jsString) : Prop :=
  exists c, In c text /\ isWhiteSpace c = false.



(** What a word timing says apart from its index. *)
Definition timingContent (wt : WordTiming) : jsString * R * R :=
  (wt_word wt, wt_startTime wt, wt_endTime wt).

(** The call of [collapseGroup] that builds the output segment of index
    [n]. *)
Definition collapseAt (ids : nat -> jsString) (group : Group) (n : nat)
  : NarrationSegmentConfig :=
  collapseGroup (ids n) group.

Definition sampleIds : nat -> jsString := fun _ => lit "nar_merged".

(** A segment over [[0, 10]] and one over [[1, 2]], inside the first. *)
Definition longSegment : NarrationSegmentConfig :=
  {| seg_id := lit "nar_a"; seg_text := lit "one";
     seg_startTime := 0; seg_endTime := 10; seg_audioUrl := None;
     seg_wordTimings := [mkWordTiming (lit "one") 0 10 0] |}.

Definition nestedSegment : NarrationSegmentConfig :=
  {| seg_id := lit "nar_b"; seg_text := lit "two";
     seg_startTime := 1; seg_endTime := 2;
     seg_audioUrl := Some (lit "two.mp3");
     seg_wordTimings := [mkWordTiming (lit "two") 1 2 0] |}.

(** The point [interpolatePoints] pushes at index [i] of [n] steps. *)
Definition lineSample (start end_ : Point) (n i : nat) : Point :=
  {| p_x := p_x start + (p_x end_ - p_x start) * (INR i / INR n);
     p_y := p_y start + (p_y end_ - p_y start) * (INR i / INR n) |}.

(** Decide the comparisons on reals that occur in the goal. *)
Ltac decide_reals :=
  repeat match goal with
    | |- context [Req_dec_T ?a ?b] => destruct (Req_dec_T a b); try lra
    | |- context [Rle_dec ?a ?b] => destruct (Rle_dec a b); try lra
    | |- context [Rge_dec ?a ?b] => destruct (Rge_dec a b); try lra
    | |- context [Rlt_dec ?a ?b] => destruct (Rlt_dec a b); try lra
    | |- context [Rgt_dec ?a ?b] => destruct (Rgt_dec a b); try lra
    end.


(** The bounds of the data model: [currentTime] within [[0, duration]]
    and [playbackRate] within [[0.25, 4.0]]. *)
Definition withinBounds (s : EngineState) : Prop :=
  0 <= currentTime s <= duration s /\
  MIN_PLAYBACK_RATE <= playbackRate s <= MAX_PLAYBACK_RATE.

(** A state paused 50 ms into a 100 ms timeline. *)
Definition pausedState : EngineState :=
  {| isPlaying := false; currentTime := 50; duration := 100;
     playbackRate := 1; status := paused |}.

(** Consecutive events of a list are neither overlapping beyond the
    tolerance nor separated by more than the gap threshold. *)
Definition wellSpaced (events : list TimelineEvent) : Prop :=
  forall i prev curr,
    nth_error events i = Some prev ->
    nth_error events (S i) = Some curr ->
    ev_endTime prev - ev_startTime curr <= OVERLAP_TOLERANCE_MS /\
    ev_startTime curr - ev_endTime prev <= GAP_WARNING_THRESHOLD_MS.

(** Whether a message is one of the two kinds reported as errors. *)
Definition isErrorMessage (m : ValidationMessage) : bool :=
  match m with
  | NonPositiveDuration _ _ | OverlapsPrevious _ _ => true
  | LargeGap _ => false
  end.


(** The entry [validateTimeline] pushes for an event of non-positive
    duration. *)
Definition nonPositiveEntry (e : TimelineEvent) : TimelineValidationError :=
  {| ve_eventId := ev_id e;
     ve_message := NonPositiveDuration (ev_startTime e) (ev_endTime e);
     ve_severity := severityError |}.

(** An unlocked text track with the given events. *)
Definition textTrack (events : list TimelineEvent) : TimelineTrack :=
  {| trk_id := lit "trk_t"; trk_type := text; trk_events := events;
     trk_locked := false; trk_visible := true |}.


(** A 4-wide stroke through [cornerPath]. *)
Definition wideStroke : Stroke :=
  {| st_id := lit "stroke_w"; st_points := cornerPath;
     st_color := lit "#ffffff"; st_width := 4; st_opacity := 1 |}.


(** The map of [translateStroke] on one point. *)
Definition translatePoint (dx dy : R) (p : Point) : Point :=
  {| p_x := p_x p + dx; p_y := p_y p + dy |}.

(** The map of [scaleStroke] on one point. *)
Definition scalePoint (scaleX scaleY : R) (origin p : Point) : Point :=
  {| p_x := p_x origin + (p_x p - p_x origin) * scaleX;
     p_y := p_y origin + (p_y p - p_y origin) * scaleY |}.

(** Three points on one line. *)
Definition straightPath : list Point :=
  [mkPoint 0 0; mkPoint 1 1; mkPoint 4 4].


(** A point on the line through [first] and [last]. *)
Definition onChord (first last p : Point) : Prop :=
  exists t, p = lerpPoint first last t.


(** How far a word has come: not yet spoken, being spoken, spoken. *)
Definition highlightRank (state : WordHighlightState) : nat :=
  match state with
  | future => 0
  | current => 1
  | past => 2
  end.

(** A segment over [[0, 4]] with the words "ab" on [[0, 2)] and "cd" on
    [[2, 4)]. *)
Definition twoWordSegment : NarrationSegmentConfig :=
  {| seg_id := lit "nar_c"; seg_text := lit "ab cd";
     seg_startTime := 0; seg_endTime := 4; seg_audioUrl := None;
     seg_wordTimings := [mkWordTiming (lit "ab") 0 2 0;
                         mkWordTiming (lit "cd") 2 4 1] |}.



(** [text.trim().length === 0] *)
Definition isBlank (text : jsString) : bool :=
  (List.length (trim text) =? 0)%nat.

(** Segments placed one after the other from [cursor], the given gap
    apart, each as long as the estimated speech of its text. *)
Fixpoint laidOutFrom (gapBetween cursor : R)
    (segments : list NarrationSegmentConfig) : Prop :=
  match segments with
  | [] => True
  | s :: rest =>
      seg_startTime s = cursor /\
      seg_endTime s = cursor + estimateSpeechDuration (seg_text s) /\
      laidOutFrom gapBetween
                  (cursor + (estimateSpeechDuration (seg_text s) + gapBetween))
                  rest
  end.

(** Three sentences, the second one blank. *)
Definition sampleTexts : list jsString :=
  [lit "draw a line"; lit "  "; lit "then a circle"].


(** An engine state that satisfies both invariants of the data model. *)
Definition wellFormed (s : EngineState) : Prop :=
  playingInvariant s /\ withinBounds s.

(** A freshly constructed engine with the default configuration. *)
Definition freshEngine : Playback.LessonPlaybackEngine :=
  Playback.construct (Playback.mkPartialConfig None None None).

(** A visible drawing track with one stroke drawn over [[0, 1000)]
    along [cornerPath]. *)
Definition cornerTrack : TimelineTrack :=
  {| trk_id := lit "trk_d"; trk_type := drawing;
     trk_events :=
       [ {| ev_id := lit "evt_1"; ev_type := draw_stroke;
            ev_startTime := 0; ev_endTime := 1000;
            ev_payload := mkPayload None (Some cornerPath) None None None
                                    None |} ];
     trk_locked := false; trk_visible := true |}.

(** The engine after loading [cornerTrack]. *)
Definition loadedEngine : Playback.LessonPlaybackEngine :=
  fst (Playback.load [cornerTrack] 0 0 0 freshEngine).




(** The stroke the controller draws for an event along [path], with the
    colour and width of the payload or their defaults. *)
Definition strokeOfEvent (event : TimelineEvent) (path : list Point) : Stroke :=
  {| st_id := ev_id event;
     st_points := path;
     st_color := match pl_color (ev_payload event) with
                 | Some c => c
                 | None => Playback.defaultColor
                 end;
     st_width := match pl_strokeWidth (ev_payload event) with
                 | Some w => w
                 | None => 2
                 end;
     st_opacity := 1 |}.

(** An event of a visible drawing track that carries a non-empty
    path. *)
Definition drawnBy (e : Playback.LessonPlaybackEngine)
    (event : TimelineEvent) (path : list Point) : Prop :=
  exists track,
    In track (Playback.e_tracks e) /\
    trk_visible track = true /\ trk_type track = drawing /\
    In event (trk_events track) /\
    pl_path (ev_payload event) = Some path /\ path <> [].


(** A segment over [[11, 12]], one second after [longSegment] ends. *)
Definition lateSegment : NarrationSegmentConfig :=
  {| seg_id := lit "nar_c"; seg_text := lit "three";
     seg_startTime := 11; seg_endTime := 12; seg_audioUrl := None;
     seg_wordTimings := [mkWordTiming (lit "three") 11 12 0] |}.

(* ================================================================== *)
(** * Properties of the engine-state transitions *)
(* ================================================================== *)

Section EngineStateFacts.

Lemma clampTime_inside (v lo hi : R) :
  lo <= v <= hi -> clampTime v lo hi = v.
Proof.
  intros [Hlo Hhi]. unfold clampTime.
  rewrite Rmax_left by exact Hlo.
  apply Rmin_left; exact Hhi.
Qed.

Lemma clampTime_below (v lo hi : R) :
  lo <= hi -> v < lo -> clampTime v lo hi = lo.
Proof.
  intros Hord Hlt. unfold clampTime.
  rewrite Rmax_right by lra.
  apply Rmin_left; exact Hord.
Qed.

Lemma clampTime_above (v lo hi : R) :
  lo <= hi -> hi < v -> clampTime v lo hi = hi.
Proof.
  intros Hord Hgt. unfold clampTime.
  rewrite Rmax_left by lra.
  apply Rmin_right; lra.
Qed.

Lemma clampTime_range (v lo hi : R) :
  lo <= hi -> lo <= clampTime v lo hi <= hi.
Proof.
  intros Hord. unfold clampTime, Rmin, Rmax.
  repeat destruct Rle_dec; lra.
Qed.

Lemma EngineStatus_eqb_eq (a b : EngineStatus) :
  EngineStatus_eqb a b = true <-> a = b.
Proof. destruct a, b; simpl; split; congruence. Qed.

(** The three ways [advanceEngineState] can go. *)
Lemma advance_not_playing (s : EngineState) (deltaMs : R) :
  ~ (isPlaying s = true /\ status s = playing) ->
  advanceEngineState s deltaMs = s.
Proof.
  intros Hn. unfold advanceEngineState.
  destruct (isPlaying s) eqn:Hp; simpl; [|reflexivity].
  destruct (EngineStatus_eqb (status s) playing) eqn:Hs; simpl; [|reflexivity].
  apply EngineStatus_eqb_eq in Hs. tauto.
Qed.

Lemma advance_reaches_end (s : EngineState) (deltaMs : R) :
  isPlaying s = true -> status s = playing ->
  currentTime s + deltaMs * playbackRate s >= duration s ->
  advanceEngineState s deltaMs =
    {| isPlaying := false; currentTime := duration s;
       duration := duration s; playbackRate := playbackRate s;
       status := ready |}.
Proof.
  intros Hp Hs Hge. unfold advanceEngineState.
  rewrite Hp, Hs. simpl.
  destruct Rge_dec; [reflexivity | contradiction].
Qed.

Lemma advance_within (s : EngineState) (deltaMs : R) :
  isPlaying s = true -> status s = playing ->
  currentTime s + deltaMs * playbackRate s < duration s ->
  advanceEngineState s deltaMs =
    {| isPlaying := true;
       currentTime := Rmax 0 (currentTime s + deltaMs * playbackRate s);
       duration := duration s; playbackRate := playbackRate s;
       status := playing |}.
Proof.
  intros Hp Hs Hlt. unfold advanceEngineState.
  rewrite Hp, Hs. simpl.
  destruct Rge_dec; [lra | reflexivity].
Qed.

Lemma advance_keeps_duration (s : EngineState) (deltaMs : R) :
  duration (advanceEngineState s deltaMs) = duration s.
Proof.
  unfold advanceEngineState.
  destruct (negb (isPlaying s) || _); [reflexivity|].
  destruct Rge_dec; reflexivity.
Qed.

Lemma advance_keeps_rate (s : EngineState) (deltaMs : R) :
  playbackRate (advanceEngineState s deltaMs) = playbackRate s.
Proof.
  unfold advanceEngineState.
  destruct (negb (isPlaying s) || _); [reflexivity|].
  destruct Rge_dec; reflexivity.
Qed.

End EngineStateFacts.

(** C1, as stated, fails: advancing the playing state [playingState] by
    200 ms runs it past its end, which stops playback, and the seek to
    50 ms that follows keeps it stopped ([isPlaying = false],
    [status = ready]), while seeking alone leaves it playing. *)
Lemma seek_after_advance_differs :
  0 <= 200 /\ 0 <= 50 <= duration playingState /\
  seekEngine (advanceEngineState playingState 200) 50
    <> seekEngine playingState 50.
Proof.
  split; [lra|]. split; [simpl; lra|].
  intros Heq. apply (f_equal isPlaying) in Heq.
  rewrite (advance_reaches_end playingState 200) in Heq;
    [simpl in Heq; discriminate | reflexivity | reflexivity | simpl; lra].
Qed.

(** C1, amended: for every engine state [s], every [deltaMs >= 0] and
    every [t] in [[0, s.duration]], advancing and then seeking to [t]
    gives the same [currentTime] (namely [t]), [duration] and
    [playbackRate] as seeking to [t] alone.  The two states are equal in
    all five fields unless [s] is playing and the advance reaches the end
    of the timeline; in that case the advance has stopped playback and
    the state after the seek has [isPlaying = false], [status = ready]. *)
Theorem seek_after_advance (s : EngineState) (deltaMs t : R) :
  0 <= deltaMs -> 0 <= t <= duration s ->
  let both := seekEngine (advanceEngineState s deltaMs) t in
  let alone := seekEngine s t in
  currentTime both = t /\ currentTime alone = t /\
  duration both = duration alone /\
  playbackRate both = playbackRate alone /\
  (~ (isPlaying s = true /\ status s = playing /\
      currentTime s + deltaMs * playbackRate s >= duration s) ->
   both = alone) /\
  (isPlaying s = true -> status s = playing ->
   currentTime s + deltaMs * playbackRate s >= duration s ->
   isPlaying both = false /\ status both = ready).
Proof.
  intros Hd Ht. cbv zeta.
  repeat split.
  - unfold seekEngine; simpl. rewrite advance_keeps_duration.
    apply clampTime_inside; exact Ht.
  - unfold seekEngine; simpl. apply clampTime_inside; exact Ht.
  - unfold seekEngine; simpl. apply advance_keeps_duration.
  - unfold seekEngine; simpl. apply advance_keeps_rate.
  - intros Hn.
    destruct (isPlaying s) eqn:Hp.
    + destruct (EngineStatus_eqb (status s) playing) eqn:Hs.
      * apply EngineStatus_eqb_eq in Hs.
        destruct (Rlt_dec (currentTime s + deltaMs * playbackRate s)
                          (duration s)) as [Hlt | Hge].
        -- rewrite advance_within by assumption.
           unfold seekEngine; simpl. rewrite Hp, Hs. reflexivity.
        -- exfalso. apply Hn. repeat split; [assumption | lra].
      * rewrite advance_not_playing; [reflexivity|].
        intros [_ Hs']. apply EngineStatus_eqb_eq in Hs'. congruence.
    + rewrite advance_not_playing; [reflexivity|].
      intros [Hp' _]. congruence.
  - rewrite advance_reaches_end by assumption. reflexivity.
  - rewrite advance_reaches_end by assumption. reflexivity.
Qed.

Lemma seek_after_advance_witness :
  currentTime (seekEngine (advanceEngineState playingState 200) 50) = 50 /\
  isPlaying (seekEngine (advanceEngineState playingState 200) 50) = false.
Proof.
  assert (Hd : 0 <= 200) by lra.
  assert (Ht : 0 <= 50 <= duration playingState) by (simpl; lra).
  destruct (seek_after_advance playingState 200 50 Hd Ht)
    as (Hc & _ & _ & _ & _ & Hstop).
  split; [exact Hc|].
  apply Hstop; [reflexivity | reflexivity | simpl; lra].
Defined.

(** C2: the invariant [isPlaying <-> status = playing] holds for the
    initial engine state and is preserved by each of the seven pure
    transition functions: [advanceEngineState], [pauseEngine],
    [resumeEngine], [seekEngine], [setPlaybackRate], [setEngineStatus]
    and [setEngineDuration]. *)
Theorem playing_invariant_preserved :
  playingInvariant createInitialEngineState /\
  forall s : EngineState, playingInvariant s ->
    (forall deltaMs, playingInvariant (advanceEngineState s deltaMs)) /\
    playingInvariant (pauseEngine s) /\
    playingInvariant (resumeEngine s) /\
    (forall time, playingInvariant (seekEngine s time)) /\
    (forall rate, playingInvariant (setPlaybackRate s rate)) /\
    (forall newStatus, playingInvariant (setEngineStatus s newStatus)) /\
    (forall newDuration, playingInvariant (setEngineDuration s newDuration)).
Proof.
  split.
  - unfold playingInvariant; simpl; split; discriminate.
  - intros [p t d r st] Hinv. unfold playingInvariant in *. simpl in Hinv.
    repeat split.
    + unfold advanceEngineState; simpl.
      destruct p, st; simpl; try destruct Rge_dec; simpl;
        tauto || (intros; discriminate) || (intros; tauto).
    + unfold advanceEngineState; simpl.
      destruct p, st; simpl; try destruct Rge_dec; simpl;
        tauto || (intros; discriminate) || (intros; tauto).
    + unfold pauseEngine; simpl. destruct p; simpl;
        [discriminate | tauto].
    + unfold pauseEngine; simpl. destruct p; simpl;
        [discriminate | tauto].
    + unfold resumeEngine; simpl. destruct st; simpl; tauto.
    + unfold resumeEngine; simpl. destruct st; simpl; tauto.
    + simpl; tauto.
    + simpl; tauto.
    + simpl; tauto.
    + simpl; tauto.
    + simpl. intros H. apply EngineStatus_eqb_eq. exact H.
    + simpl. intros H. apply EngineStatus_eqb_eq. exact H.
    + unfold setEngineDuration; simpl.
      destruct st; simpl; intros; try tauto;
        destruct Hinv as [H1 _]; specialize (H1 H); discriminate.
    + unfold setEngineDuration; simpl.
      destruct st; simpl; intros; try discriminate; tauto.
Qed.

Lemma playing_invariant_preserved_witness :
  playingInvariant playingState /\
  playingInvariant (advanceEngineState playingState 200) /\
  playingInvariant (pauseEngine playingState) /\
  playingInvariant (setEngineDuration playingState 7).
Proof.
  assert (Hinv : playingInvariant playingState)
    by (unfold playingInvariant; simpl; tauto).
  destruct playing_invariant_preserved as [_ Hstep].
  destruct (Hstep playingState Hinv) as (Ha & Hp & _ & _ & _ & _ & Hd).
  repeat split; try apply Ha; try apply Hp; try apply Hd; try reflexivity.
Defined.

(** C3, as stated, fails: from [playingAt10], a [deltaMs] of -20 gives
    the sum -10, below the duration, and the returned [currentTime] is
    0, not that sum. *)
Lemma advance_does_not_go_below_zero :
  isPlaying playingAt10 = true /\ status playingAt10 = playing /\
  advancedTime playingAt10 (-20) < duration playingAt10 /\
  currentTime (advanceEngineState playingAt10 (-20))
    <> advancedTime playingAt10 (-20).
Proof.
  unfold advancedTime.
  repeat split; try reflexivity; try (simpl; lra).
  rewrite advance_within; [| reflexivity | reflexivity | simpl; lra].
  simpl. unfold Rmax. destruct Rle_dec; lra.
Qed.

(** C3, amended: [advanceEngineState s deltaMs] returns [s] unchanged
    unless [s.isPlaying] and [s.status = playing].  When playing, with
    [newTime = s.currentTime + deltaMs * s.playbackRate]: if [newTime]
    reaches or exceeds [s.duration] the result has
    [currentTime = s.duration], [isPlaying = false], [status = ready];
    otherwise the result has [currentTime = max(0, newTime)], which is
    [newTime] itself whenever [newTime >= 0].  [duration] and
    [playbackRate] are kept in every case, and so are [isPlaying] and
    [status] below the duration. *)
Theorem advance_cases (s : EngineState) (deltaMs : R) :
  (~ (isPlaying s = true /\ status s = playing) ->
   advanceEngineState s deltaMs = s) /\
  (isPlaying s = true -> status s = playing ->
   advancedTime s deltaMs >= duration s ->
   advanceEngineState s deltaMs =
     {| isPlaying := false; currentTime := duration s;
        duration := duration s; playbackRate := playbackRate s;
        status := ready |}) /\
  (isPlaying s = true -> status s = playing ->
   advancedTime s deltaMs < duration s ->
   advanceEngineState s deltaMs =
     {| isPlaying := true; currentTime := Rmax 0 (advancedTime s deltaMs);
        duration := duration s; playbackRate := playbackRate s;
        status := playing |} /\
   (0 <= advancedTime s deltaMs ->
    currentTime (advanceEngineState s deltaMs) = advancedTime s deltaMs)).
Proof.
  unfold advancedTime. split; [|split].
  - apply advance_not_playing.
  - apply advance_reaches_end.
  - intros Hp Hs Hlt.
    rewrite advance_within by assumption.
    split; [reflexivity|].
    intros Hpos. simpl. apply Rmax_right. exact Hpos.
Qed.

Lemma advance_cases_witness :
  advanceEngineState createInitialEngineState 16 = createInitialEngineState /\
  advanceEngineState playingState 200 =
    {| isPlaying := false; currentTime := 100; duration := 100;
       playbackRate := 1; status := ready |} /\
  currentTime (advanceEngineState playingAt10 16) = 26 /\
  currentTime (advanceEngineState playingAt10 (-20)) = 0.
Proof.
  destruct (advance_cases createInitialEngineState 16) as (Hidle & _ & _).
  destruct (advance_cases playingState 200) as (_ & Hend & _).
  destruct (advance_cases playingAt10 16) as (_ & _ & Hin).
  destruct (advance_cases playingAt10 (-20)) as (_ & _ & Hneg).
  unfold advancedTime in *.
  split; [|split; [|split]].
  - apply Hidle. simpl. intros [H _]. discriminate.
  - apply Hend; [reflexivity | reflexivity | simpl; lra].
  - destruct Hin as [_ Hin]; [reflexivity | reflexivity | simpl; lra |].
    rewrite Hin; simpl; lra.
  - destruct Hneg as [Hneg _]; [reflexivity | reflexivity | simpl; lra |].
    rewrite Hneg; simpl. apply Rmax_left. lra.
Defined.

(** C4: for every engine state [s] and every real [r],
    [setPlaybackRate s r] has its [playbackRate] in [[0.25, 4.0]]; the
    rate is [r] itself when [r] lies in that range, 0.25 when [r] is
    below it and 4.0 when [r] is above it; the other four fields are
    those of [s]. *)
Theorem setPlaybackRate_clamps (s : EngineState) (r : R) :
  0.25 <= playbackRate (setPlaybackRate s r) <= 4.0 /\
  (0.25 <= r <= 4.0 -> playbackRate (setPlaybackRate s r) = r) /\
  (r < 0.25 -> playbackRate (setPlaybackRate s r) = 0.25) /\
  (4.0 < r -> playbackRate (setPlaybackRate s r) = 4.0) /\
  isPlaying (setPlaybackRate s r) = isPlaying s /\
  currentTime (setPlaybackRate s r) = currentTime s /\
  duration (setPlaybackRate s r) = duration s /\
  status (setPlaybackRate s r) = status s.
Proof.
  unfold setPlaybackRate, MIN_PLAYBACK_RATE, MAX_PLAYBACK_RATE; simpl.
  assert (Hord : 0.25 <= 4.0) by lra.
  repeat split; try reflexivity.
  - apply clampTime_range; exact Hord.
  - apply clampTime_range; exact Hord.
  - intros Hin. apply clampTime_inside; exact Hin.
  - intros Hlt. apply clampTime_below; assumption.
  - intros Hgt. apply clampTime_above; assumption.
Qed.

Lemma setPlaybackRate_clamps_witness :
  playbackRate (setPlaybackRate playingState 2) = 2 /\
  playbackRate (setPlaybackRate playingState 0.1) = 0.25 /\
  playbackRate (setPlaybackRate playingState 9) = 4.0.
Proof.
  repeat split.
  - apply (setPlaybackRate_clamps playingState 2). lra.
  - apply (setPlaybackRate_clamps playingState 0.1). lra.
  - apply (setPlaybackRate_clamps playingState 9). lra.
Defined.

(* ================================================================== *)
(** * Properties of sorting *)
(* ================================================================== *)

Section SortFacts.
Context {A : Type} (compare : A -> A -> R).

Lemma insertSorted_perm (a : A) (l : list A) :
  Permutation (insertSorted compare a l) (a :: l).
Proof.
  induction l as [|b l IH]; simpl.
  - apply Permutation_refl.
  - destruct Rle_dec.
    + apply Permutation_refl.
    + apply perm_trans with (b :: a :: l).
      * apply perm_skip. exact IH.
      * apply perm_swap.
Qed.

Lemma sort_perm (l : list A) : Permutation (Js.sort compare l) l.
Proof.
  induction l as [|a l IH]; simpl.
  - apply perm_nil.
  - apply perm_trans with (a :: Js.sort compare l).
    + apply insertSorted_perm.
    + apply perm_skip. exact IH.
Qed.

Lemma sort_length (l : list A) :
  List.length (Js.sort compare l) = List.length l.
Proof. apply Permutation_length. apply sort_perm. Qed.


(** The comparator is consistent: it compares any two elements one way
    or the other, and transitively. *)
Hypothesis compare_total :
  forall a b, compare a b <= 0 \/ compare b a <= 0.
Hypothesis compare_trans :
  forall a b c, compare a b <= 0 -> compare b c <= 0 -> compare a c <= 0.

Lemma insertSorted_sorted (a : A) (l : list A) :
  StronglySorted (fun u v => compare u v <= 0) l ->
  StronglySorted (fun u v => compare u v <= 0) (insertSorted compare a l).
Proof.
  induction l as [|b l IH]; intros Hs; simpl.
  - constructor; constructor.
  - inversion Hs as [|? ? Hl Hb]; subst.
    destruct Rle_dec as [Hle | Hgt].
    + constructor; [exact Hs|].
      constructor; [exact Hle|].
      eapply Forall_impl; [|exact Hb].
      intros c Hc. eapply compare_trans; eassumption.
    + constructor; [apply IH; exact Hl|].
      assert (Hba : compare b a <= 0)
        by (destruct (compare_total a b); [contradiction | assumption]).
      eapply Permutation_Forall.
      * apply Permutation_sym. apply insertSorted_perm.
      * constructor; assumption.
Qed.

Lemma sort_sorted (l : list A) :
  StronglySorted (fun u v => compare u v <= 0) (Js.sort compare l).
Proof.
  induction l as [|a l IH]; simpl.
  - constructor.
  - apply insertSorted_sorted. exact IH.
Qed.

End SortFacts.

Lemma StronglySorted_impl {A : Type} (P Q : A -> A -> Prop) (l : list A) :
  (forall a b, P a b -> Q a b) -> StronglySorted P l -> StronglySorted Q l.
Proof.
  intros Himp Hs. induction Hs as [|a l Hs IH Hall]; constructor.
  - exact IH.
  - eapply Forall_impl; [|exact Hall]. intros b. apply Himp.
Qed.

(* ================================================================== *)
(** * Properties of the timeline operations *)
(* ================================================================== *)

Lemma compareEvents_le (a b : TimelineEvent) :
  compareEvents a b <= 0 <-> eventOrder a b.
Proof.
  unfold compareEvents, eventOrder.
  destruct Req_dec_T; split; intros H; lra.
Qed.

Lemma compareEvents_total (a b : TimelineEvent) :
  compareEvents a b <= 0 \/ compareEvents b a <= 0.
Proof.
  rewrite !compareEvents_le. unfold eventOrder. lra.
Qed.

Lemma compareEvents_trans (a b c : TimelineEvent) :
  compareEvents a b <= 0 -> compareEvents b c <= 0 -> compareEvents a c <= 0.
Proof.
  rewrite !compareEvents_le. unfold eventOrder. lra.
Qed.

Lemma sortTimelineEvents_sorted (events : list TimelineEvent) :
  StronglySorted eventOrder (sortTimelineEvents events).
Proof.
  apply StronglySorted_impl with (P := fun u v => compareEvents u v <= 0).
  - intros a b. apply compareEvents_le.
  - apply sort_sorted.
    + apply compareEvents_total.
    + apply compareEvents_trans.
Qed.

Lemma sortTimelineEvents_perm (events : list TimelineEvent) :
  Permutation (sortTimelineEvents events) events.
Proof. apply sort_perm. Qed.

Lemma TrackType_eqb_eq (a b : TrackType) : TrackType_eqb a b = true <-> a = b.
Proof. destruct a, b; simpl; split; congruence. Qed.

(** C5: [validateTimeline] on a single track holding exactly the events
    [[0,1000)] and [[1000,2000)] (in either array order) returns no
    entry; with [[0,1000)] and [[900,2000)] it returns exactly one entry,
    the overlap error (severity [error]) raised on the second event; with
    [[0,1000)] and [[10000,11000)] it returns exactly one entry, the gap
    warning (severity [warning]) raised on the second event. *)
Theorem validateTimeline_scenarios
    (trackId id1 id2 : jsString) (trackType : TrackType)
    (locked visible swapped : bool)
    (type1 type2 : TimelineEventType) (payload1 payload2 : TimelineEventPayload) :
  let first := spanEvent id1 type1 payload1 0 1000 in
  let track := fun second =>
    {| trk_id := trackId; trk_type := trackType;
       trk_events := inEitherOrder swapped first second;
       trk_locked := locked; trk_visible := visible |} in
  validateTimeline [track (spanEvent id2 type2 payload2 1000 2000)] = [] /\
  validateTimeline [track (spanEvent id2 type2 payload2 900 2000)] =
    [ {| ve_eventId := id2; ve_message := OverlapsPrevious id1 100;
         ve_severity := severityError |} ] /\
  validateTimeline [track (spanEvent id2 type2 payload2 10000 11000)] =
    [ {| ve_eventId := id2; ve_message := LargeGap 9000;
         ve_severity := warning |} ].
Proof.
  cbv zeta.
  unfold validateTimeline, validateTrack, sortTimelineEvents, Js.sort,
    inEitherOrder, spanEvent, durationErrors, neighbourErrors,
    OVERLAP_TOLERANCE_MS, GAP_WARNING_THRESHOLD_MS.
  destruct swapped; simpl; unfold compareEvents; simpl;
    (split; [|split]);
    decide_reals; simpl;
    unfold neighbourErrors, OVERLAP_TOLERANCE_MS, GAP_WARNING_THRESHOLD_MS;
    simpl; decide_reals; simpl; try reflexivity;
    repeat f_equal; lra.
Qed.

(** Merging two tracks of the same type succeeds; the merged track
    has the fresh id and the common type, holds the events of both
    tracks (a permutation of the concatenation, so as many events as the
    two inputs together) sorted ascending by [startTime] with ties
    broken by [endTime], and takes its [locked] and [visible] flags from
    the first track.  Merging tracks of different types throws, and it
    is the only way [mergeTimelineTracks] throws. *)
Theorem mergeTimelineTracks_spec (newId : jsString) (a b : TimelineTrack) :
  (trk_type a = trk_type b ->
   exists merged,
     mergeTimelineTracks newId a b = Ok merged /\
     trk_events merged = sortTimelineEvents (trk_events a ++ trk_events b) /\
     Permutation (trk_events merged) (trk_events a ++ trk_events b) /\
     StronglySorted eventOrder (trk_events merged) /\
     List.length (trk_events merged)
       = (List.length (trk_events a) + List.length (trk_events b))%nat /\
     trk_locked merged = trk_locked a /\
     trk_visible merged = trk_visible a /\
     trk_type merged = trk_type a /\
     trk_id merged = newId) /\
  (trk_type a <> trk_type b ->
   exists message, mergeTimelineTracks newId a b = Throw message) /\
  (forall message,
     mergeTimelineTracks newId a b = Throw message ->
     trk_type a <> trk_type b).
Proof.
  split; [|split].
  - intros Hty. unfold mergeTimelineTracks.
    apply TrackType_eqb_eq in Hty. rewrite Hty. simpl.
    eexists. split; [reflexivity|]. simpl.
    repeat split.
    + apply sortTimelineEvents_perm.
    + apply sortTimelineEvents_sorted.
    + unfold sortTimelineEvents. rewrite sort_length. apply length_app.
  - intros Hty. unfold mergeTimelineTracks.
    destruct (TrackType_eqb (trk_type a) (trk_type b)) eqn:He.
    + apply TrackType_eqb_eq in He. contradiction.
    + simpl. eexists. reflexivity.
  - intros message Hthrow.
    unfold mergeTimelineTracks in Hthrow.
    destruct (TrackType_eqb (trk_type a) (trk_type b)) eqn:He;
      simpl in Hthrow; [discriminate|].
    intros Heq. apply TrackType_eqb_eq in Heq. congruence.
Qed.

Lemma mergeTimelineTracks_spec_witness :
  (exists merged,
     mergeTimelineTracks (lit "trk_m")
       (cursorTrack [moveEvent "e2" 500 900; moveEvent "e1" 0 400])
       (cursorTrack [moveEvent "e3" 100 300]) = Ok merged /\
     List.length (trk_events merged) = 3%nat) /\
  (exists message,
     mergeTimelineTracks (lit "trk_m")
       (cursorTrack [moveEvent "e1" 0 400])
       (drawingTrack [moveEvent "e3" 100 300]) = Throw message).
Proof.
  split.
  - destruct (mergeTimelineTracks_spec (lit "trk_m")
       (cursorTrack [moveEvent "e2" 500 900; moveEvent "e1" 0 400])
       (cursorTrack [moveEvent "e3" 100 300])) as (Hsame & _ & _).
    destruct (Hsame eq_refl) as (merged & Hm & _ & _ & _ & Hlen & _).
    exists merged. split; [exact Hm | exact Hlen].
  - destruct (mergeTimelineTracks_spec (lit "trk_m")
       (cursorTrack [moveEvent "e1" 0 400])
       (drawingTrack [moveEvent "e3" 100 300])) as (_ & Hdiff & _).
    apply Hdiff. simpl. discriminate.
Defined.

(* ================================================================== *)
(** * Properties of the geometry operations *)
(* ================================================================== *)

Lemma geometry_clamp01_inside (v : R) :
  0 <= v <= 1 -> Geometry.clamp01 v = v.
Proof.
  intros [H0 H1]. unfold Geometry.clamp01.
  rewrite Rmax_left by exact H0.
  apply Rmin_left; exact H1.
Qed.

(** C8: for every cubic Bezier curve [c] and every [t] in [[0, 1]], the
    two curves returned by [splitBezierAt c t] reproduce [c]: for every
    [s] in [[0, 1]] the left curve at [s] is [c] at [t * s] and the right
    curve at [s] is [c] at [t + (1 - t) * s]; the left curve starts where
    [c] starts, the right curve ends where [c] ends, and the left curve
    ends where the right one starts. *)
Theorem splitBezierAt_reproduces (c : BezierCurve) (t : R) :
  0 <= t <= 1 ->
  (forall s, 0 <= s <= 1 ->
     evaluateBezierPoint (fst (splitBezierAt c t)) s
       = evaluateBezierPoint c (t * s) /\
     evaluateBezierPoint (snd (splitBezierAt c t)) s
       = evaluateBezierPoint c (t + (1 - t) * s)) /\
  bz_start (fst (splitBezierAt c t)) = bz_start c /\
  bz_end (snd (splitBezierAt c t)) = bz_end c /\
  bz_end (fst (splitBezierAt c t)) = bz_start (snd (splitBezierAt c t)).
Proof.
  intros Ht.
  split; [|repeat split].
  intros s Hs.
  assert (Hts : 0 <= t * s <= 1) by nra.
  assert (Hrs : 0 <= t + (1 - t) * s <= 1) by nra.
  unfold evaluateBezierPoint, splitBezierAt, lerpPoint; simpl.
  rewrite (geometry_clamp01_inside t Ht), (geometry_clamp01_inside s Hs),
    (geometry_clamp01_inside _ Hts), (geometry_clamp01_inside _ Hrs).
  split; f_equal; ring.
Qed.

Lemma splitBezierAt_reproduces_witness :
  evaluateBezierPoint (fst (splitBezierAt archCurve (1 / 2))) (1 / 2)
    = evaluateBezierPoint archCurve (1 / 2 * (1 / 2)) /\
  bz_end (fst (splitBezierAt archCurve (1 / 2)))
    = bz_start (snd (splitBezierAt archCurve (1 / 2))).
Proof.
  assert (Ht : 0 <= 1 / 2 <= 1) by lra.
  destruct (splitBezierAt_reproduces archCurve (1 / 2) Ht)
    as (Heval & _ & _ & Hjoin).
  split; [|exact Hjoin].
  apply (Heval (1 / 2)). lra.
Defined.

(** ** Arc length *)

Lemma distance_nonneg (a b : Point) : 0 <= distance a b.
Proof. unfold distance. apply sqrt_pos. Qed.

Lemma distance_lerp (a b : Point) (t : R) :
  0 <= t -> distance a (lerpPoint a b t) = t * distance a b.
Proof.
  intros Ht. unfold distance, lerpPoint; simpl.
  replace ((p_x a + (p_x b - p_x a) * t - p_x a)
             * (p_x a + (p_x b - p_x a) * t - p_x a)
           + (p_y a + (p_y b - p_y a) * t - p_y a)
             * (p_y a + (p_y b - p_y a) * t - p_y a))
    with ((t * t) * ((p_x b - p_x a) * (p_x b - p_x a)
                     + (p_y b - p_y a) * (p_y b - p_y a)))
    by ring.
  pose proof (Rle_0_sqr (p_x b - p_x a)) as Hx.
  pose proof (Rle_0_sqr (p_y b - p_y a)) as Hy.
  unfold Rsqr in Hx, Hy.
  rewrite sqrt_mult; [| apply Rmult_le_pos; exact Ht | lra].
  rewrite sqrt_square by exact Ht.
  reflexivity.
Qed.

Lemma pathLengthLoop_eq (rest : list Point) (length : R) (prev : Point) :
  pathLengthLoop length prev rest = length + polylineLength prev rest.
Proof.
  revert length prev.
  induction rest as [|curr rest IH]; intros length prev; simpl.
  - ring.
  - rewrite IH. ring.
Qed.

Lemma calculatePathLength_cons (first : Point) (rest : list Point) :
  calculatePathLength (first :: rest) = polylineLength first rest.
Proof.
  unfold calculatePathLength.
  destruct rest as [|second rest]; simpl; [reflexivity|].
  rewrite pathLengthLoop_eq. ring.
Qed.

Lemma polylineLength_nonneg (rest : list Point) (prev : Point) :
  0 <= polylineLength prev rest.
Proof.
  revert prev. induction rest as [|curr rest IH]; intros prev; simpl.
  - lra.
  - pose proof (distance_nonneg prev curr). specialize (IH curr). lra.
Qed.

Lemma last_default_irrelevant {A : Type} (p : A) (l : list A) (d d' : A) :
  List.last (p :: l) d = List.last (p :: l) d'.
Proof.
  revert p. induction l as [|q l IH]; intros p; [reflexivity|].
  change (List.last (q :: l) d = List.last (q :: l) d'). apply IH.
Qed.

Lemma last_cons_default {A : Type} (p : A) (l : list A) (d : A) :
  List.last (p :: l) d = List.last l p.
Proof.
  destruct l as [|q l]; [reflexivity|].
  change (List.last (q :: l) d = List.last (q :: l) p).
  apply last_default_irrelevant.
Qed.

Lemma polylineLength_snoc (l : list Point) (first q : Point) :
  polylineLength first (l ++ [q])
    = polylineLength first l + distance (List.last l first) q.
Proof.
  revert first. induction l as [|p l IH]; intros first.
  - simpl. ring.
  - rewrite last_cons_default.
    change (distance first p + polylineLength p (l ++ [q])
            = distance first p + polylineLength p l
              + distance (List.last l p) q).
    rewrite IH. ring.
Qed.

(** The loop of [getStrokeProgress], entered with the sub-path
    [first :: pre] of arc length [accumulated] built so far, strictly
    short of a target the rest of the path can reach: it stops inside one
    of the remaining spans and the sub-path it returns has arc length
    [targetLength]. *)
Lemma strokeProgressLoop_spec (targetLength : R) (first : Point) :
  forall (rest pre : list Point) (accumulated : R) (prev : Point),
    List.last pre first = prev ->
    polylineLength first pre = accumulated ->
    accumulated < targetLength <= accumulated + polylineLength prev rest ->
    exists taken b remaining t,
      rest = taken ++ b :: remaining /\
      0 <= t <= 1 /\
      strokeProgressLoop targetLength (first :: pre) accumulated prev rest
        = (first :: pre) ++ taken ++ [lerpPoint (List.last taken prev) b t] /\
      polylineLength first
        (pre ++ taken ++ [lerpPoint (List.last taken prev) b t])
        = targetLength.
Proof.
  induction rest as [|curr rest IH]; intros pre accumulated prev Hlast Hlen Hrange.
  - simpl in Hrange. lra.
  - simpl in Hrange. simpl.
    pose proof (distance_nonneg prev curr) as Hseg.
    destruct Rge_dec as [Hstop | Hgo].
    + destruct Req_dec_T as [Hzero | Hpos]; [lra|].
      set (t := (targetLength - accumulated) / distance prev curr).
      assert (Ht : t * distance prev curr = targetLength - accumulated)
        by (unfold t; field; exact Hpos).
      assert (Ht01 : 0 <= t <= 1) by (split; nra).
      exists [], curr, rest, t.
      split; [reflexivity|]. split; [exact Ht01|]. split; [reflexivity|].
      simpl. rewrite polylineLength_snoc, Hlast, Hlen.
      rewrite distance_lerp by apply Ht01. lra.
    + destruct (IH (pre ++ [curr]) (accumulated + distance prev curr) curr)
        as (taken & b & remaining & t & Hrest & Ht & Hloop & Htotal).
      * apply last_last.
      * rewrite polylineLength_snoc, Hlast, Hlen. reflexivity.
      * lra.
      * exists (curr :: taken), b, remaining, t.
        rewrite last_cons_default.
        split; [rewrite Hrest; reflexivity|]. split; [exact Ht|].
        split.
        -- change ((first :: pre) ++ [curr]) with (first :: pre ++ [curr]).
           rewrite Hloop. simpl. rewrite <- app_assoc. reflexivity.
        -- rewrite <- Htotal. rewrite <- app_assoc. reflexivity.
Qed.

(** C9: for every stroke with at least two points and positive total arc
    length and every progress strictly between 0 and 1,
    [getStrokeProgress] returns a non-empty prefix [kept] of the stroke's
    points followed by one boundary point interpolated between the last
    kept point and the next point of the stroke, and the arc length of
    the returned sub-path is [progress] times the arc length of the whole
    stroke. *)
Theorem getStrokeProgress_arc_length (stroke : Stroke) (progress : R) :
  (2 <= List.length (st_points stroke))%nat ->
  0 < calculatePathLength (st_points stroke) ->
  0 < progress < 1 ->
  exists kept b remaining t,
    st_points stroke = kept ++ b :: remaining /\
    kept <> [] /\
    0 <= t <= 1 /\
    getStrokeProgress stroke progress
      = kept ++ [lerpPoint (List.last kept b) b t] /\
    calculatePathLength (getStrokeProgress stroke progress)
      = progress * calculatePathLength (st_points stroke).
Proof.
  intros Hcount Htotal Hprogress.
  unfold getStrokeProgress.
  destruct (st_points stroke) as [|first rest] eqn:Hpoints;
    [simpl in Hcount; lia|].
  destruct Rle_dec as [Hle | _]; [lra|].
  destruct Rge_dec as [Hge | _]; [lra|].
  rewrite geometry_clamp01_inside by lra.
  rewrite calculatePathLength_cons in *.
  destruct (strokeProgressLoop_spec
              (polylineLength first rest * progress) first rest [] 0 first)
    as (taken & b & remaining & t & Hrest & Ht & Hloop & Hlen).
  - reflexivity.
  - reflexivity.
  - split; nra.
  - exists (first :: taken), b, remaining, t.
    rewrite last_cons_default.
    split; [rewrite Hrest; reflexivity|].
    split; [discriminate|].
    split; [exact Ht|].
    rewrite Hloop. split; [reflexivity|].
    simpl app. rewrite calculatePathLength_cons.
    simpl app in Hlen. rewrite Hlen. ring.
Qed.

Lemma getStrokeProgress_arc_length_witness :
  calculatePathLength (getStrokeProgress (strokeOf cornerPath) (1 / 2))
    = 1 / 2 * calculatePathLength cornerPath.
Proof.
  assert (Hcount : (2 <= List.length (st_points (strokeOf cornerPath)))%nat)
    by (simpl; lia).
  assert (Htotal : 0 < calculatePathLength (st_points (strokeOf cornerPath))).
  { simpl st_points. unfold cornerPath.
    rewrite calculatePathLength_cons. simpl. unfold distance; simpl.
    apply Rplus_lt_le_0_compat.
    - apply sqrt_lt_R0. lra.
    - pose proof (sqrt_pos ((10 - 10) * (10 - 10) + (10 - 0) * (10 - 0))).
      lra. }
  assert (Hprogress : 0 < 1 / 2 < 1) by lra.
  destruct (getStrokeProgress_arc_length (strokeOf cornerPath) (1 / 2)
              Hcount Htotal Hprogress)
    as (kept & b & remaining & t & _ & _ & _ & _ & Hlen).
  exact Hlen.
Defined.

(* ================================================================== *)
(** * Properties of the narration operations *)
(* ================================================================== *)

(** ** Splitting a text into words *)

Lemma splitLoop_has_word (text piece : jsString) (inRun : bool) :
  (inRun = true -> piece = []) ->
  piece <> [] \/ nonBlank text ->
  exists w, In w (splitLoop piece inRun text) /\ w <> [].
Proof.
  revert piece inRun.
  induction text as [|c text IH]; intros piece inRun Hrun Hsome.
  - destruct Hsome as [Hpiece | (c & [] & _)].
    exists (rev piece). split; [left; reflexivity|].
    intros Hrev. apply Hpiece.
    rewrite <- (rev_involutive piece), Hrev. reflexivity.
  - simpl. destruct (isWhiteSpace c) eqn:Hc.
    + destruct Hsome as [Hpiece | (c' & [Heq | Hin] & Hc')].
      * destruct inRun; [specialize (Hrun eq_refl); contradiction|].
        exists (rev piece). split; [left; reflexivity|].
        intros Hrev. apply Hpiece.
        rewrite <- (rev_involutive piece), Hrev. reflexivity.
      * subst c'. congruence.
      * destruct (IH [] true) as (w & Hw & Hne).
        -- reflexivity.
        -- right. exists c'. split; assumption.
        -- exists w. split; [|exact Hne].
           destruct inRun; [exact Hw | right; exact Hw].
    + apply IH; [discriminate | left; discriminate].
Qed.

Lemma wordsOf_nonBlank (text : jsString) :
  nonBlank text -> wordsOf text <> [].
Proof.
  intros Hnb.
  destruct (splitLoop_has_word text [] false) as (w & Hw & Hne).
  - discriminate.
  - right. exact Hnb.
  - unfold wordsOf, splitWhiteSpace. intros Hnil.
    assert (Hin : In w (filter (fun w => (0 <? List.length w)%nat)
                               (splitLoop [] false text))).
    { apply filter_In. split; [exact Hw|].
      destruct w; [contradiction | reflexivity]. }
    rewrite Hnil in Hin. exact Hin.
Qed.




(** ** The timing loop *)

Section TimingLoop.
Variables (count totalChars : nat) (totalDuration startTime endTime : R).


Hypothesis totalChars_positive : (0 < totalChars)%nat.
Hypothesis duration_positive : 0 < totalDuration.
Hypothesis endTime_eq : endTime = startTime + totalDuration.


End TimingLoop.



(** ** Merging adjacent segments *)



Lemma last_in_cons {A : Type} (l : list A) :
  forall d, In (List.last l d) (d :: l).
Proof.
  induction l as [|a l IH]; intros d.
  - left. reflexivity.
  - rewrite last_cons_default. right. apply IH.
Qed.


Lemma mapIndexFrom_length {A B : Type} (f : A -> nat -> B) (l : list A) :
  forall i, List.length (mapIndexFrom f i l) = List.length l.
Proof.
  induction l as [|a l IH]; intros i; simpl; [reflexivity|].
  rewrite IH. reflexivity.
Qed.


Lemma combineTimings_content (segments : list NarrationSegmentConfig) :
  map timingContent (combineTimings segments)
    = map timingContent (flat_map seg_wordTimings segments).
Proof.
  unfold combineTimings, mapIndex. generalize 0%nat.
  induction (flat_map seg_wordTimings segments) as [|wt l IH]; intros i;
    simpl; [reflexivity|].
  rewrite IH. reflexivity.
Qed.






(** The two sample segments are merged into one group. *)
Lemma sample_merge_eval :
  mergeAdjacentSegments sampleIds [longSegment; nestedSegment] 0.3
    = [collapseGroup (sampleIds 0) (mkGroup longSegment [nestedSegment])].
Proof.
  unfold mergeAdjacentSegments, Js.sort. simpl.
  unfold compareSegments. simpl. decide_reals.
  simpl. unfold lastOf. simpl. decide_reals.
  reflexivity.
Qed.


(** C6, where the code departs from it: the two sample segments, one
    over [[0, 10]] and one over [[1, 2]] inside it, form one group whose
    latest [endTime] is 10; the merged segment ends at 2, the [endTime]
    of the segment that starts last.  It still holds the word timed
    [[0, 10]], and at time 5, where the input has a segment, the merged
    output has none. *)
Lemma merged_end_is_not_latest :
  exists out,
    mergeAdjacentSegments sampleIds [longSegment; nestedSegment] 0.3 = [out] /\
    seg_endTime out = 2 /\
    seg_endTime longSegment = 10 /\
    seg_endTime out <> Rmax (seg_endTime longSegment) (seg_endTime nestedSegment) /\
    In (mkWordTiming (lit "one") 0 10 0) (seg_wordTimings out) /\
    findSegmentAtTime [longSegment; nestedSegment] 5 = Some longSegment /\
    findSegmentAtTime [out] 5 = None.
Proof.
  eexists. split; [apply sample_merge_eval|].
  simpl. split; [reflexivity|]. split; [reflexivity|].
  split; [unfold Rmax; destruct Rle_dec; lra|].
  split; [left; reflexivity|].
  unfold findSegmentAtTime, contains. simpl.
  split; decide_reals; reflexivity.
Qed.



(* ================================================================== *)
(** * Further properties of the timeline module *)
(* ================================================================== *)

(** In exact arithmetic (the number model of this development, rounding
    ignored), two advances by non-negative deltas compose into one
    advance by their sum, end-of-timeline stop included, for a state
    with non-negative time and rate. *)
Theorem advance_composes (s : EngineState) (d1 d2 : R) :
  0 <= currentTime s -> 0 <= playbackRate s -> 0 <= d1 -> 0 <= d2 ->
  advanceEngineState (advanceEngineState s d1) d2
    = advanceEngineState s (d1 + d2).
Proof.
  intros Hc Hr H1 H2.
  destruct (isPlaying s) eqn:Hp.
  2:{ rewrite !(advance_not_playing s); try reflexivity;
        intros [Hp' _]; congruence. }
  destruct (EngineStatus_eqb (status s) playing) eqn:Hs.
  2:{ rewrite !(advance_not_playing s); try reflexivity;
        intros [_ Hs']; apply EngineStatus_eqb_eq in Hs'; congruence. }
  apply EngineStatus_eqb_eq in Hs.
  assert (Hd1 : 0 <= d1 * playbackRate s) by (apply Rmult_le_pos; assumption).
  assert (Hd2 : 0 <= d2 * playbackRate s) by (apply Rmult_le_pos; assumption).
  destruct (Rlt_dec (currentTime s + d1 * playbackRate s) (duration s))
    as [Hin | Hout].
  - rewrite (advance_within s d1) by assumption.
    rewrite (Rmax_right 0) by lra.
    destruct (Rlt_dec (currentTime s + (d1 + d2) * playbackRate s)
                      (duration s)) as [Hin2 | Hout2].
    + rewrite advance_within; simpl; try reflexivity; [|lra].
      rewrite (advance_within s (d1 + d2)) by assumption.
      f_equal. f_equal. ring.
    + rewrite advance_reaches_end; simpl; try reflexivity; [|lra].
      rewrite (advance_reaches_end s (d1 + d2)); try assumption; [|lra].
      reflexivity.
  - rewrite (advance_reaches_end s d1); try assumption; [|lra].
    rewrite advance_not_playing by (simpl; intros [Hp' _]; discriminate).
    rewrite (advance_reaches_end s (d1 + d2)); try assumption; [|lra].
    reflexivity.
Qed.

Lemma advance_composes_witness :
  advanceEngineState (advanceEngineState playingAt10 16) 17
    = advanceEngineState playingAt10 (16 + 17).
Proof.
  apply advance_composes; simpl; lra.
Defined.

(** Pausing a playing state and resuming it gives the state back, and so
    does resuming a paused state and pausing it again. *)
Theorem pause_resume_round_trip (s : EngineState) :
  (isPlaying s = true -> status s = playing ->
   resumeEngine (pauseEngine s) = s) /\
  (isPlaying s = false -> status s = paused ->
   pauseEngine (resumeEngine s) = s).
Proof.
  destruct s as [p t d r st]; simpl. split; intros Hp Hs; subst;
    reflexivity.
Qed.

Lemma pause_resume_round_trip_witness :
  resumeEngine (pauseEngine playingState) = playingState /\
  pauseEngine (resumeEngine pausedState) = pausedState.
Proof.
  split.
  - apply (pause_resume_round_trip playingState); reflexivity.
  - apply (pause_resume_round_trip pausedState); reflexivity.
Defined.



Lemma maxOf_bounds (others : list R) :
  forall first,
    first <= maxOf first others /\
    (forall v, In v others -> v <= maxOf first others) /\
    In (maxOf first others) (first :: others).
Proof.
  induction others as [|v others IH]; intros first; simpl.
  - split; [lra|]. split; [intros v []|]. left. reflexivity.
  - destruct (IH (Rmax first v)) as (Hge & Hall & Hin).
    pose proof (Rmax_l first v). pose proof (Rmax_r first v).
    split; [lra|]. split.
    + intros w [<- | Hw]; [lra | apply Hall; exact Hw].
    + destruct Hin as [Hin | Hin]; [|right; right; exact Hin].
      rewrite <- Hin. unfold Rmax. destruct Rle_dec; [right|]; left;
        reflexivity.
Qed.

(** [calculateTimelineDuration] is 0 for no events; otherwise it is the
    [endTime] of one of the events and no event ends later. *)
Theorem calculateTimelineDuration_is_latest_end (events : list TimelineEvent) :
  calculateTimelineDuration [] = 0 /\
  (forall e, In e events -> ev_endTime e <= calculateTimelineDuration events) /\
  (events <> [] ->
   exists e, In e events /\ ev_endTime e = calculateTimelineDuration events).
Proof.
  split; [reflexivity|].
  unfold calculateTimelineDuration.
  destruct events as [|e0 events]; simpl.
  - split; [intros e []|]. intros H. contradiction.
  - destruct (maxOf_bounds (map ev_endTime events) (ev_endTime e0))
      as (Hge & Hall & Hin).
    split.
    + intros e [<- | He]; [exact Hge|].
      apply Hall. apply in_map. exact He.
    + intros _. change (In (maxOf (ev_endTime e0) (map ev_endTime events))
                           (map ev_endTime (e0 :: events))) in Hin.
      apply in_map_iff in Hin. destruct Hin as (e & He & Hin).
      exists e. split; [exact Hin | exact He].
Qed.

Lemma calculateTimelineDuration_is_latest_end_witness :
  exists e,
    In e [moveEvent "e1" 0 400; moveEvent "e2" 100 900] /\
    ev_endTime e
      = calculateTimelineDuration [moveEvent "e1" 0 400; moveEvent "e2" 100 900].
Proof.
  apply (calculateTimelineDuration_is_latest_end
           [moveEvent "e1" 0 400; moveEvent "e2" 100 900]).
  discriminate.
Defined.

Lemma timeline_clamp01_range (v : R) : 0 <= Timeline.clamp01 v <= 1.
Proof.
  unfold Timeline.clamp01, Rmin, Rmax.
  repeat destruct Rle_dec; lra.
Qed.

(** [getTimelineProgress] always lies in [[0, 1]]; it is 0 for a
    duration that is zero or negative, the ratio [currentTime / duration]
    for a time within a positive duration, and 1 from the end on. *)
Theorem getTimelineProgress_range (time total : R) :
  0 <= getTimelineProgress time total <= 1 /\
  (total <= 0 -> getTimelineProgress time total = 0) /\
  (0 < total -> 0 <= time <= total ->
   getTimelineProgress time total = time / total) /\
  (0 < total -> total <= time -> getTimelineProgress time total = 1).
Proof.
  unfold getTimelineProgress.
  split; [|split; [|split]].
  - destruct Rle_dec; [lra | apply timeline_clamp01_range].
  - intros Hle. destruct Rle_dec; [reflexivity | contradiction].
  - intros Hpos Hin. destruct Rle_dec; [lra|].
    assert (Hratio : 0 <= time / total <= 1).
    { split.
      - apply Rmult_le_pos; [lra | left; apply Rinv_0_lt_compat; lra].
      - apply Rmult_le_reg_r with total; [lra|].
        unfold Rdiv. rewrite Rmult_assoc, Rinv_l by lra. lra. }
    unfold Timeline.clamp01.
    rewrite Rmax_left by lra. apply Rmin_left. lra.
  - intros Hpos Hge. destruct Rle_dec; [lra|].
    assert (Hratio : 1 <= time / total).
    { apply Rmult_le_reg_r with total; [lra|].
      unfold Rdiv. rewrite Rmult_assoc, Rinv_l by lra. lra. }
    unfold Timeline.clamp01.
    rewrite Rmax_left by lra. apply Rmin_right. lra.
Qed.

Lemma getTimelineProgress_range_witness :
  getTimelineProgress 500 0 = 0 /\
  getTimelineProgress 500 2000 = 500 / 2000 /\
  getTimelineProgress 2500 2000 = 1.
Proof.
  split; [|split].
  - apply (getTimelineProgress_range 500 0). lra.
  - apply (getTimelineProgress_range 500 2000); lra.
  - apply (getTimelineProgress_range 2500 2000); lra.
Defined.

Section SortedInput.
Context {A : Type} (compare : A -> A -> R).

(** Sorting leaves an already sorted list as it is. *)
Lemma sort_sorted_id (l : list A) :
  StronglySorted (fun u v => compare u v <= 0) l -> Js.sort compare l = l.
Proof.
  induction l as [|a l IH]; intros Hs; [reflexivity|].
  inversion Hs as [|? ? Hl Ha]; subst.
  simpl. rewrite (IH Hl).
  destruct l as [|b l]; [reflexivity|].
  simpl. inversion Ha as [|? ? Hab _]; subst.
  destruct Rle_dec; [reflexivity | contradiction].
Qed.

End SortedInput.

Lemma eventOrder_sorted_compare (events : list TimelineEvent) :
  StronglySorted eventOrder events ->
  StronglySorted (fun u v => compareEvents u v <= 0) events.
Proof.
  apply StronglySorted_impl. intros a b. apply compareEvents_le.
Qed.

(** [sortTimelineEvents] returns a list sorted by [startTime] then
    [endTime] unchanged, so sorting twice is sorting once. *)
Theorem sortTimelineEvents_idempotent (events : list TimelineEvent) :
  (StronglySorted eventOrder events -> sortTimelineEvents events = events) /\
  sortTimelineEvents (sortTimelineEvents events) = sortTimelineEvents events.
Proof.
  split.
  - intros Hs. apply sort_sorted_id. apply eventOrder_sorted_compare. exact Hs.
  - apply sort_sorted_id. apply sort_sorted.
    + apply compareEvents_total.
    + apply compareEvents_trans.
Qed.

Lemma sortTimelineEvents_idempotent_witness :
  sortTimelineEvents [moveEvent "e1" 0 400; moveEvent "e2" 100 900]
    = [moveEvent "e1" 0 400; moveEvent "e2" 100 900].
Proof.
  apply (sortTimelineEvents_idempotent
           [moveEvent "e1" 0 400; moveEvent "e2" 100 900]).
  repeat constructor. unfold eventOrder; simpl. lra.
Defined.

Lemma sortTimelineEvents_twice (events : list TimelineEvent) :
  sortTimelineEvents (sortTimelineEvents events) = sortTimelineEvents events.
Proof.
  apply sort_sorted_id. apply sort_sorted.
  - apply compareEvents_total.
  - apply compareEvents_trans.
Qed.

(** ** Validation *)

Lemma durationErrors_in (sorted : list TimelineEvent)
    (err : TimelineValidationError) :
  In err (durationErrors sorted) <->
  exists e, In e sorted /\ ev_endTime e <= ev_startTime e /\
            err = nonPositiveEntry e.
Proof.
  unfold durationErrors. rewrite in_flat_map. split.
  - intros (e & He & Herr). exists e. split; [exact He|].
    destruct Rle_dec as [Hle | _]; [|destruct Herr].
    destruct Herr as [<- | []]. split; [exact Hle | reflexivity].
  - intros (e & He & Hle & ->). exists e. split; [exact He|].
    destruct Rle_dec; [left; reflexivity | contradiction].
Qed.

Lemma neighbourErrors_in (prev curr : TimelineEvent)
    (err : TimelineValidationError) :
  In err (neighbourErrors prev curr) ->
  ve_eventId err = ev_id curr /\
  ve_severity err
    = (if isErrorMessage (ve_message err) then severityError else warning) /\
  (exists overlap, ve_message err = OverlapsPrevious (ev_id prev) overlap) \/
  ve_eventId err = ev_id curr /\
  ve_severity err
    = (if isErrorMessage (ve_message err) then severityError else warning) /\
  (exists gap, ve_message err = LargeGap gap).
Proof.
  unfold neighbourErrors. intros Hin. apply in_app_or in Hin.
  destruct Hin as [Hin | Hin].
  - destruct Rgt_dec; [|destruct Hin]. destruct Hin as [<- | []].
    left. simpl. repeat split. eexists. reflexivity.
  - destruct Rgt_dec; [|destruct Hin]. destruct Hin as [<- | []].
    right. simpl. repeat split. eexists. reflexivity.
Qed.

Lemma neighbourLoop_in (rest : list TimelineEvent) :
  forall (prev : TimelineEvent) (err : TimelineValidationError),
    In err (neighbourLoop prev rest) ->
    (exists curr, In curr rest /\ ve_eventId err = ev_id curr) /\
    ve_severity err
      = (if isErrorMessage (ve_message err) then severityError else warning) /\
    (forall a b, ve_message err <> NonPositiveDuration a b).
Proof.
  induction rest as [|curr rest IH]; intros prev err Hin; [destruct Hin|].
  simpl in Hin. apply in_app_or in Hin. destruct Hin as [Hin | Hin].
  - apply neighbourErrors_in in Hin.
    destruct Hin as [(Hid & Hsev & (v & Hm)) | (Hid & Hsev & (v & Hm))];
      (split; [exists curr; split; [left; reflexivity | exact Hid]|]);
      (split; [exact Hsev|]); intros a b; rewrite Hm; discriminate.
  - destruct (IH curr err Hin) as ((c & Hc & Hid) & Hsev & Hm).
    split; [exists c; split; [right; exact Hc | exact Hid]|].
    split; assumption.
Qed.

Lemma validateTrack_in (track : TimelineTrack) (err : TimelineValidationError) :
  In err (validateTrack track) ->
  (exists e, In e (trk_events track) /\ ve_eventId err = ev_id e) /\
  ve_severity err
    = (if isErrorMessage (ve_message err) then severityError else warning) /\
  (forall a b, ve_message err = NonPositiveDuration a b ->
     exists e, In e (trk_events track) /\ ev_endTime e <= ev_startTime e /\
               err = nonPositiveEntry e).
Proof.
  unfold validateTrack. intros Hin. apply in_app_or in Hin.
  assert (Hperm : forall e, In e (sortTimelineEvents (trk_events track)) ->
                            In e (trk_events track)).
  { intros e. apply Permutation_in. apply sortTimelineEvents_perm. }
  destruct Hin as [Hin | Hin].
  - apply durationErrors_in in Hin. destruct Hin as (e & He & Hle & ->).
    split; [exists e; split; [apply Hperm; exact He | reflexivity]|].
    split; [reflexivity|].
    intros a b _. exists e. split; [apply Hperm; exact He|].
    split; [exact Hle | reflexivity].
  - destruct (sortTimelineEvents (trk_events track)) as [|first rest] eqn:Hs;
      [destruct Hin|].
    destruct (neighbourLoop_in rest first err Hin) as ((c & Hc & Hid) & Hsev & Hm).
    split; [exists c; split; [apply Hperm; right; exact Hc | exact Hid]|].
    split; [exact Hsev|].
    intros a b Hmsg. exfalso. exact (Hm a b Hmsg).
Qed.

(** Every entry of [validateTimeline] carries the id of an event of one
    of the tracks, and its severity follows its message: non-positive
    durations and overlaps are errors, large gaps are warnings. *)
Theorem validateTimeline_entries_name_events
    (tracks : list TimelineTrack) (err : TimelineValidationError) :
  In err (validateTimeline tracks) ->
  (exists track e,
     In track tracks /\ In e (trk_events track) /\
     ve_eventId err = ev_id e) /\
  ve_severity err
    = (if isErrorMessage (ve_message err) then severityError else warning).
Proof.
  unfold validateTimeline. rewrite in_flat_map.
  intros (track & Htrack & Hin).
  destruct (validateTrack_in track err Hin) as ((e & He & Hid) & Hsev & _).
  split; [|exact Hsev].
  exists track, e. repeat split; assumption.
Qed.

Lemma validateTimeline_entries_name_events_witness :
  exists track e,
    In track [cursorTrack [moveEvent "e1" 500 400]] /\
    In e (trk_events track) /\
    ve_eventId (nonPositiveEntry (moveEvent "e1" 500 400)) = ev_id e.
Proof.
  apply (validateTimeline_entries_name_events
           [cursorTrack [moveEvent "e1" 500 400]]
           (nonPositiveEntry (moveEvent "e1" 500 400))).
  unfold validateTimeline, validateTrack, sortTimelineEvents, Js.sort,
    durationErrors. simpl.
  destruct Rle_dec; [left; reflexivity | lra].
Defined.

(** An event whose [endTime] is not after its [startTime] is always
    reported: [validateTimeline] holds the non-positive-duration error of
    an event exactly when that event belongs to one of the tracks and has
    [endTime <= startTime]. *)
Theorem validateTimeline_reports_non_positive
    (tracks : list TimelineTrack) (e : TimelineEvent) :
  (In (nonPositiveEntry e) (validateTimeline tracks) ->
   exists track e',
     In track tracks /\ In e' (trk_events track) /\
     ev_endTime e' <= ev_startTime e' /\
     nonPositiveEntry e = nonPositiveEntry e') /\
  (forall track,
     In track tracks -> In e (trk_events track) ->
     ev_endTime e <= ev_startTime e ->
     In (nonPositiveEntry e) (validateTimeline tracks)).
Proof.
  unfold validateTimeline. split.
  - rewrite in_flat_map. intros (track & Htrack & Hin).
    destruct (validateTrack_in track _ Hin) as (_ & _ & Hnp).
    destruct (Hnp _ _ eq_refl) as (e' & He' & Hle & Heq).
    exists track, e'. repeat split; assumption.
  - intros track Htrack He Hle. rewrite in_flat_map.
    exists track. split; [exact Htrack|].
    unfold validateTrack. apply in_or_app. left.
    apply durationErrors_in. exists e.
    split; [|split; [exact Hle | reflexivity]].
    eapply Permutation_in; [|exact He].
    apply Permutation_sym. apply sortTimelineEvents_perm.
Qed.

Lemma validateTimeline_reports_non_positive_witness :
  In (nonPositiveEntry (moveEvent "e2" 700 700))
     (validateTimeline
        [cursorTrack [moveEvent "e1" 0 400; moveEvent "e2" 700 700]]).
Proof.
  apply (validateTimeline_reports_non_positive
           [cursorTrack [moveEvent "e1" 0 400; moveEvent "e2" 700 700]]
           (moveEvent "e2" 700 700))
    with (track := cursorTrack [moveEvent "e1" 0 400; moveEvent "e2" 700 700]).
  - left. reflexivity.
  - right. left. reflexivity.
  - simpl. lra.
Defined.

Lemma durationErrors_nil (sorted : list TimelineEvent) :
  durationErrors sorted = [] <->
  forall e, In e sorted -> ev_startTime e < ev_endTime e.
Proof.
  split.
  - intros Hnil e He.
    destruct (Rlt_dec (ev_startTime e) (ev_endTime e)) as [Hlt | Hge];
      [exact Hlt|].
    exfalso.
    assert (Hin : In (nonPositiveEntry e) (durationErrors sorted)).
    { apply durationErrors_in. exists e.
      split; [exact He|]. split; [lra | reflexivity]. }
    rewrite Hnil in Hin. exact Hin.
  - intros Hall. destruct (durationErrors sorted) as [|err errs] eqn:Hd;
      [reflexivity|].
    exfalso.
    assert (Hin : In err (durationErrors sorted))
      by (rewrite Hd; left; reflexivity).
    apply durationErrors_in in Hin. destruct Hin as (e & He & Hle & _).
    specialize (Hall e He). lra.
Qed.

Lemma neighbourErrors_nil (prev curr : TimelineEvent) :
  neighbourErrors prev curr = [] <->
  ev_endTime prev - ev_startTime curr <= OVERLAP_TOLERANCE_MS /\
  ev_startTime curr - ev_endTime prev <= GAP_WARNING_THRESHOLD_MS.
Proof.
  unfold neighbourErrors.
  destruct Rgt_dec as [Ho | Ho]; destruct Rgt_dec as [Hg | Hg]; simpl;
    split; intros H; try discriminate; try reflexivity; try lra.
Qed.

Lemma neighbourLoop_nil (rest : list TimelineEvent) :
  forall prev, neighbourLoop prev rest = [] <-> wellSpaced (prev :: rest).
Proof.
  induction rest as [|curr rest IH]; intros prev; simpl.
  - split; [|reflexivity]. intros _ i a b _ Hb.
    destruct i; discriminate.
  - split.
    + intros Hnil. apply app_eq_nil in Hnil. destruct Hnil as [Hpair Hrest].
      apply neighbourErrors_nil in Hpair. apply IH in Hrest.
      intros i a b Ha Hb. destruct i as [|i].
      * simpl in Ha, Hb. injection Ha as <-. injection Hb as <-. exact Hpair.
      * simpl in Ha, Hb. apply (Hrest i a b); assumption.
    + intros Hws.
      assert (Hpair : neighbourErrors prev curr = []).
      { apply neighbourErrors_nil. apply (Hws 0%nat prev curr); reflexivity. }
      assert (Hrest : neighbourLoop curr rest = []).
      { apply IH. intros i a b Ha Hb. apply (Hws (S i) a b); assumption. }
      rewrite Hpair, Hrest. reflexivity.
Qed.

Lemma wellSpaced_short (events : list TimelineEvent) :
  (List.length events <= 1)%nat -> wellSpaced events.
Proof.
  intros Hlen i a b Ha Hb.
  assert (S i < List.length events)%nat
    by (apply nth_error_Some; rewrite Hb; discriminate).
  lia.
Qed.

Lemma validateTrack_nil (track : TimelineTrack) :
  validateTrack track = [] <->
  (forall e, In e (trk_events track) -> ev_startTime e < ev_endTime e) /\
  wellSpaced (sortTimelineEvents (trk_events track)).
Proof.
  unfold validateTrack.
  assert (Hmem : forall e, In e (sortTimelineEvents (trk_events track)) <->
                           In e (trk_events track)).
  { intros e. split; apply Permutation_in;
      [|apply Permutation_sym]; apply sortTimelineEvents_perm. }
  split.
  - intros Hnil. apply app_eq_nil in Hnil. destruct Hnil as [Hd Hn].
    split.
    + intros e He. apply (proj1 (durationErrors_nil _) Hd). apply Hmem.
      exact He.
    + destruct (sortTimelineEvents (trk_events track)) as [|first rest].
      * apply wellSpaced_short. simpl. lia.
      * apply neighbourLoop_nil. exact Hn.
  - intros [Hpos Hws].
    assert (Hd : durationErrors (sortTimelineEvents (trk_events track)) = []).
    { apply durationErrors_nil. intros e He. apply Hpos. apply Hmem.
      exact He. }
    rewrite Hd. simpl.
    destruct (sortTimelineEvents (trk_events track)) as [|first rest];
      [reflexivity|].
    apply neighbourLoop_nil. exact Hws.
Qed.

(** [validateTimeline] returns no entry exactly when, in every track,
    each event ends after it starts and, once the track's events are
    sorted, no event starts more than 1 ms before its predecessor ends
    nor more than 5000 ms after it. *)
Theorem validateTimeline_clean_iff (tracks : list TimelineTrack) :
  validateTimeline tracks = [] <->
  forall track, In track tracks ->
    (forall e, In e (trk_events track) -> ev_startTime e < ev_endTime e) /\
    wellSpaced (sortTimelineEvents (trk_events track)).
Proof.
  unfold validateTimeline. split.
  - intros Hnil track Htrack. apply validateTrack_nil.
    destruct (validateTrack track) as [|err errs] eqn:Hv; [reflexivity|].
    exfalso.
    assert (Hin : In err (flat_map validateTrack tracks)).
    { apply in_flat_map. exists track. split; [exact Htrack|].
      rewrite Hv. left. reflexivity. }
    rewrite Hnil in Hin. exact Hin.
  - intros Hall.
    destruct (flat_map validateTrack tracks) as [|err errs] eqn:Hv;
      [reflexivity|].
    exfalso.
    assert (Hin : In err (flat_map validateTrack tracks))
      by (rewrite Hv; left; reflexivity).
    apply in_flat_map in Hin. destruct Hin as (track & Htrack & Hin).
    rewrite (proj2 (validateTrack_nil track) (Hall track Htrack)) in Hin.
    exact Hin.
Qed.

Lemma validateTimeline_clean_iff_witness :
  validateTimeline [cursorTrack [moveEvent "e1" 0 400]] = [].
Proof.
  apply (validateTimeline_clean_iff [cursorTrack [moveEvent "e1" 0 400]]).
  intros track [<- | []]. split.
  - intros e [<- | []]. simpl. lra.
  - apply wellSpaced_short. simpl. lia.
Defined.

(** ** Building a timeline *)

Lemma validateTrack_sorted_events (t : TimelineTrack) :
  validateTrack
    {| trk_id := trk_id t; trk_type := trk_type t;
       trk_events := sortTimelineEvents (trk_events t);
       trk_locked := trk_locked t; trk_visible := trk_visible t |}
  = validateTrack t.
Proof.
  unfold validateTrack. simpl. rewrite sortTimelineEvents_twice. reflexivity.
Qed.

(** [buildTimeline] keeps the tracks in order with their ids, types and
    flags and gives each the sorted permutation of its events; its event
    count is the number of events of all tracks, no event ends after its
    duration, and validating the built tracks again gives the entries it
    already reports. *)
Theorem buildTimeline_summary (tracks : list TimelineTrack) :
  let built := buildTimeline tracks in
  Forall2 (fun out t =>
             trk_id out = trk_id t /\ trk_type out = trk_type t /\
             trk_locked out = trk_locked t /\
             trk_visible out = trk_visible t /\
             Permutation (trk_events out) (trk_events t) /\
             StronglySorted eventOrder (trk_events out))
          (br_tracks built) tracks /\
  br_eventCount built = list_sum (map (fun t => List.length (trk_events t)) tracks) /\
  br_eventCount built = List.length (getAllEventsFromTracks tracks) /\
  (forall t e, In t tracks -> In e (trk_events t) ->
               ev_endTime e <= br_duration built) /\
  validateTimeline (br_tracks built) = br_errors built.
Proof.
  cbv zeta. unfold buildTimeline. simpl.
  split; [|split; [|split; [|split]]].
  - induction tracks as [|t tracks IH]; simpl; constructor; [|exact IH].
    simpl. repeat split.
    + apply sortTimelineEvents_perm.
    + apply sortTimelineEvents_sorted.
  - induction tracks as [|t tracks IH]; simpl; [reflexivity|].
    rewrite length_app, IH. reflexivity.
  - unfold getAllEventsFromTracks, sortTimelineEvents.
    rewrite sort_length. reflexivity.
  - intros t e Ht He.
    unfold calculateTimelineDuration.
    assert (Hin : In e (flat_map trk_events tracks))
      by (apply in_flat_map; exists t; split; assumption).
    destruct (flat_map trk_events tracks) as [|e0 events]; [destruct Hin|].
    simpl.
    destruct (maxOf_bounds (map ev_endTime events) (ev_endTime e0))
      as (Hge & Hall & _).
    destruct Hin as [<- | Hin]; [exact Hge|].
    apply Hall. apply in_map. exact Hin.
  - unfold validateTimeline.
    induction tracks as [|t tracks IH]; simpl; [reflexivity|].
    rewrite validateTrack_sorted_events, IH. reflexivity.
Qed.

Lemma buildTimeline_summary_witness :
  Forall (fun e => ev_endTime e <= br_duration (buildTimeline [cornerTrack]))
         (trk_events cornerTrack) /\
  validateTimeline (br_tracks (buildTimeline [cornerTrack]))
  = br_errors (buildTimeline [cornerTrack]).
Proof.
  destruct (buildTimeline_summary [cornerTrack]) as (_ & _ & _ & Hends & Hsame).
  split; [|exact Hsame].
  apply Forall_forall. intros e He.
  apply (Hends cornerTrack); [left; reflexivity | exact He].
Defined.

(** ** Editing tracks *)

Lemma jsString_eqb_eq (a b : jsString) : jsString_eqb a b = true <-> a = b.
Proof.
  unfold jsString_eqb. destruct list_eq_dec; split; congruence.
Qed.

Lemma filter_all_kept {A : Type} (keep : A -> bool) (xs : list A) :
  Forall (fun x => keep x = true) xs -> filter keep xs = xs.
Proof.
  intros Hall. induction Hall as [|x xs Hx _ IH]; simpl; [reflexivity|].
  rewrite Hx, IH. reflexivity.
Qed.

(** A locked track is frozen: adding or removing an event returns the
    track itself.  On an unlocked track, adding an event whose id no
    event of the track has and then removing that id gives the track
    back; removal drops every event with the id and nothing else. *)
Theorem track_editing (track : TimelineTrack) (event : TimelineEvent)
    (eventId : jsString) :
  (trk_locked track = true ->
   addEventToTrack track event = track /\
   removeEventFromTrack track eventId = track) /\
  (trk_locked track = false ->
   (forall e, In e (trk_events track) -> ev_id e <> ev_id event) ->
   removeEventFromTrack (addEventToTrack track event) (ev_id event) = track) /\
  (trk_locked track = false ->
   forall e, In e (trk_events (removeEventFromTrack track eventId)) <->
             In e (trk_events track) /\ ev_id e <> eventId).
Proof.
  split; [|split].
  - intros Hl. unfold addEventToTrack, removeEventFromTrack.
    rewrite Hl. split; reflexivity.
  - intros Hl Hfresh.
    destruct track as [tid ty evs lk vis]. simpl in *. subst lk.
    unfold addEventToTrack, removeEventFromTrack. simpl.
    f_equal.
    rewrite filter_app. simpl.
    replace (jsString_eqb (ev_id event) (ev_id event)) with true
      by (symmetry; apply jsString_eqb_eq; reflexivity).
    simpl. rewrite app_nil_r.
    apply filter_all_kept. apply Forall_forall. intros e He.
    destruct (jsString_eqb (ev_id e) (ev_id event)) eqn:Heq; [|reflexivity].
    apply jsString_eqb_eq in Heq. exfalso. exact (Hfresh e He Heq).
  - intros Hl e. unfold removeEventFromTrack. rewrite Hl. simpl.
    rewrite filter_In. split; intros [He Hid]; (split; [exact He|]).
    + intros Heq. apply jsString_eqb_eq in Heq. rewrite Heq in Hid.
      discriminate.
    + destruct (jsString_eqb (ev_id e) eventId) eqn:Heq; [|reflexivity].
      apply jsString_eqb_eq in Heq. contradiction.
Qed.

Lemma track_editing_witness :
  addEventToTrack (lockTrack (cursorTrack [])) (moveEvent "e1" 0 400)
    = lockTrack (cursorTrack []) /\
  removeEventFromTrack
    (addEventToTrack (cursorTrack [moveEvent "e1" 0 400])
                     (moveEvent "e2" 10 20))
    (ev_id (moveEvent "e2" 10 20))
    = cursorTrack [moveEvent "e1" 0 400].
Proof.
  split.
  - destruct (track_editing (lockTrack (cursorTrack []))
                (moveEvent "e1" 0 400) (lit "e1")) as (Hlocked & _ & _).
    apply Hlocked. reflexivity.
  - destruct (track_editing (cursorTrack [moveEvent "e1" 0 400])
                (moveEvent "e2" 10 20) (lit "e2")) as (_ & Hback & _).
    apply Hback.
    + reflexivity.
    + intros e [<- | []]. simpl. discriminate.
Defined.

(** ** Active events and tracks *)

Lemma activeAt_iff (time : R) (e : TimelineEvent) :
  activeAt time e = true <-> ev_startTime e <= time < ev_endTime e.
Proof.
  unfold activeAt. destruct Rge_dec; destruct Rlt_dec; simpl;
    split; intros H; try discriminate; try reflexivity; lra.
Qed.

(** Events are active on the half-open interval
    [startTime <= time < endTime]: [getEventsAtTime] returns, in order,
    exactly the events containing the time; an event is active at its
    start (if it has positive duration) but never at its end, and two
    events of which one ends no later than the other starts are never
    active together. *)
Theorem getEventsAtTime_half_open (events : list TimelineEvent) (time : R) :
  (forall e, In e (getEventsAtTime events time) <->
             In e events /\ ev_startTime e <= time < ev_endTime e) /\
  (forall e, ~ In e (getEventsAtTime events (ev_endTime e))) /\
  (forall e, In e events -> ev_startTime e < ev_endTime e ->
             In e (getEventsAtTime events (ev_startTime e))) /\
  (forall e1 e2, ev_endTime e1 <= ev_startTime e2 ->
                 In e1 (getEventsAtTime events time) ->
                 ~ In e2 (getEventsAtTime events time)).
Proof.
  assert (Hmem : forall t e, In e (getEventsAtTime events t) <->
                             In e events /\ ev_startTime e <= t < ev_endTime e).
  { intros t e. unfold getEventsAtTime. rewrite filter_In, activeAt_iff.
    reflexivity. }
  split; [apply Hmem|]. split; [|split].
  - intros e He. apply Hmem in He. lra.
  - intros e He Hpos. apply Hmem. split; [exact He | lra].
  - intros e1 e2 Hle H1 H2. apply Hmem in H1. apply Hmem in H2. lra.
Qed.

Lemma getEventsAtTime_half_open_witness :
  In (moveEvent "e2" 400 900)
     (getEventsAtTime [moveEvent "e1" 0 400; moveEvent "e2" 400 900]
                      (ev_startTime (moveEvent "e2" 400 900))) /\
  ~ In (moveEvent "e1" 0 400)
       (getEventsAtTime [moveEvent "e1" 0 400; moveEvent "e2" 400 900]
                        (ev_endTime (moveEvent "e1" 0 400))).
Proof.
  destruct (getEventsAtTime_half_open
              [moveEvent "e1" 0 400; moveEvent "e2" 400 900] 0)
    as (_ & Hend & Hstart & _).
  split.
  - apply Hstart.
    + right. left. reflexivity.
    + simpl. lra.
  - apply Hend.
Defined.

(** [getActiveTracksAtTime] returns exactly the visible tracks for which
    [getEventsAtTime] finds an event: a hidden track is never active. *)
Theorem getActiveTracksAtTime_spec (tracks : list TimelineTrack) (time : R)
    (track : TimelineTrack) :
  In track (getActiveTracksAtTime tracks time) <->
  In track tracks /\ trk_visible track = true /\
  getEventsAtTime (trk_events track) time <> [].
Proof.
  unfold getActiveTracksAtTime, getEventsAtTime.
  rewrite filter_In, andb_true_iff, existsb_exists.
  split.
  - intros (Hin & Hvis & e & He & Hact). split; [exact Hin|].
    split; [exact Hvis|]. intros Hnil.
    assert (Hf : In e (filter (activeAt time) (trk_events track)))
      by (apply filter_In; split; assumption).
    rewrite Hnil in Hf. exact Hf.
  - intros (Hin & Hvis & Hne). split; [exact Hin|]. split; [exact Hvis|].
    destruct (filter (activeAt time) (trk_events track)) as [|e es] eqn:Hf;
      [contradiction|].
    assert (He : In e (filter (activeAt time) (trk_events track)))
      by (rewrite Hf; left; reflexivity).
    apply filter_In in He. exists e. exact He.
Qed.

(* ================================================================== *)
(** * Further properties of the geometry module *)
(* ================================================================== *)

Lemma geometry_clamp01_range (v : R) : 0 <= Geometry.clamp01 v <= 1.
Proof.
  unfold Geometry.clamp01, Rmin, Rmax. repeat destruct Rle_dec; lra.
Qed.

Lemma geometry_clamp01_low (v : R) : v <= 0 -> Geometry.clamp01 v = 0.
Proof.
  intros Hv. unfold Geometry.clamp01, Rmin, Rmax.
  repeat destruct Rle_dec; lra.
Qed.

Lemma geometry_clamp01_high (v : R) : 1 <= v -> Geometry.clamp01 v = 1.
Proof.
  intros Hv. unfold Geometry.clamp01, Rmin, Rmax.
  repeat destruct Rle_dec; lra.
Qed.

Lemma geometry_clamp01_monotone (u v : R) :
  u <= v -> Geometry.clamp01 u <= Geometry.clamp01 v.
Proof.
  intros Huv. unfold Geometry.clamp01, Rmin, Rmax.
  repeat destruct Rle_dec; lra.
Qed.

Lemma evaluateBezierPoint_at_0 (c : BezierCurve) (t : R) :
  t <= 0 -> evaluateBezierPoint c t = bz_start c.
Proof.
  intros Ht. unfold evaluateBezierPoint.
  rewrite (geometry_clamp01_low t Ht).
  destruct (bz_start c) as [sx sy]. simpl. f_equal; ring.
Qed.

Lemma evaluateBezierPoint_at_1 (c : BezierCurve) (t : R) :
  1 <= t -> evaluateBezierPoint c t = bz_end c.
Proof.
  intros Ht. unfold evaluateBezierPoint.
  rewrite (geometry_clamp01_high t Ht).
  destruct (bz_end c) as [ex ey]. simpl. f_equal; ring.
Qed.

(** A cubic Bezier curve evaluates to its start point at every parameter
    up to 0 and to its end point at every parameter from 1 on: the
    parameter is clamped, so out-of-range values do not extrapolate. *)
Theorem evaluateBezierPoint_endpoints (c : BezierCurve) (t : R) :
  (t <= 0 -> evaluateBezierPoint c t = bz_start c) /\
  (1 <= t -> evaluateBezierPoint c t = bz_end c).
Proof.
  split; [apply evaluateBezierPoint_at_0 | apply evaluateBezierPoint_at_1].
Qed.

Lemma evaluateBezierPoint_endpoints_witness :
  evaluateBezierPoint archCurve (-3) = bz_start archCurve /\
  evaluateBezierPoint archCurve 1 = bz_end archCurve.
Proof.
  split.
  - apply (evaluateBezierPoint_endpoints archCurve (-3)). lra.
  - apply (evaluateBezierPoint_endpoints archCurve 1). lra.
Defined.

(** ** Sampling loops *)

Lemma safeCount_positive (steps : R) : (1 <= safeCount steps)%nat.
Proof. unfold safeCount. lia. Qed.

Lemma roundZ_integer (z : Z) : roundZ (IZR z) = z.
Proof.
  unfold roundZ. symmetry. apply Int_part_spec. lra.
Qed.

Lemma safeCount_integer (k : nat) : (1 <= k)%nat -> safeCount (INR k) = k.
Proof.
  intros Hk. unfold safeCount. rewrite INR_IZR_INZ, roundZ_integer. lia.
Qed.

Lemma last_map_seq {A : Type} (f : nat -> A) (n : nat) (d : A) :
  List.last (map f (seq 0 (S n))) d = f n.
Proof.
  rewrite seq_S, map_app. simpl. apply last_last.
Qed.

Lemma nth_error_map_seq {A : Type} (f : nat -> A) (n i : nat) :
  (i < n)%nat -> nth_error (map f (seq 0 n)) i = Some (f i).
Proof.
  intros Hi. rewrite nth_error_map, nth_error_seq.
  replace (i <? n)%nat with true by (symmetry; apply Nat.ltb_lt; exact Hi).
  reflexivity.
Qed.

(** [flattenBezier] samples the curve at [safeSegments + 1] evenly spaced
    parameters, [safeSegments] being the rounded segment count and at
    least 1: the result is never shorter than two points, starts at the
    curve's start and ends at its end. *)
Theorem flattenBezier_samples (c : BezierCurve) (segments : R) :
  let n := safeCount segments in
  (1 <= n)%nat /\
  List.length (flattenBezier c segments) = S n /\
  (forall i, (i <= n)%nat ->
     nth_error (flattenBezier c segments) i
       = Some (evaluateBezierPoint c (INR i / INR n))) /\
  nth_error (flattenBezier c segments) 0 = Some (bz_start c) /\
  List.last (flattenBezier c segments) (bz_start c) = bz_end c /\
  (forall k, (1 <= k)%nat -> safeCount (INR k) = k).
Proof.
  cbv zeta. unfold flattenBezier.
  pose proof (safeCount_positive segments) as Hn.
  assert (Hpos : 0 < INR (safeCount segments)) by (apply lt_0_INR; lia).
  split; [exact Hn|].
  split; [rewrite length_map, length_seq; reflexivity|].
  split; [intros i Hi; rewrite nth_error_map_seq by lia; reflexivity|].
  split.
  - rewrite nth_error_map_seq by lia. f_equal.
    apply evaluateBezierPoint_at_0. simpl. unfold Rdiv. lra.
  - split; [|apply safeCount_integer].
    rewrite last_map_seq. apply evaluateBezierPoint_at_1.
    unfold Rdiv. rewrite Rinv_r by lra. lra.
Qed.

Lemma flattenBezier_samples_witness :
  List.length (flattenBezier archCurve (INR 20)) = 21%nat.
Proof.
  destruct (flattenBezier_samples archCurve (INR 20))
    as (_ & Hlen & _ & _ & _ & Hcount).
  rewrite Hlen. rewrite (Hcount 20%nat); [reflexivity | lia].
Defined.

Lemma lineSample_step (start end_ : Point) (n k : nat) :
  (1 <= n)%nat ->
  distance (lineSample start end_ n k) (lineSample start end_ n (S k))
  = distance start end_ * / INR n.
Proof.
  intros Hn.
  assert (Hpos : 0 < INR n) by (apply lt_0_INR; lia).
  unfold distance, lineSample. cbn [p_x p_y]. rewrite S_INR.
  set (dx := p_x end_ - p_x start). set (dy := p_y end_ - p_y start).
  replace ((p_x start + dx * ((INR k + 1) / INR n)
            - (p_x start + dx * (INR k / INR n)))
           * (p_x start + dx * ((INR k + 1) / INR n)
              - (p_x start + dx * (INR k / INR n)))
           + (p_y start + dy * ((INR k + 1) / INR n)
              - (p_y start + dy * (INR k / INR n)))
             * (p_y start + dy * ((INR k + 1) / INR n)
                - (p_y start + dy * (INR k / INR n))))
    with ((dx * dx + dy * dy) * (/ INR n * / INR n))
    by (field; lra).
  pose proof (Rle_0_sqr dx) as Hx. pose proof (Rle_0_sqr dy) as Hy.
  unfold Rsqr in Hx, Hy.
  assert (Hinv : 0 <= / INR n) by (left; apply Rinv_0_lt_compat; exact Hpos).
  rewrite sqrt_mult; [| lra | apply Rmult_le_pos; exact Hinv].
  rewrite sqrt_square by exact Hinv.
  reflexivity.
Qed.

Lemma lineSample_length (start end_ : Point) (n : nat) :
  (1 <= n)%nat ->
  forall m k,
    polylineLength (lineSample start end_ n k)
                   (map (lineSample start end_ n) (seq (S k) m))
    = INR m * (distance start end_ * / INR n).
Proof.
  intros Hn. induction m as [|m IH]; intros k.
  - simpl. ring.
  - change (seq (S k) (S m)) with (S k :: seq (S (S k)) m).
    rewrite map_cons.
    change (distance (lineSample start end_ n k)
                     (lineSample start end_ n (S k))
            + polylineLength (lineSample start end_ n (S k))
                (map (lineSample start end_ n) (seq (S (S k)) m))
            = INR (S m) * (distance start end_ * / INR n)).
    rewrite IH, lineSample_step by exact Hn.
    rewrite S_INR. ring.
Qed.

(** [interpolatePoints] returns [safeSteps + 1] points, [safeSteps]
    being the rounded step count and at least 1, and the first is
    [start].  In exact arithmetic (the number model of this development,
    rounding ignored) the last is [end] and the points are spread along
    the straight line: the arc length of the result is the distance from
    [start] to [end]. *)
Theorem interpolatePoints_line (start end_ : Point) (steps : R) :
  let n := safeCount steps in
  (1 <= n)%nat /\
  List.length (interpolatePoints start end_ steps) = S n /\
  nth_error (interpolatePoints start end_ steps) 0 = Some start /\
  List.last (interpolatePoints start end_ steps) start = end_ /\
  calculatePathLength (interpolatePoints start end_ steps)
    = distance start end_.
Proof.
  cbv zeta. unfold interpolatePoints.
  pose proof (safeCount_positive steps) as Hn.
  assert (Hpos : 0 < INR (safeCount steps)) by (apply lt_0_INR; lia).
  split; [exact Hn|].
  split; [rewrite length_map, length_seq; reflexivity|].
  split; [|split].
  - rewrite nth_error_map_seq by lia. f_equal.
    destruct start as [sx sy]. simpl. f_equal; unfold Rdiv; ring.
  - rewrite last_map_seq.
    destruct end_ as [ex ey]. simpl. f_equal; field; lra.
  - change (calculatePathLength
              (map (lineSample start end_ (safeCount steps))
                   (0%nat :: seq 1 (safeCount steps)))
            = distance start end_).
    rewrite map_cons, calculatePathLength_cons.
    rewrite (lineSample_length start end_ (safeCount steps) Hn).
    field. lra.
Qed.

(** ** Easing *)

(** Over the exact arithmetic of the number model, each of the four
    easing functions maps every number into [[0, 1]], gives 0 up to 0
    and 1 from 1 on, and never decreases. *)
Theorem easing_functions_monotone (name : EasingName) (t t' : R) :
  0 <= getEasingFunction name t <= 1 /\
  (t <= 0 -> getEasingFunction name t = 0) /\
  (1 <= t -> getEasingFunction name t = 1) /\
  (t <= t' -> getEasingFunction name t <= getEasingFunction name t').
Proof.
  pose proof (geometry_clamp01_range t) as Hc.
  pose proof (geometry_clamp01_range t') as Hc'.
  split; [|split; [|split]].
  - destruct name; simpl;
      unfold easeLinear, easeIn, easeOut, easeInOut;
      set (ct := Geometry.clamp01 t) in *;
      try destruct Rlt_dec; split; nra.
  - intros Ht. destruct name; simpl;
      unfold easeLinear, easeIn, easeOut, easeInOut;
      rewrite (geometry_clamp01_low t Ht);
      try destruct Rlt_dec; lra.
  - intros Ht. destruct name; simpl;
      unfold easeLinear, easeIn, easeOut, easeInOut;
      rewrite (geometry_clamp01_high t Ht);
      try destruct Rlt_dec; lra.
  - intros Hle. pose proof (geometry_clamp01_monotone t t' Hle) as Hm.
    destruct name; simpl;
      unfold easeLinear, easeIn, easeOut, easeInOut;
      set (ct := Geometry.clamp01 t) in *;
      set (ct' := Geometry.clamp01 t') in *;
      repeat destruct Rlt_dec; nra.
Qed.

Lemma easing_functions_monotone_witness :
  getEasingFunction Easing_easeInOut (-1) = 0 /\
  getEasingFunction Easing_easeOut 2 = 1 /\
  getEasingFunction Easing_easeIn 0.25 <= getEasingFunction Easing_easeIn 0.75.
Proof.
  split; [|split].
  - apply (easing_functions_monotone Easing_easeInOut (-1) 0). lra.
  - apply (easing_functions_monotone Easing_easeOut 2 2). lra.
  - apply (easing_functions_monotone Easing_easeIn 0.25 0.75). lra.
Defined.

(** Each of the four easing functions maps every number into [[0, 1]],
    gives 0 for every input up to 0 and 1 for every input from 1 on.
    At every input ease-in is at most the linear easing and ease-out at
    least the linear easing: the first starts slow, the second ends
    slow. *)
Theorem easing_functions_range (name : EasingName) (t : R) :
  0 <= getEasingFunction name t <= 1 /\
  (t <= 0 -> getEasingFunction name t = 0) /\
  (1 <= t -> getEasingFunction name t = 1) /\
  getEasingFunction Easing_easeIn t <= getEasingFunction Easing_linear t /\
  getEasingFunction Easing_linear t <= getEasingFunction Easing_easeOut t.
Proof.
  pose proof (geometry_clamp01_range t) as Hc.
  split; [|split; [|split; [|split]]].
  - destruct name; simpl;
      unfold easeLinear, easeIn, easeOut, easeInOut;
      set (ct := Geometry.clamp01 t) in *;
      try destruct Rlt_dec; split; nra.
  - intros Ht. destruct name; simpl;
      unfold easeLinear, easeIn, easeOut, easeInOut;
      rewrite (geometry_clamp01_low t Ht);
      try destruct Rlt_dec; lra.
  - intros Ht. destruct name; simpl;
      unfold easeLinear, easeIn, easeOut, easeInOut;
      rewrite (geometry_clamp01_high t Ht);
      try destruct Rlt_dec; lra.
  - simpl. unfold easeLinear, easeIn.
    set (ct := Geometry.clamp01 t) in *. nra.
  - simpl. unfold easeLinear, easeOut.
    set (ct := Geometry.clamp01 t) in *. nra.
Qed.

Lemma easing_functions_range_witness :
  getEasingFunction Easing_easeInOut (-1) = 0 /\
  getEasingFunction Easing_easeOut 2 = 1.
Proof.
  split.
  - apply (easing_functions_range Easing_easeInOut (-1)). lra.
  - apply (easing_functions_range Easing_easeOut 2). lra.
Defined.

(** ** Bounding boxes *)

Lemma extremesLoop_spec (points : list Point) :
  forall minX minY maxX maxY a b c d,
    extremesLoop minX minY maxX maxY points = (a, b, c, d) ->
    (a <= minX /\ b <= minY /\ maxX <= c /\ maxY <= d) /\
    (forall p, In p points ->
               a <= p_x p <= c /\ b <= p_y p <= d) /\
    (a = minX \/ exists p, In p points /\ p_x p = a) /\
    (b = minY \/ exists p, In p points /\ p_y p = b) /\
    (c = maxX \/ exists p, In p points /\ p_x p = c) /\
    (d = maxY \/ exists p, In p points /\ p_y p = d).
Proof.
  induction points as [|q points IH];
    intros minX minY maxX maxY a b c d Hloop; simpl in Hloop.
  - injection Hloop as <- <- <- <-.
    split; [lra|]. split; [intros p []|].
    repeat split; left; reflexivity.
  - apply IH in Hloop.
    destruct Hloop as ((Ha & Hb & Hc & Hd) & Hall & Ea & Eb & Ec & Ed).
    assert (Hq : a <= p_x q <= c /\ b <= p_y q <= d).
    { destruct (Rlt_dec (p_x q) minX), (Rlt_dec (p_y q) minY),
        (Rgt_dec (p_x q) maxX), (Rgt_dec (p_y q) maxY) in Ha, Hb, Hc, Hd;
        lra. }
    split.
    { destruct (Rlt_dec (p_x q) minX), (Rlt_dec (p_y q) minY),
        (Rgt_dec (p_x q) maxX), (Rgt_dec (p_y q) maxY) in Ha, Hb, Hc, Hd;
        lra. }
    split; [intros p [<- | Hp]; [exact Hq | apply Hall; exact Hp]|].
    split; [|split; [|split]].
    + destruct Ea as [Ea | (p & Hp & Ea)];
        [|right; exists p; split; [right; exact Hp | exact Ea]].
      destruct (Rlt_dec (p_x q) minX);
        [right; exists q; split; [left; reflexivity | lra] | left; exact Ea].
    + destruct Eb as [Eb | (p & Hp & Eb)];
        [|right; exists p; split; [right; exact Hp | exact Eb]].
      destruct (Rlt_dec (p_y q) minY);
        [right; exists q; split; [left; reflexivity | lra] | left; exact Eb].
    + destruct Ec as [Ec | (p & Hp & Ec)];
        [|right; exists p; split; [right; exact Hp | exact Ec]].
      destruct (Rgt_dec (p_x q) maxX);
        [right; exists q; split; [left; reflexivity | lra] | left; exact Ec].
    + destruct Ed as [Ed | (p & Hp & Ed)];
        [|right; exists p; split; [right; exact Hp | exact Ed]].
      destruct (Rgt_dec (p_y q) maxY);
        [right; exists q; split; [left; reflexivity | lra] | left; exact Ed].
Qed.

(** The box of [calculateBoundingBoxForPoints] is spanned by the extreme
    coordinates of the input: for a non-empty input its corner is the
    least [x] and the least [y] among the points, its width is the
    greatest [x] minus the least [x] and its height the greatest [y]
    minus the least [y] (as the code subtracts them), each of the four
    extremes being the coordinate of an input point; width and height
    are not negative.  The empty input gives the zero box at the
    origin. *)
Theorem calculateBoundingBoxForPoints_tight (points : list Point) :
  let box := calculateBoundingBoxForPoints points in
  calculateBoundingBoxForPoints [] = mkBoundingBox 0 0 0 0 /\
  (points <> [] ->
   exists pMinX pMinY pMaxX pMaxY,
     (In pMinX points /\ In pMinY points /\
      In pMaxX points /\ In pMaxY points) /\
     (forall p, In p points ->
        p_x pMinX <= p_x p <= p_x pMaxX /\
        p_y pMinY <= p_y p <= p_y pMaxY) /\
     bb_x box = p_x pMinX /\
     bb_y box = p_y pMinY /\
     bb_width box = p_x pMaxX - p_x pMinX /\
     bb_height box = p_y pMaxY - p_y pMinY /\
     0 <= bb_width box /\ 0 <= bb_height box).
Proof.
  cbv zeta. split; [reflexivity|].
  unfold calculateBoundingBoxForPoints.
  destruct points as [|first rest]; [intros H; contradiction|].
  intros _.
  destruct (extremesLoop (p_x first) (p_y first) (p_x first) (p_y first) rest)
    as [[[a b] c] d] eqn:Hloop.
  apply extremesLoop_spec in Hloop.
  destruct Hloop as ((Ha & Hb & Hc & Hd) & Hall & Ea & Eb & Ec & Ed).
  assert (Fa : exists p, In p (first :: rest) /\ p_x p = a).
  { destruct Ea as [-> | (p & Hp & Ea)];
      [exists first; split; [left|]; reflexivity
      | exists p; split; [right; exact Hp | exact Ea]]. }
  assert (Fb : exists p, In p (first :: rest) /\ p_y p = b).
  { destruct Eb as [-> | (p & Hp & Eb)];
      [exists first; split; [left|]; reflexivity
      | exists p; split; [right; exact Hp | exact Eb]]. }
  assert (Fc : exists p, In p (first :: rest) /\ p_x p = c).
  { destruct Ec as [-> | (p & Hp & Ec)];
      [exists first; split; [left|]; reflexivity
      | exists p; split; [right; exact Hp | exact Ec]]. }
  assert (Fd : exists p, In p (first :: rest) /\ p_y p = d).
  { destruct Ed as [-> | (p & Hp & Ed)];
      [exists first; split; [left|]; reflexivity
      | exists p; split; [right; exact Hp | exact Ed]]. }
  destruct Fa as (pa & Hpa & <-). destruct Fb as (pb & Hpb & <-).
  destruct Fc as (pc & Hpc & <-). destruct Fd as (pd & Hpd & <-).
  exists pa, pb, pc, pd. simpl bb_x. simpl bb_y. simpl bb_width.
  simpl bb_height.
  split; [repeat split; assumption|].
  split.
  { intros p [<- | Hp]; [lra|]. specialize (Hall p Hp). lra. }
  repeat split; try reflexivity; lra.
Qed.

Lemma calculateBoundingBoxForPoints_tight_witness :
  exists pMinX pMaxX,
    In pMinX cornerPath /\ In pMaxX cornerPath /\
    bb_x (calculateBoundingBoxForPoints cornerPath) = p_x pMinX /\
    bb_width (calculateBoundingBoxForPoints cornerPath)
    = p_x pMaxX - p_x pMinX.
Proof.
  assert (Hne : cornerPath <> []) by discriminate.
  destruct (calculateBoundingBoxForPoints_tight cornerPath) as (_ & Htight).
  destruct (Htight Hne)
    as (pMinX & pMinY & pMaxX & pMaxY & (H1 & _ & H3 & _) & _ & Hx & _ & Hw & _).
  exists pMinX, pMaxX. repeat split; assumption.
Defined.

(** The box of a non-empty stroke is the box of its points grown by half
    the stroke width on every side; an empty stroke gives the zero box
    at the origin whatever its width. *)
Theorem calculateBoundingBox_pads (stroke : Stroke) :
  let box := calculateBoundingBox stroke in
  let inner := calculateBoundingBoxForPoints (st_points stroke) in
  (st_points stroke = [] -> box = mkBoundingBox 0 0 0 0) /\
  (st_points stroke <> [] ->
   bb_x box = bb_x inner - st_width stroke / 2 /\
   bb_y box = bb_y inner - st_width stroke / 2 /\
   bb_width box = bb_width inner + st_width stroke /\
   bb_height box = bb_height inner + st_width stroke /\
   forall p, In p (st_points stroke) ->
     bb_x box + st_width stroke / 2 <= p_x p
       <= bb_x box + bb_width box - st_width stroke / 2 /\
     bb_y box + st_width stroke / 2 <= p_y p
       <= bb_y box + bb_height box - st_width stroke / 2).
Proof.
  cbv zeta. unfold calculateBoundingBox, calculateBoundingBoxForPoints.
  destruct (st_points stroke) as [|first rest].
  - split; [reflexivity|]. intros H. contradiction.
  - split; [discriminate|]. intros _.
    destruct (extremesLoop (p_x first) (p_y first) (p_x first) (p_y first) rest)
      as [[[a b] c] d] eqn:Hloop.
    apply extremesLoop_spec in Hloop.
    destruct Hloop as ((Ha & Hb & Hc & Hd) & Hall & _).
    simpl. repeat split; try reflexivity;
      destruct H as [<- | Hp]; try lra; specialize (Hall p Hp); lra.
Qed.

Lemma calculateBoundingBox_pads_witness :
  bb_width (calculateBoundingBox wideStroke)
    = bb_width (calculateBoundingBoxForPoints (st_points wideStroke))
      + st_width wideStroke.
Proof.
  destruct (calculateBoundingBox_pads wideStroke) as (_ & Hpad).
  apply Hpad. discriminate.
Defined.

(** ** Points at a distance along a path *)

Lemma pointAtDistanceLoop_past_end (target : R) (lastPoint : Point)
    (rest : list Point) :
  forall accumulated prev,
    accumulated + polylineLength prev rest < target ->
    pointAtDistanceLoop target accumulated prev rest lastPoint = lastPoint.
Proof.
  induction rest as [|curr rest IH]; intros accumulated prev Hshort;
    [reflexivity|].
  simpl in *. pose proof (polylineLength_nonneg rest curr) as Hrest.
  destruct Rge_dec; [lra|].
  apply IH. lra.
Qed.

(** [getPointAtDistance] gives the origin for an empty path, the first
    point for a target distance of 0 or less, and the last point for a
    target beyond the arc length of the path. *)
Theorem getPointAtDistance_edges (points : list Point) (target : R)
    (first : Point) (rest : list Point) :
  getPointAtDistance [] target = mkPoint 0 0 /\
  (points = first :: rest -> target <= 0 ->
   getPointAtDistance points target = first) /\
  (points = first :: rest -> calculatePathLength points < target ->
   getPointAtDistance points target = List.last rest first).
Proof.
  split; [reflexivity|]. split.
  - intros -> Hle. unfold getPointAtDistance.
    destruct (List.length (first :: rest) =? 1)%nat; [reflexivity|].
    destruct Rle_dec; [reflexivity | contradiction].
  - intros -> Hgt. rewrite calculatePathLength_cons in Hgt.
    pose proof (polylineLength_nonneg rest first) as Hpos.
    unfold getPointAtDistance.
    destruct rest as [|second rest]; [reflexivity|].
    simpl Nat.eqb. cbv iota.
    destruct Rle_dec; [lra|].
    rewrite last_cons_default.
    apply pointAtDistanceLoop_past_end. lra.
Qed.

Lemma getPointAtDistance_edges_witness :
  getPointAtDistance cornerPath 0 = mkPoint 0 0 /\
  getPointAtDistance [mkPoint 0 0; mkPoint 3 4] 6 = mkPoint 3 4.
Proof.
  split.
  - destruct (getPointAtDistance_edges cornerPath 0 (mkPoint 0 0)
                [mkPoint 10 0; mkPoint 10 10]) as (_ & Hfirst & _).
    apply Hfirst; [reflexivity | lra].
  - destruct (getPointAtDistance_edges [mkPoint 0 0; mkPoint 3 4] 6
                (mkPoint 0 0) [mkPoint 3 4]) as (_ & _ & Hlast).
    apply Hlast; [reflexivity|].
    rewrite calculatePathLength_cons. simpl. unfold distance. simpl.
    replace ((3 - 0) * (3 - 0) + (4 - 0) * (4 - 0)) with (5 * 5) by ring.
    rewrite sqrt_square by lra. lra.
Defined.

Lemma strokeProgressLoop_last (target : R) (lastPoint d : Point)
    (rest : list Point) :
  forall result accumulated prev,
    List.last (result ++ rest) d = lastPoint ->
    List.last (strokeProgressLoop target result accumulated prev rest) d
    = pointAtDistanceLoop target accumulated prev rest lastPoint.
Proof.
  induction rest as [|curr rest IH]; intros result accumulated prev Hlast.
  - simpl. rewrite app_nil_r in Hlast. exact Hlast.
  - simpl. destruct Rge_dec.
    + apply last_last.
    + apply IH. rewrite <- app_assoc. exact Hlast.
Qed.

(** The boundary point of a partly drawn stroke is the point at the
    drawn distance: for a non-empty stroke and a progress strictly
    between 0 and 1, the last point of [getStrokeProgress] is
    [getPointAtDistance] at [progress] times the stroke's arc length. *)
Theorem getStrokeProgress_ends_at_distance (stroke : Stroke) (progress : R)
    (d : Point) :
  st_points stroke <> [] -> 0 < progress < 1 ->
  List.last (getStrokeProgress stroke progress) d
  = getPointAtDistance (st_points stroke)
      (calculatePathLength (st_points stroke) * progress).
Proof.
  intros Hne Hp. unfold getStrokeProgress, getPointAtDistance.
  destruct (st_points stroke) as [|first rest]; [contradiction|].
  destruct Rle_dec; [lra|]. destruct Rge_dec; [lra|].
  rewrite geometry_clamp01_inside by lra.
  rewrite calculatePathLength_cons.
  pose proof (polylineLength_nonneg rest first) as Hpos.
  destruct rest as [|second rest]; [reflexivity|].
  simpl Nat.eqb. cbv iota.
  destruct Rle_dec as [Hzero | Hgo].
  - assert (Htarget : polylineLength first (second :: rest) * progress = 0)
      by nra.
    rewrite Htarget. simpl strokeProgressLoop.
    pose proof (distance_nonneg first second) as Hseg.
    destruct Rge_dec; [|lra].
    simpl. destruct Req_dec_T; destruct first as [fx fy]; simpl;
      f_equal; unfold Rdiv; ring.
  - apply strokeProgressLoop_last. simpl app.
    rewrite !last_cons_default. reflexivity.
Qed.

Lemma getStrokeProgress_ends_at_distance_witness :
  List.last (getStrokeProgress (strokeOf cornerPath) (1 / 2)) (mkPoint 0 0)
  = getPointAtDistance cornerPath (calculatePathLength cornerPath * (1 / 2)).
Proof.
  apply (getStrokeProgress_ends_at_distance (strokeOf cornerPath) (1 / 2)).
  - discriminate.
  - lra.
Defined.

(** ** Stroke transforms *)

Lemma distance_translate (dx dy : R) (p q : Point) :
  distance (translatePoint dx dy p) (translatePoint dx dy q) = distance p q.
Proof.
  unfold distance, translatePoint. simpl. f_equal. ring.
Qed.

Lemma polylineLength_translate (dx dy : R) (rest : list Point) :
  forall prev,
    polylineLength (translatePoint dx dy prev) (map (translatePoint dx dy) rest)
    = polylineLength prev rest.
Proof.
  induction rest as [|curr rest IH]; intros prev; simpl; [reflexivity|].
  rewrite distance_translate, IH. reflexivity.
Qed.

Lemma calculatePathLength_map_cons (f : Point -> Point) (first : Point)
    (rest : list Point) :
  calculatePathLength (map f (first :: rest))
  = polylineLength (f first) (map f rest).
Proof. rewrite map_cons. apply calculatePathLength_cons. Qed.

Lemma extremesLoop_translate (dx dy : R) (points : list Point) :
  forall minX minY maxX maxY a b c d,
    extremesLoop minX minY maxX maxY points = (a, b, c, d) ->
    extremesLoop (minX + dx) (minY + dy) (maxX + dx) (maxY + dy)
                 (map (translatePoint dx dy) points)
    = (a + dx, b + dy, c + dx, d + dy).
Proof.
  induction points as [|q points IH];
    intros minX minY maxX maxY a b c d Hloop; simpl in *.
  - injection Hloop as <- <- <- <-. reflexivity.
  - apply IH in Hloop. rewrite <- Hloop. f_equal.
    + destruct (Rlt_dec (p_x q) minX), (Rlt_dec (p_x q + dx) (minX + dx));
        try reflexivity; lra.
    + destruct (Rlt_dec (p_y q) minY), (Rlt_dec (p_y q + dy) (minY + dy));
        try reflexivity; lra.
    + destruct (Rgt_dec (p_x q) maxX), (Rgt_dec (p_x q + dx) (maxX + dx));
        try reflexivity; lra.
    + destruct (Rgt_dec (p_y q) maxY), (Rgt_dec (p_y q + dy) (maxY + dy));
        try reflexivity; lra.
Qed.

(** [translateStroke] keeps the number of points, the colour, the width
    and the opacity.  In exact arithmetic (the number model of this
    development, rounding ignored) it is a rigid move: it keeps the arc
    length, shifts the bounding box of a non-empty stroke by the offset
    without resizing it, and is undone by translating back. *)
Theorem translateStroke_rigid (newId backId : jsString) (stroke : Stroke)
    (dx dy : R) :
  let moved := translateStroke newId stroke dx dy in
  st_points (translateStroke backId moved (- dx) (- dy)) = st_points stroke /\
  List.length (st_points moved) = List.length (st_points stroke) /\
  (st_color moved, st_width moved, st_opacity moved)
    = (st_color stroke, st_width stroke, st_opacity stroke) /\
  calculatePathLength (st_points moved)
    = calculatePathLength (st_points stroke) /\
  (st_points stroke <> [] ->
   calculateBoundingBox moved
   = {| bb_x := bb_x (calculateBoundingBox stroke) + dx;
        bb_y := bb_y (calculateBoundingBox stroke) + dy;
        bb_width := bb_width (calculateBoundingBox stroke);
        bb_height := bb_height (calculateBoundingBox stroke) |}).
Proof.
  cbv zeta. unfold translateStroke. simpl.
  split; [|split; [|split; [|split]]].
  - rewrite map_map. rewrite <- (map_id (st_points stroke)) at 2.
    apply map_ext. intros [px py]. simpl. f_equal; ring.
  - apply length_map.
  - reflexivity.
  - destruct (st_points stroke) as [|first rest]; [reflexivity|].
    change (calculatePathLength (map (translatePoint dx dy) (first :: rest))
            = calculatePathLength (first :: rest)).
    rewrite calculatePathLength_map_cons, calculatePathLength_cons.
    apply polylineLength_translate.
  - intros Hne. unfold calculateBoundingBox. simpl.
    destruct (st_points stroke) as [|first rest]; [contradiction|].
    simpl map.
    destruct (extremesLoop (p_x first) (p_y first) (p_x first) (p_y first) rest)
      as [[[a b] c] d] eqn:Hloop.
    change (map (fun p => {| p_x := p_x p + dx; p_y := p_y p + dy |}) rest)
      with (map (translatePoint dx dy) rest).
    simpl p_x. simpl p_y.
    rewrite (extremesLoop_translate dx dy rest _ _ _ _ a b c d Hloop).
    simpl. f_equal; ring.
Qed.

Lemma translateStroke_rigid_witness :
  bb_x (calculateBoundingBox
          (translateStroke (lit "stroke_2") wideStroke 5 7))
  = bb_x (calculateBoundingBox wideStroke) + 5.
Proof.
  destruct (translateStroke_rigid (lit "stroke_2") (lit "stroke_3")
              wideStroke 5 7) as (_ & _ & _ & _ & Hbox).
  rewrite Hbox; [reflexivity | discriminate].
Defined.

Lemma distance_scale (k : R) (origin p q : Point) :
  distance (scalePoint k k origin p) (scalePoint k k origin q)
  = Rabs k * distance p q.
Proof.
  unfold distance, scalePoint. simpl.
  replace ((p_x origin + (p_x q - p_x origin) * k
            - (p_x origin + (p_x p - p_x origin) * k))
           * (p_x origin + (p_x q - p_x origin) * k
              - (p_x origin + (p_x p - p_x origin) * k))
           + (p_y origin + (p_y q - p_y origin) * k
              - (p_y origin + (p_y p - p_y origin) * k))
             * (p_y origin + (p_y q - p_y origin) * k
                - (p_y origin + (p_y p - p_y origin) * k)))
    with (Rsqr k * ((p_x q - p_x p) * (p_x q - p_x p)
                    + (p_y q - p_y p) * (p_y q - p_y p)))
    by (unfold Rsqr; ring).
  pose proof (Rle_0_sqr (p_x q - p_x p)) as Hx.
  pose proof (Rle_0_sqr (p_y q - p_y p)) as Hy.
  unfold Rsqr in Hx, Hy.
  rewrite sqrt_mult; [| apply Rle_0_sqr | lra].
  rewrite sqrt_Rsqr_abs. reflexivity.
Qed.

Lemma polylineLength_scale (k : R) (origin : Point) (rest : list Point) :
  forall prev,
    polylineLength (scalePoint k k origin prev)
                   (map (scalePoint k k origin) rest)
    = Rabs k * polylineLength prev rest.
Proof.
  induction rest as [|curr rest IH]; intros prev; simpl; [ring|].
  rewrite distance_scale, IH. ring.
Qed.

(** In exact arithmetic (the number model of this development, rounding
    ignored), [scaleStroke] with the same factor [k] on both axes
    multiplies the arc length by [|k|], whatever the origin; with
    factors 1 and 1 it leaves every point where it was, and for any
    factors it keeps a point lying on the origin in place. *)
Theorem scaleStroke_uniform (newId : jsString) (stroke : Stroke)
    (k scaleX scaleY : R) (origin : Point) :
  calculatePathLength (st_points (scaleStroke newId stroke k k origin))
    = Rabs k * calculatePathLength (st_points stroke) /\
  st_points (scaleStroke newId stroke 1 1 origin) = st_points stroke /\
  (In origin (st_points stroke) ->
   In origin (st_points (scaleStroke newId stroke scaleX scaleY origin))).
Proof.
  unfold scaleStroke. simpl. split; [|split].
  - destruct (st_points stroke) as [|first rest].
    + simpl. unfold calculatePathLength. simpl. ring.
    + change (calculatePathLength
                (map (scalePoint k k origin) (first :: rest))
              = Rabs k * calculatePathLength (first :: rest)).
      rewrite calculatePathLength_map_cons, calculatePathLength_cons.
      apply polylineLength_scale.
  - rewrite <- (map_id (st_points stroke)) at 2.
    apply map_ext. intros [px py]. simpl. f_equal; ring.
  - intros Hin. apply in_map_iff. exists origin. split; [|exact Hin].
    destruct origin as [ox oy]. simpl. f_equal; ring.
Qed.

Lemma scaleStroke_uniform_witness :
  In (mkPoint 10 0)
     (st_points (scaleStroke (lit "stroke_2") wideStroke 2 3 (mkPoint 10 0))).
Proof.
  apply (scaleStroke_uniform (lit "stroke_2") wideStroke 1 2 3 (mkPoint 10 0)).
  right. left. reflexivity.
Defined.

Lemma polylineLength_app (l1 l2 : list Point) :
  forall prev,
    polylineLength prev (l1 ++ l2)
    = polylineLength prev l1 + polylineLength (List.last l1 prev) l2.
Proof.
  induction l1 as [|p l1 IH]; intros prev.
  - simpl. ring.
  - rewrite last_cons_default. simpl. rewrite IH. ring.
Qed.

(** [mergeStrokes] joins the two point lists and takes the colour, width
    and opacity of the first stroke; for two non-empty strokes the arc
    length of the result is the two arc lengths plus the jump from the
    last point of the first stroke to the first point of the second. *)
Theorem mergeStrokes_arc_length (newId : jsString) (a b : Stroke)
    (firstA firstB : Point) (restA restB : list Point) :
  st_points a = firstA :: restA -> st_points b = firstB :: restB ->
  let merged := mergeStrokes newId a b in
  st_points merged = st_points a ++ st_points b /\
  (st_color merged, st_width merged, st_opacity merged)
    = (st_color a, st_width a, st_opacity a) /\
  calculatePathLength (st_points merged)
    = calculatePathLength (st_points a)
      + distance (List.last restA firstA) firstB
      + calculatePathLength (st_points b).
Proof.
  intros Ha Hb. cbv zeta. unfold mergeStrokes. simpl.
  split; [reflexivity|]. split; [reflexivity|].
  rewrite Ha, Hb. simpl app.
  rewrite !calculatePathLength_cons, polylineLength_app. simpl. ring.
Qed.

Lemma mergeStrokes_arc_length_witness :
  calculatePathLength
    (st_points (mergeStrokes (lit "stroke_m") wideStroke
                             (strokeOf straightPath)))
  = calculatePathLength (st_points wideStroke)
    + distance (mkPoint 10 10) (mkPoint 0 0)
    + calculatePathLength (st_points (strokeOf straightPath)).
Proof.
  apply (mergeStrokes_arc_length (lit "stroke_m") wideStroke
           (strokeOf straightPath) (mkPoint 0 0) (mkPoint 0 0)
           [mkPoint 10 0; mkPoint 10 10] [mkPoint 1 1; mkPoint 4 4]);
    reflexivity.
Defined.

(** ** Animation duration *)

Lemma round_between (x : R) (lo hi : Z) :
  IZR lo <= x <= IZR hi -> IZR lo <= round x <= IZR hi.
Proof.
  intros [Hlo Hhi]. unfold round, roundZ.
  destruct (base_Int_part (x + 0.5)) as [Hle Hgt].
  split; apply IZR_le.
  - assert (H : (lo - 1 < Int_part (x + 0.5))%Z).
    { apply lt_IZR. rewrite minus_IZR. lra. }
    lia.
  - assert (H : (Int_part (x + 0.5) < hi + 1)%Z).
    { apply lt_IZR. rewrite plus_IZR. lra. }
    lia.
Qed.

(** The animation duration of a stroke is a whole number of
    milliseconds between 200 and 8000; a stroke of fewer than two points
    gets the minimum, 200. *)
Theorem calculateStrokeAnimationDuration_range (stroke : Stroke) :
  200 <= calculateStrokeAnimationDuration stroke <= 8000 /\
  (exists z, calculateStrokeAnimationDuration stroke = IZR z) /\
  ((List.length (st_points stroke) < 2)%nat ->
   calculateStrokeAnimationDuration stroke = 200).
Proof.
  unfold calculateStrokeAnimationDuration, MIN_STROKE_ANIMATION_MS,
    MAX_STROKE_ANIMATION_MS.
  destruct (List.length (st_points stroke) <? 2)%nat eqn:Hlen.
  - split; [lra|]. split; [exists 200%Z; reflexivity|]. reflexivity.
  - split; [|split].
    + apply (round_between _ 200 8000).
      unfold Rmin, Rmax. repeat destruct Rle_dec; lra.
    + eexists. reflexivity.
    + intros Hlt. apply Nat.ltb_ge in Hlen. lia.
Qed.

Lemma calculateStrokeAnimationDuration_range_witness :
  calculateStrokeAnimationDuration (strokeOf [mkPoint 3 4]) = 200.
Proof.
  apply (calculateStrokeAnimationDuration_range (strokeOf [mkPoint 3 4])).
  simpl. lia.
Defined.

(** ** Path simplification *)

Lemma farthestLoop_spec (first last : Point) (interior : list Point) :
  forall i maxDistance maxIndex d idx,
    farthestLoop first last i maxDistance maxIndex interior = (d, idx) ->
    (d = maxDistance /\ idx = maxIndex) \/
    (maxDistance < d /\ (i <= idx < i + List.length interior)%nat).
Proof.
  induction interior as [|p interior IH];
    intros i maxDistance maxIndex d idx Hloop; simpl in Hloop.
  - injection Hloop as <- <-. left. split; reflexivity.
  - destruct Rgt_dec as [Hgt | Hle].
    + apply IH in Hloop. simpl. right.
      destruct Hloop as [[-> ->] | [Hlt Hidx]]; split; try lra; lia.
    + apply IH in Hloop. simpl.
      destruct Hloop as [[-> ->] | [Hlt Hidx]];
        [left; split; reflexivity | right; split; [exact Hlt | lia]].
Qed.

Lemma last_app_nonempty {A : Type} (l1 l2 : list A) (d : A) :
  l2 <> [] -> List.last (l1 ++ l2) d = List.last l2 d.
Proof.
  intros Hne. induction l1 as [|a l1 IH]; [reflexivity|].
  simpl app. destruct (l1 ++ l2) as [|b l] eqn:Happ.
  - destruct l1; [simpl in Happ; contradiction | discriminate].
  - change (List.last (b :: l) d = List.last l2 d). exact IH.
Qed.

Lemma last_skipn {A : Type} (k : nat) (l : list A) (d : A) :
  (k < List.length l)%nat -> List.last (skipn k l) d = List.last l d.
Proof.
  intros Hk. rewrite <- (firstn_skipn k l) at 2.
  symmetry. apply last_app_nonempty.
  intros Hnil. apply (f_equal (@List.length A)) in Hnil.
  rewrite length_skipn in Hnil. simpl in Hnil. lia.
Qed.

Lemma removelast_length {A : Type} (l : list A) :
  List.length (removelast l) = (List.length l - 1)%nat.
Proof.
  destruct l as [|a l]; [reflexivity|].
  destruct (exists_last (l := a :: l)) as (l' & x & Heq); [discriminate|].
  rewrite Heq, removelast_last, length_app. simpl. lia.
Qed.

Lemma removelast_incl {A : Type} (l : list A) : incl (removelast l) l.
Proof.
  destruct l as [|a l]; [intros x []|].
  destruct (exists_last (l := a :: l)) as (l' & x & Heq); [discriminate|].
  rewrite Heq, removelast_last. apply incl_appl. apply incl_refl.
Qed.

Lemma removelast_hd {A : Type} (l : list A) (d : A) :
  (2 <= List.length l)%nat -> hd d (removelast l) = hd d l.
Proof.
  destruct l as [|a [|b l]]; simpl; intros Hlen; try lia. reflexivity.
Qed.

Lemma hd_skipn_last_firstn {A : Type} (k : nat) (l : list A) (d : A) :
  (k < List.length l)%nat ->
  hd d (skipn k l) = List.last (firstn (k + 1) l) d.
Proof.
  revert l. induction k as [|k IH]; intros l Hk.
  - destruct l as [|a l]; [simpl in Hk; lia|]. simpl.
    destruct l; reflexivity.
  - destruct l as [|a l]; [simpl in Hk; lia|].
    simpl in Hk. simpl skipn.
    rewrite (IH l) by lia.
    change (firstn (S k + 1) (a :: l)) with (a :: firstn (k + 1) l).
    rewrite last_cons_default.
    destruct l as [|b l]; [simpl in Hk; lia|].
    replace (k + 1)%nat with (S k) by lia.
    change (firstn (S k) (b :: l)) with (b :: firstn k l).
    rewrite !last_cons_default. reflexivity.
Qed.

(** What one call of [simplifyPath] returns for a non-negative tolerance
    once the recursion is given room for the length of its input. *)
Lemma simplifyPath_result (tolerance : R) :
  0 <= tolerance ->
  forall fuel points,
    (0 < fuel)%nat -> (List.length points <= fuel)%nat ->
    exists result,
      simplifyPath fuel points tolerance = Some result /\
      (forall d, hd d result = hd d points) /\
      (forall d, List.last result d = List.last points d) /\
      incl result points /\
      (List.length result <= List.length points)%nat /\
      ((2 <= List.length points)%nat -> (2 <= List.length result)%nat) /\
      ((List.length points <= 2)%nat -> result = points).
Proof.
  intros Htol. induction fuel as [|fuel IH]; intros points Hfuel Hlen;
    [lia|].
  simpl simplifyPath.
  destruct (List.length points <=? 2)%nat eqn:Hshort.
  { exists points. split; [reflexivity|].
    repeat split; try reflexivity; try lia. apply incl_refl. }
  apply Nat.leb_gt in Hshort.
  destruct points as [|first tail]; [simpl in Hshort; lia|].
  destruct (farthestLoop first (List.last (first :: tail) first) 1 0 0
              (removelast (tl (first :: tail))))
    as [maxDistance maxIndex] eqn:Hloop.
  destruct Rgt_dec as [Hfar | Hnear].
  - apply farthestLoop_spec in Hloop.
    destruct Hloop as [[-> _] | [_ Hidx]]; [lra|].
    rewrite removelast_length in Hidx. simpl tl in Hidx.
    simpl List.length in Hshort, Hlen, Hidx.
    assert (Hl1 : List.length (firstn (maxIndex + 1) (first :: tail))
                  = (maxIndex + 1)%nat)
      by (rewrite length_firstn; simpl List.length; lia).
    assert (Hl2 : List.length (skipn maxIndex (first :: tail))
                  = (S (List.length tail) - maxIndex)%nat)
      by (rewrite length_skipn; reflexivity).
    destruct (IH (firstn (maxIndex + 1) (first :: tail)))
      as (l & -> & Hhd1 & Hlast1 & Hincl1 & Hle1 & Hge1 & _); [lia | lia|].
    destruct (IH (skipn maxIndex (first :: tail)))
      as (r & -> & Hhd2 & Hlast2 & Hincl2 & Hle2 & Hge2 & _); [lia | lia|].
    specialize (Hge1 ltac:(lia)). specialize (Hge2 ltac:(lia)).
    exists (removelast l ++ r). split; [reflexivity|].
    assert (Hr : r <> []) by (destruct r; [simpl in Hge2; lia | discriminate]).
    assert (Hl : removelast l <> []).
    { intros Hnil. apply (f_equal (@List.length Point)) in Hnil.
      rewrite removelast_length in Hnil. simpl in Hnil. lia. }
    split; [|split; [|split; [|split; [|split]]]].
    + intros d. destruct (removelast l) as [|a l'] eqn:Hrl; [contradiction|].
      simpl. pose proof (removelast_hd l d Hge1) as Hh.
      rewrite Hrl in Hh. simpl in Hh. rewrite Hh, Hhd1.
      replace (maxIndex + 1)%nat with (S maxIndex) by lia. reflexivity.
    + intros d. rewrite last_app_nonempty by exact Hr.
      rewrite Hlast2. apply last_skipn. simpl. lia.
    + apply incl_app.
      * intros x Hx. apply removelast_incl in Hx. apply Hincl1 in Hx.
        rewrite <- (firstn_skipn (maxIndex + 1) (first :: tail)).
        apply in_or_app. left. exact Hx.
      * intros x Hx. apply Hincl2 in Hx.
        rewrite <- (firstn_skipn maxIndex (first :: tail)).
        apply in_or_app. right. exact Hx.
    + rewrite length_app, removelast_length. simpl List.length. lia.
    + intros _. rewrite length_app, removelast_length. lia.
    + simpl List.length. lia.
  - exists [first; List.last (first :: tail) first].
    split; [reflexivity|].
    split; [reflexivity|].
    split; [intros d; simpl; apply last_default_irrelevant|].
    split.
    + intros x [<- | [<- | []]]; [left; reflexivity|].
      rewrite last_cons_default. apply last_in_cons.
    + simpl List.length in *. repeat split; lia.
Qed.

(** With a tolerance that is not negative, [simplifyPath] returns within
    a recursion depth of the input's length; the simplified path starts
    and ends where the input does, holds only points of the input and no
    more of them, and an input of at most two points comes back as it
    is. *)
Theorem simplifyPath_keeps_endpoints (points : list Point) (tolerance : R)
    (fuel : nat) :
  0 <= tolerance -> (0 < fuel)%nat -> (List.length points <= fuel)%nat ->
  exists result,
    simplifyPath fuel points tolerance = Some result /\
    (forall d, hd d result = hd d points) /\
    (forall d, List.last result d = List.last points d) /\
    incl result points /\
    (List.length result <= List.length points)%nat /\
    ((List.length points <= 2)%nat -> result = points).
Proof.
  intros Htol Hfuel Hlen.
  destruct (simplifyPath_result tolerance Htol fuel points Hfuel Hlen)
    as (result & Hres & Hhd & Hlast & Hincl & Hle & _ & Hshort).
  exists result. repeat split; assumption.
Qed.

Lemma simplifyPath_keeps_endpoints_witness :
  exists result,
    simplifyPath 3 cornerPath 1 = Some result /\
    (forall d, hd d result = hd d cornerPath) /\
    (forall d, List.last result d = List.last cornerPath d).
Proof.
  destruct (simplifyPath_keeps_endpoints cornerPath 1 3)
    as (result & Hres & Hhd & Hlast & _); [lra | lia | simpl; lia|].
  exists result. repeat split; assumption.
Defined.

Lemma perpendicularDistance_on_chord (first last p : Point) :
  onChord first last p -> perpendicularDistance p first last = 0.
Proof.
  intros (t & ->). unfold perpendicularDistance, lerpPoint. simpl.
  destruct Req_dec_T as [Hzero | Hpos].
  - pose proof (Rle_0_sqr (p_x last - p_x first)) as Hx.
    pose proof (Rle_0_sqr (p_y last - p_y first)) as Hy.
    unfold Rsqr in Hx, Hy.
    assert (Hdx : (p_x last - p_x first) * (p_x last - p_x first) = 0) by lra.
    assert (Hdy : (p_y last - p_y first) * (p_y last - p_y first) = 0) by lra.
    apply Rmult_integral in Hdx. apply Rmult_integral in Hdy.
    assert (Hdx0 : p_x last - p_x first = 0) by (destruct Hdx; assumption).
    assert (Hdy0 : p_y last - p_y first = 0) by (destruct Hdy; assumption).
    rewrite Hdx0, Hdy0.
    replace ((p_x first + 0 * t - p_x first) * (p_x first + 0 * t - p_x first)
             + (p_y first + 0 * t - p_y first)
               * (p_y first + 0 * t - p_y first))
      with 0 by ring.
    apply sqrt_0.
  - replace ((p_y last - p_y first) * (p_x first + (p_x last - p_x first) * t)
             - (p_x last - p_x first)
               * (p_y first + (p_y last - p_y first) * t)
             + p_x last * p_y first - p_y last * p_x first)
      with 0 by ring.
    rewrite Rabs_R0. unfold Rdiv. ring.
Qed.

Lemma farthestLoop_flat (first last : Point) (interior : list Point) :
  (forall p, In p interior -> perpendicularDistance p first last = 0) ->
  forall i maxIndex,
    farthestLoop first last i 0 maxIndex interior = (0, maxIndex).
Proof.
  induction interior as [|p interior IH]; intros Hall i maxIndex;
    [reflexivity|].
  simpl.
  rewrite (Hall p) by (left; reflexivity).
  destruct Rgt_dec; [lra|].
  apply IH. intros q Hq. apply Hall. right. exact Hq.
Qed.

Lemma farthestLoop_within (first last : Point) (tolerance : R)
    (interior : list Point) :
  (forall p, In p interior -> perpendicularDistance p first last <= tolerance) ->
  forall i maxDistance maxIndex,
    maxDistance <= tolerance ->
    fst (farthestLoop first last i maxDistance maxIndex interior) <= tolerance.
Proof.
  induction interior as [|p interior IH];
    intros Hall i maxDistance maxIndex Hmax; [exact Hmax|].
  simpl.
  assert (Hrest : forall q, In q interior ->
                            perpendicularDistance q first last <= tolerance)
    by (intros q Hq; apply Hall; right; exact Hq).
  destruct Rgt_dec.
  - apply IH; [exact Hrest|]. apply Hall. left. reflexivity.
  - apply IH; [exact Hrest | exact Hmax].
Qed.

Lemma simplifyPath_step (fuel : nat) (points : list Point) (tolerance : R) :
  simplifyPath (S fuel) points tolerance
  = if (List.length points <=? 2)%nat then Some points
    else
      match points with
      | [] => Some []
      | first :: _ =>
          let last := List.last points first in
          let '(maxDistance, maxIndex) :=
            farthestLoop first last 1 0 0 (removelast (tl points)) in
          if Rgt_dec maxDistance tolerance then
            match simplifyPath fuel (firstn (maxIndex + 1) points) tolerance,
                  simplifyPath fuel (skipn maxIndex points) tolerance with
            | Some left_, Some right_ => Some (removelast left_ ++ right_)
            | _, _ => None
            end
          else Some [first; last]
      end.
Proof. reflexivity. Qed.

(** When the distance [perpendicularDistance] computes from the chord
    is at most the tolerance for every interior point, and the tolerance
    is 0 or more, [simplifyPath] returns exactly the two end points.
    When that computed distance is 0 for every interior point and the
    tolerance is negative, the function calls itself on its whole input
    again: no recursion depth yields a result. *)
Theorem simplifyPath_within_tolerance (first last : Point)
    (middle : list Point) (tolerance : R) (fuel : nat) :
  middle <> [] ->
  ((forall p, In p middle -> perpendicularDistance p first last <= tolerance) ->
   0 <= tolerance -> (0 < fuel)%nat ->
   simplifyPath fuel (first :: middle ++ [last]) tolerance
     = Some [first; last]) /\
  ((forall p, In p middle -> perpendicularDistance p first last = 0) ->
   tolerance < 0 ->
   simplifyPath fuel (first :: middle ++ [last]) tolerance = None).
Proof.
  intros Hne.
  assert (Hlong : (List.length (first :: middle ++ [last]) <=? 2)%nat = false).
  { apply Nat.leb_gt. simpl. rewrite length_app. simpl.
    destruct middle; [contradiction | simpl; lia]. }
  assert (Hinterior : removelast (tl (first :: middle ++ [last])) = middle)
    by (simpl tl; apply removelast_last).
  assert (Hlast : List.last (first :: middle ++ [last]) first = last)
    by (rewrite last_cons_default; apply last_last).
  split.
  - intros Hall Htol Hfuel. destruct fuel as [|fuel]; [lia|].
    rewrite simplifyPath_step, Hlong. cbv zeta.
    rewrite Hinterior, Hlast.
    pose proof (farthestLoop_within first last tolerance middle Hall
                  1%nat 0 0%nat Htol) as Hscan.
    destruct (farthestLoop first last 1 0 0 middle)
      as [maxDistance maxIndex].
    simpl in Hscan.
    destruct Rgt_dec; [lra | reflexivity].
  - intros Hall Htol. induction fuel as [|fuel IH]; [reflexivity|].
    rewrite simplifyPath_step, Hlong. cbv zeta.
    rewrite Hinterior, Hlast.
    rewrite (farthestLoop_flat first last middle Hall).
    destruct Rgt_dec; [|lra].
    change (skipn 0 (first :: middle ++ [last]))
      with (first :: middle ++ [last]).
    rewrite IH.
    destruct (simplifyPath fuel (firstn _ _) tolerance); reflexivity.
Qed.

Lemma simplifyPath_within_tolerance_witness :
  simplifyPath 1 straightPath 0.5 = Some [mkPoint 0 0; mkPoint 4 4] /\
  simplifyPath 1000 straightPath (-1) = None.
Proof.
  assert (Hne : [mkPoint 1 1] <> []) by discriminate.
  assert (Hflat : forall p, In p [mkPoint 1 1] ->
            perpendicularDistance p (mkPoint 0 0) (mkPoint 4 4) = 0).
  { intros p [<- | []]. apply perpendicularDistance_on_chord.
    exists (1 / 4). unfold lerpPoint. simpl. f_equal; field. }
  assert (Hnear : forall p, In p [mkPoint 1 1] ->
            perpendicularDistance p (mkPoint 0 0) (mkPoint 4 4) <= 0.5)
    by (intros p Hp; rewrite (Hflat p Hp); lra).
  split.
  - destruct (simplifyPath_within_tolerance (mkPoint 0 0) (mkPoint 4 4)
                [mkPoint 1 1] 0.5 1 Hne) as [Hkeep _].
    apply Hkeep; [exact Hnear | lra | lia].
  - destruct (simplifyPath_within_tolerance (mkPoint 0 0) (mkPoint 4 4)
                [mkPoint 1 1] (-1) 1000 Hne) as [_ Hloop].
    apply Hloop; [exact Hflat | lra].
Defined.

(* ================================================================== *)
(** * Further properties of the narration module *)
(* ================================================================== *)

Lemma contains_iff (startTime endTime time : R) :
  contains startTime endTime time = true <-> startTime <= time < endTime.
Proof.
  unfold contains. destruct Rge_dec; destruct Rlt_dec; simpl;
    split; intros H; try discriminate; try reflexivity; lra.
Qed.

(** Word highlighting only moves forward in time: every word of a
    segment appears once, in order, with its own text and index, and
    between two times [t <= t'] its state can only go from future to
    current to past.  A word is current exactly on its half-open
    interval and past from its end on. *)
Theorem getHighlightedWords_monotone (segment : NarrationSegmentConfig)
    (t t' : R) :
  t <= t' ->
  List.length (getHighlightedWords segment t)
    = List.length (seg_wordTimings segment) /\
  forall i wt,
    nth_error (seg_wordTimings segment) i = Some wt ->
    exists h h',
      nth_error (getHighlightedWords segment t) i = Some h /\
      nth_error (getHighlightedWords segment t') i = Some h' /\
      hw_word h = wt_word wt /\ hw_index h = wt_index wt /\
      (highlightRank (hw_state h) <= highlightRank (hw_state h'))%nat /\
      (hw_state h = current <-> wt_startTime wt <= t < wt_endTime wt) /\
      (hw_state h = past <-> wt_endTime wt <= t).
Proof.
  intros Hle. unfold getHighlightedWords.
  split; [apply length_map|].
  intros i wt Hi.
  eexists. eexists.
  split; [rewrite nth_error_map, Hi; reflexivity|].
  split; [rewrite nth_error_map, Hi; reflexivity|].
  simpl. split; [reflexivity|]. split; [reflexivity|].
  split; [|split].
  - repeat destruct Rge_dec; simpl; try lia; lra.
  - repeat destruct Rge_dec; split; intros H; try discriminate;
      try reflexivity; lra.
  - repeat destruct Rge_dec; split; intros H; try discriminate;
      try reflexivity; lra.
Qed.

Lemma getHighlightedWords_monotone_witness :
  exists h h',
    nth_error (getHighlightedWords twoWordSegment 1) 0 = Some h /\
    nth_error (getHighlightedWords twoWordSegment 3) 0 = Some h' /\
    (highlightRank (hw_state h) <= highlightRank (hw_state h'))%nat.
Proof.
  assert (Hle : 1 <= 3) by lra.
  destruct (getHighlightedWords_monotone twoWordSegment 1 3 Hle)
    as (_ & Hwords).
  destruct (Hwords 0%nat (mkWordTiming (lit "ab") 0 2 0) eq_refl)
    as (h & h' & Hh & Hh' & _ & _ & Hrank & _).
  exists h, h'. repeat split; assumption.
Defined.

(** [findWordAtTime] agrees with the highlighting: the word it returns
    is a word of the segment whose half-open interval holds the time and
    which [getHighlightedWords] marks current, and it returns nothing
    exactly when no word is marked current. *)
Theorem findWordAtTime_is_current (segment : NarrationSegmentConfig)
    (time : R) :
  (forall w, findWordAtTime segment time = Some w ->
     In w (seg_wordTimings segment) /\
     wt_startTime w <= time < wt_endTime w /\
     In {| hw_word := wt_word w; hw_index := wt_index w;
           hw_state := current |}
        (getHighlightedWords segment time)) /\
  (findWordAtTime segment time = None <->
   forall h, In h (getHighlightedWords segment time) ->
             hw_state h <> current).
Proof.
  unfold findWordAtTime, getHighlightedWords. split.
  - intros w Hfind. apply find_some in Hfind. destruct Hfind as [Hin Hc].
    apply contains_iff in Hc.
    split; [exact Hin|]. split; [exact Hc|].
    apply in_map_iff. exists w. split; [|exact Hin].
    repeat destruct Rge_dec; try reflexivity; lra.
  - split.
    + intros Hnone h Hh. apply in_map_iff in Hh.
      destruct Hh as (w & <- & Hw). simpl.
      pose proof (find_none _ _ Hnone w Hw) as Hc. simpl in Hc.
      assert (Hnot : ~ (wt_startTime w <= time < wt_endTime w)).
      { intros Hin. apply contains_iff in Hin. congruence. }
      repeat destruct Rge_dec; try discriminate. lra.
    + intros Hall.
      destruct (find _ (seg_wordTimings segment)) as [w|] eqn:Hfind;
        [|reflexivity].
      exfalso. apply find_some in Hfind. destruct Hfind as [Hin Hc].
      apply contains_iff in Hc.
      apply (Hall {| hw_word := wt_word w; hw_index := wt_index w;
                     hw_state := current |}); [|reflexivity].
      apply in_map_iff. exists w. split; [|exact Hin].
      repeat destruct Rge_dec; try reflexivity; lra.
Qed.

Lemma findWordAtTime_is_current_witness :
  In (mkWordTiming (lit "cd") 2 4 1) (seg_wordTimings twoWordSegment) /\
  2 <= 3 < 4.
Proof.
  destruct (findWordAtTime_is_current twoWordSegment 3) as [Hfound _].
  destruct (Hfound (mkWordTiming (lit "cd") 2 4 1)) as (Hin & Hrange & _).
  - unfold findWordAtTime, contains. simpl.
    repeat (destruct Rge_dec; destruct Rlt_dec; simpl; try lra).
    reflexivity.
  - split; [exact Hin | exact Hrange].
Defined.

Lemma narration_clamp01_range (v : R) : 0 <= Narration.clamp01 v <= 1.
Proof.
  unfold Narration.clamp01, Rmin, Rmax. repeat destruct Rle_dec; lra.
Qed.

(** Segment and word progress always lie in [[0, 1]].  The progress
    through a segment of positive duration is 0 up to its start, the
    elapsed share inside it and 1 from its end on; it is 0 for a segment
    of no duration, and word progress is 0 when no word is being
    spoken. *)
Theorem narration_progress_range (segment : NarrationSegmentConfig)
    (time : R) :
  0 <= calculateSegmentProgress segment time <= 1 /\
  0 <= calculateWordProgress segment time <= 1 /\
  (seg_endTime segment <= seg_startTime segment ->
   calculateSegmentProgress segment time = 0) /\
  (seg_startTime segment < seg_endTime segment ->
   (time <= seg_startTime segment ->
    calculateSegmentProgress segment time = 0) /\
   (seg_endTime segment <= time ->
    calculateSegmentProgress segment time = 1) /\
   (seg_startTime segment <= time <= seg_endTime segment ->
    calculateSegmentProgress segment time
    = (time - seg_startTime segment)
      / (seg_endTime segment - seg_startTime segment))) /\
  (findWordAtTime segment time = None ->
   calculateWordProgress segment time = 0).
Proof.
  unfold calculateSegmentProgress, calculateWordProgress.
  split; [|split; [|split; [|split]]].
  - destruct Rle_dec; [lra | apply narration_clamp01_range].
  - destruct (findWordAtTime segment time); [|lra].
    destruct Rle_dec; [lra | apply narration_clamp01_range].
  - intros Hle. destruct Rle_dec; [reflexivity | lra].
  - intros Hpos. destruct Rle_dec; [lra|].
    set (total := seg_endTime segment - seg_startTime segment) in *.
    assert (Htotal : 0 < total) by (unfold total; lra).
    assert (Hinv : 0 < / total) by (apply Rinv_0_lt_compat; exact Htotal).
    split; [|split].
    + intros Hbefore.
      assert (Hneg : (time - seg_startTime segment) / total <= 0)
        by (unfold Rdiv; nra).
      unfold Narration.clamp01, Rmin, Rmax. repeat destruct Rle_dec; lra.
    + intros Hafter.
      assert (Hone : 1 <= (time - seg_startTime segment) / total).
      { apply Rmult_le_reg_r with total; [exact Htotal|].
        unfold Rdiv. rewrite Rmult_assoc, Rinv_l by lra.
        unfold total. lra. }
      unfold Narration.clamp01, Rmin, Rmax. repeat destruct Rle_dec; lra.
    + intros Hin.
      assert (Hlow : 0 <= (time - seg_startTime segment) / total)
        by (unfold Rdiv; nra).
      assert (Hhigh : (time - seg_startTime segment) / total <= 1).
      { apply Rmult_le_reg_r with total; [exact Htotal|].
        unfold Rdiv. rewrite Rmult_assoc, Rinv_l by lra.
        unfold total. lra. }
      unfold Narration.clamp01, Rmin, Rmax. repeat destruct Rle_dec; lra.
  - intros ->. reflexivity.
Qed.

Lemma narration_progress_range_witness :
  calculateSegmentProgress twoWordSegment 5 = 1 /\
  calculateSegmentProgress twoWordSegment 1 = (1 - 0) / (4 - 0).
Proof.
  destruct (narration_progress_range twoWordSegment 5) as (_ & _ & _ & H5 & _).
  destruct (narration_progress_range twoWordSegment 1) as (_ & _ & _ & H1 & _).
  split.
  - apply H5; simpl; lra.
  - apply H1; simpl; lra.
Defined.

(** ** Visible narration text *)

Lemma visibleParts_before (time : R) (s : NarrationSegmentConfig) :
  time < seg_startTime s -> time < seg_endTime s -> visibleParts time s = [].
Proof.
  intros Hs He. unfold visibleParts.
  destruct Rge_dec; [lra|]. destruct Rge_dec; [lra | reflexivity].
Qed.

Lemma visibleParts_after (time : R) (s : NarrationSegmentConfig) :
  seg_endTime s <= time -> visibleParts time s = [seg_text s].
Proof.
  intros He. unfold visibleParts. destruct Rge_dec; [reflexivity | lra].
Qed.

(** [getNarrationTextAtTime] shows nothing before the first segment
    starts and the texts of all segments, joined by single spaces, once
    every segment has ended. *)
Theorem getNarrationTextAtTime_edges (segments : list NarrationSegmentConfig)
    (time : R) :
  ((forall s, In s segments ->
      time < seg_startTime s /\ time < seg_endTime s) ->
   getNarrationTextAtTime segments time = []) /\
  ((forall s, In s segments -> seg_endTime s <= time) ->
   getNarrationTextAtTime segments time
   = join (lit " ") (map seg_text segments)).
Proof.
  unfold getNarrationTextAtTime. split; intros Hall.
  - replace (flat_map (visibleParts time) segments) with (@nil jsString);
      [reflexivity|].
    induction segments as [|s segments IH]; [reflexivity|].
    simpl. rewrite visibleParts_before by (apply Hall; left; reflexivity).
    simpl. apply IH. intros s' Hs'. apply Hall. right. exact Hs'.
  - f_equal.
    induction segments as [|s segments IH]; [reflexivity|].
    simpl. rewrite visibleParts_after by (apply Hall; left; reflexivity).
    simpl. f_equal. apply IH. intros s' Hs'. apply Hall. right. exact Hs'.
Qed.

Lemma getNarrationTextAtTime_edges_witness :
  getNarrationTextAtTime [longSegment; nestedSegment] 10
  = join (lit " ") (map seg_text [longSegment; nestedSegment]).
Proof.
  apply (getNarrationTextAtTime_edges [longSegment; nestedSegment] 10).
  intros s [<- | [<- | []]]; simpl; lra.
Defined.

(** ** Laying out a narration *)

Lemma dropWhiteSpace_nil (text : jsString) :
  dropWhiteSpace text = [] <-> forall c, In c text -> isWhiteSpace c = true.
Proof.
  induction text as [|c text IH]; simpl.
  - split; [intros _ c [] | reflexivity].
  - destruct (isWhiteSpace c) eqn:Hc.
    + rewrite IH. split.
      * intros Hall c' [<- | Hin]; [exact Hc | apply Hall; exact Hin].
      * intros Hall c' Hin. apply Hall. right. exact Hin.
    + split; [discriminate|].
      intros Hall. specialize (Hall c (or_introl eq_refl)). congruence.
Qed.

Lemma dropWhiteSpace_head (text : jsString) :
  dropWhiteSpace text <> [] ->
  exists c rest, dropWhiteSpace text = c :: rest /\ isWhiteSpace c = false.
Proof.
  induction text as [|c text IH]; simpl; [contradiction|].
  destruct (isWhiteSpace c) eqn:Hc; [exact IH|].
  intros _. exists c, text. split; [reflexivity | exact Hc].
Qed.

Lemma trim_nil (text : jsString) :
  trim text = [] <-> forall c, In c text -> isWhiteSpace c = true.
Proof.
  unfold trim. split.
  - intros Hnil.
    assert (Hrev : dropWhiteSpace (rev (dropWhiteSpace text)) = []).
    { rewrite <- (rev_involutive (dropWhiteSpace (rev _))), Hnil.
      reflexivity. }
    pose proof (proj1 (dropWhiteSpace_nil _) Hrev) as Hall.
    apply dropWhiteSpace_nil.
    destruct (dropWhiteSpace text) as [|c rest] eqn:Hdrop; [reflexivity|].
    exfalso.
    assert (Hne : dropWhiteSpace text <> []) by (rewrite Hdrop; discriminate).
    destruct (dropWhiteSpace_head text Hne) as (c' & rest' & Heq & Hc').
    rewrite Hdrop in Heq. injection Heq as -> ->.
    rewrite (Hall c') in Hc'; [discriminate|].
    apply in_rev. rewrite rev_involutive. left. reflexivity.
  - intros Hall.
    rewrite (proj2 (dropWhiteSpace_nil text) Hall). reflexivity.
Qed.

Lemma blank_or_not (text : jsString) :
  (forall c, In c text -> isWhiteSpace c = true) \/ nonBlank text.
Proof.
  induction text as [|c text IH].
  - left. intros c [].
  - destruct (isWhiteSpace c) eqn:Hc.
    + destruct IH as [Hall | (c' & Hin & Hc')].
      * left. intros c' [<- | Hin]; [exact Hc | apply Hall; exact Hin].
      * right. exists c'. split; [right; exact Hin | exact Hc'].
    + right. exists c. split; [left; reflexivity | exact Hc].
Qed.

Lemma isBlank_iff (text : jsString) : isBlank text = false <-> nonBlank text.
Proof.
  unfold isBlank. rewrite Nat.eqb_neq. split.
  - intros Hlen. destruct (blank_or_not text) as [Hall | Hnb]; [|exact Hnb].
    exfalso. apply Hlen. rewrite (proj2 (trim_nil text) Hall). reflexivity.
  - intros (c & Hin & Hc) Hlen.
    apply length_zero_iff_nil in Hlen.
    rewrite (proj1 (trim_nil text) Hlen c Hin) in Hc. discriminate.
Qed.

Lemma estimateSpeechDuration_nonneg (text : jsString) :
  0 <= estimateSpeechDuration text.
Proof.
  unfold estimateSpeechDuration, AVERAGE_WORDS_PER_MINUTE.
  destruct (List.length (wordsOf text) =? 0)%nat; [lra|].
  pose proof (pos_INR (List.length (wordsOf text))). lra.
Qed.

Lemma buildLoop_layout (ids : nat -> jsString) (gapBetween : R)
    (texts : list jsString) :
  forall segments cursor,
  exists built,
    buildLoop ids gapBetween segments cursor texts = segments ++ built /\
    map seg_text built = filter (fun t => negb (isBlank t)) texts /\
    laidOutFrom gapBetween cursor built /\
    (forall k s, nth_error built k = Some s ->
       seg_id s = ids (List.length segments + k)%nat /\
       seg_audioUrl s = None /\
       seg_wordTimings s
       = estimateWordTimings (seg_text s) (seg_startTime s) (seg_endTime s)).
Proof.
  induction texts as [|txt texts IH]; intros segments cursor.
  - exists []. simpl. rewrite app_nil_r.
    repeat split; try reflexivity; destruct k; discriminate.
  - simpl buildLoop. simpl filter. fold (isBlank txt).
    destruct (isBlank txt) eqn:Hblank.
    + simpl. apply IH.
    + destruct (IH (segments
                    ++ [createNarrationSegment (ids (List.length segments))
                          txt cursor (estimateSpeechDuration txt) None])
                   (cursor + (estimateSpeechDuration txt + gapBetween)))
        as (built & Hloop & Htexts & Hlaid & Hfields).
      exists (createNarrationSegment (ids (List.length segments)) txt cursor
                (estimateSpeechDuration txt) None :: built).
      split; [rewrite Hloop, <- app_assoc; reflexivity|].
      split; [simpl; rewrite Htexts; reflexivity|].
      split; [simpl; repeat split; exact Hlaid|].
      intros k s Hk. destruct k as [|k].
      * simpl in Hk. injection Hk as <-. simpl.
        rewrite Nat.add_0_r. repeat split.
      * simpl in Hk. destruct (Hfields k s Hk) as (Hid & Hrest).
        split; [|exact Hrest].
        rewrite Hid, length_app. simpl. f_equal. lia.
Qed.

Lemma laidOutFrom_nth (gapBetween : R)
    (segments : list NarrationSegmentConfig) :
  forall cursor,
    laidOutFrom gapBetween cursor segments ->
    (forall s, nth_error segments 0 = Some s -> seg_startTime s = cursor) /\
    (forall k a b, nth_error segments k = Some a ->
                   nth_error segments (S k) = Some b ->
                   seg_startTime b
                   = seg_startTime a
                     + (estimateSpeechDuration (seg_text a) + gapBetween)) /\
    (forall s, In s segments ->
       seg_endTime s = seg_startTime s + estimateSpeechDuration (seg_text s)).
Proof.
  induction segments as [|s segments IH]; intros cursor Hlaid.
  - repeat split; intros; try destruct k; try discriminate. destruct H.
  - simpl in Hlaid. destruct Hlaid as (Hstart & Hend & Hrest).
    destruct (IH _ Hrest) as (Hfirst & Hchain & Hdur).
    split; [intros s' Hs'; simpl in Hs'; injection Hs' as <-; exact Hstart|].
    split.
    + intros k a b Ha Hb. destruct k as [|k].
      * simpl in Ha, Hb. injection Ha as <-.
        rewrite (Hfirst b Hb), Hstart. reflexivity.
      * simpl in Ha, Hb. apply (Hchain k a b); assumption.
    + intros s' [<- | Hs']; [rewrite Hend, Hstart; reflexivity|].
      apply Hdur. exact Hs'.
Qed.

(** [buildNarrationTimeline] makes one segment per non-blank text, in
    order, with no audio.  The first starts at [startOffset]; each
    later one starts at the start of the one before it plus the sum of
    that segment's estimated duration and [gapBetween], and with a gap
    that is not negative it does not start before the other ends.  Each
    segment ends at its start plus the estimated speech duration of its
    text, the number of words divided by 150 and multiplied by 60, which
    is positive. *)
Theorem buildNarrationTimeline_layout (ids : nat -> jsString)
    (texts : list jsString) (startOffset gapBetween : R) :
  let segments := buildNarrationTimeline ids texts startOffset gapBetween in
  map seg_text segments = filter (fun t => negb (isBlank t)) texts /\
  (forall s, nth_error segments 0 = Some s -> seg_startTime s = startOffset) /\
  (forall k a b, nth_error segments k = Some a ->
                 nth_error segments (S k) = Some b ->
     seg_startTime b
     = seg_startTime a + (estimateSpeechDuration (seg_text a) + gapBetween) /\
     (0 <= gapBetween -> seg_endTime a <= seg_startTime b)) /\
  (forall k s, nth_error segments k = Some s ->
     seg_id s = ids k /\
     seg_audioUrl s = None /\
     nonBlank (seg_text s) /\
     seg_endTime s = seg_startTime s + estimateSpeechDuration (seg_text s) /\
     estimateSpeechDuration (seg_text s)
     = INR (List.length (wordsOf (seg_text s))) / 150 * 60 /\
     0 < estimateSpeechDuration (seg_text s) /\
     seg_startTime s <= seg_endTime s).
Proof.
  cbv zeta. unfold buildNarrationTimeline.
  destruct (buildLoop_layout ids gapBetween texts [] startOffset)
    as (built & -> & Htexts & Hlaid & Hfields).
  simpl app.
  destruct (laidOutFrom_nth gapBetween built startOffset Hlaid)
    as (Hfirst & Hchain & Hdur).
  split; [exact Htexts|]. split; [exact Hfirst|].
  split.
  { intros k a b Ha Hb. split; [exact (Hchain k a b Ha Hb)|].
    intros Hgap. rewrite (Hchain k a b Ha Hb).
    rewrite (Hdur a) by (eapply nth_error_In; exact Ha). lra. }
  intros k s Hk. destruct (Hfields k s Hk) as (Hid & Haudio & _).
  assert (Hin : In s built) by (eapply nth_error_In; exact Hk).
  assert (Hnb : nonBlank (seg_text s)).
  { apply isBlank_iff.
    assert (Htext : In (seg_text s) (map seg_text built))
      by (apply in_map; exact Hin).
    rewrite Htexts in Htext. apply filter_In in Htext.
    destruct Htext as [_ Hb]. destruct (isBlank (seg_text s));
      [discriminate | reflexivity]. }
  pose proof (wordsOf_nonBlank (seg_text s) Hnb) as Hwords.
  assert (Hcount : (List.length (wordsOf (seg_text s)) =? 0)%nat = false).
  { apply Nat.eqb_neq. intros Hzero.
    apply length_zero_iff_nil in Hzero. contradiction. }
  assert (Hvalue : estimateSpeechDuration (seg_text s)
                   = INR (List.length (wordsOf (seg_text s))) / 150 * 60).
  { unfold estimateSpeechDuration, AVERAGE_WORDS_PER_MINUTE.
    rewrite Hcount. reflexivity. }
  assert (Hpos : 0 < INR (List.length (wordsOf (seg_text s)))).
  { apply lt_0_INR. apply Nat.eqb_neq in Hcount. lia. }
  split; [exact Hid|]. split; [exact Haudio|]. split; [exact Hnb|].
  split; [exact (Hdur s Hin)|]. split; [exact Hvalue|].
  rewrite (Hdur s Hin), Hvalue. split; lra.
Qed.

Lemma buildNarrationTimeline_layout_witness :
  map seg_text (buildNarrationTimeline sampleIds sampleTexts 1 0.25)
  = filter (fun t => negb (isBlank t)) sampleTexts.
Proof.
  apply (buildNarrationTimeline_layout sampleIds sampleTexts 1 0.25).
Defined.

(** ** Merging ordered segments *)

Lemma mergeLoop_apart (ids : nat -> jsString) (gapThreshold : R)
    (rest : list NarrationSegmentConfig) :
  forall merged g,
    (forall k a b, nth_error (g :: rest) k = Some a ->
                   nth_error (g :: rest) (S k) = Some b ->
                   gapThreshold < seg_startTime b - seg_endTime a) ->
    mergeLoop ids gapThreshold merged (mkGroup g []) rest
    = merged ++ g :: rest.
Proof.
  induction rest as [|curr rest IH]; intros merged g Hgaps.
  - reflexivity.
  - simpl mergeLoop. unfold lastOf. simpl.
    pose proof (Hgaps 0%nat g curr eq_refl eq_refl) as Hfar.
    destruct Rle_dec as [Hnear | _]; [lra|].
    rewrite IH.
    + rewrite <- app_assoc. reflexivity.
    + intros k a b Ha Hb. apply (Hgaps (S k) a b); assumption.
Qed.

Lemma mergeLoop_close (ids : nat -> jsString) (gapThreshold : R)
    (rest : list NarrationSegmentConfig) :
  forall merged group,
    (forall k a b, nth_error (lastOf group :: rest) k = Some a ->
                   nth_error (lastOf group :: rest) (S k) = Some b ->
                   seg_startTime b - seg_endTime a <= gapThreshold) ->
    exists whole,
      mergeLoop ids gapThreshold merged group rest = merged ++ [whole].
Proof.
  induction rest as [|curr rest IH]; intros merged group Hgaps.
  - eexists. reflexivity.
  - simpl mergeLoop.
    pose proof (Hgaps 0%nat (lastOf group) curr eq_refl eq_refl) as Hnear.
    destruct Rle_dec as [_ | Hfar]; [|contradiction].
    apply IH.
    assert (Hlast : lastOf (push group curr) = curr)
      by (unfold lastOf, push; simpl; apply last_last).
    rewrite Hlast.
    intros k a b Ha Hb. apply (Hgaps (S k) a b); assumption.
Qed.

(** Merging segments that are already in start order, judged by the
    gaps the code computes between consecutive segments (the start of
    one minus the end of the one before): when every gap exceeds the
    threshold the segments come back as they are, and when no gap
    exceeds it they all collapse into a single segment. *)
Theorem mergeAdjacentSegments_by_gaps (ids : nat -> jsString)
    (segments : list NarrationSegmentConfig) (gapThreshold : R) :
  StronglySorted (fun a b => seg_startTime a <= seg_startTime b) segments ->
  ((forall k a b, nth_error segments k = Some a ->
                  nth_error segments (S k) = Some b ->
                  gapThreshold < seg_startTime b - seg_endTime a) ->
   mergeAdjacentSegments ids segments gapThreshold = segments) /\
  ((forall k a b, nth_error segments k = Some a ->
                  nth_error segments (S k) = Some b ->
                  seg_startTime b - seg_endTime a <= gapThreshold) ->
   segments <> [] ->
   exists whole, mergeAdjacentSegments ids segments gapThreshold = [whole]).
Proof.
  intros Hordered.
  assert (Hsorted : StronglySorted (fun a b => compareSegments a b <= 0)
                                   segments).
  { apply StronglySorted_impl
      with (P := fun a b => seg_startTime a <= seg_startTime b);
      [|exact Hordered].
    intros a b Hab. unfold compareSegments. lra. }
  unfold mergeAdjacentSegments.
  rewrite (sort_sorted_id compareSegments segments Hsorted).
  split.
  - intros Hgaps. destruct segments as [|first rest]; [reflexivity|].
    simpl Nat.eqb. cbv iota.
    rewrite (mergeLoop_apart ids gapThreshold rest [] first Hgaps).
    reflexivity.
  - intros Hgaps Hne. destruct segments as [|first rest]; [contradiction|].
    simpl Nat.eqb. cbv iota.
    destruct (mergeLoop_close ids gapThreshold rest [] (mkGroup first []))
      as (whole & ->).
    + exact Hgaps.
    + exists whole. reflexivity.
Qed.

Lemma mergeAdjacentSegments_by_gaps_witness :
  mergeAdjacentSegments sampleIds [longSegment; lateSegment] 0.3
  = [longSegment; lateSegment] /\
  exists whole,
    mergeAdjacentSegments sampleIds [longSegment; nestedSegment] 0.3 = [whole].
Proof.
  split.
  - assert (Hordered : StronglySorted
              (fun a b => seg_startTime a <= seg_startTime b)
              [longSegment; lateSegment]).
    { repeat constructor. simpl. lra. }
    destruct (mergeAdjacentSegments_by_gaps sampleIds
                [longSegment; lateSegment] 0.3 Hordered) as [Hapart _].
    apply Hapart.
    intros k a b Ha Hb.
    destruct k as [|[|k]]; simpl in Ha, Hb; try discriminate.
    injection Ha as <-. injection Hb as <-. simpl. lra.
  - assert (Hordered : StronglySorted
              (fun a b => seg_startTime a <= seg_startTime b)
              [longSegment; nestedSegment]).
    { repeat constructor. simpl. lra. }
    destruct (mergeAdjacentSegments_by_gaps sampleIds
                [longSegment; nestedSegment] 0.3 Hordered) as [_ Hclose].
    apply Hclose; [|discriminate].
    intros k a b Ha Hb.
    destruct k as [|[|k]]; simpl in Ha, Hb; try discriminate.
    injection Ha as <-. injection Hb as <-. simpl. lra.
Defined.

(** ** What merging keeps *)

Lemma mapIndexFrom_nth_inv {A B : Type} (f : A -> nat -> B) (l : list A) :
  forall i n b,
    nth_error (mapIndexFrom f i l) n = Some b ->
    exists a, nth_error l n = Some a /\ b = f a (i + n)%nat.
Proof.
  induction l as [|a l IH]; intros i n b Hn.
  - destruct n; discriminate.
  - destruct n as [|n]; simpl in Hn.
    + injection Hn as <-. exists a. split; [reflexivity|].
      rewrite Nat.add_0_r. reflexivity.
    + destruct (IH (S i) n b Hn) as (a' & Ha' & ->).
      exists a'. split; [exact Ha'|]. f_equal. lia.
Qed.

Lemma collapseGroup_span (newId : jsString) (group : Group) :
  seg_startTime (collapseGroup newId group) = seg_startTime (g_first group) /\
  seg_endTime (collapseGroup newId group) = seg_endTime (lastOf group) /\
  map timingContent (seg_wordTimings (collapseGroup newId group))
  = map timingContent (flat_map seg_wordTimings (members group)).
Proof.
  unfold collapseGroup.
  destruct (g_pushed group) as [|second others] eqn:Hpushed.
  - unfold lastOf, members. rewrite Hpushed. simpl.
    rewrite app_nil_r. repeat split.
  - split; [reflexivity|]. split; [reflexivity|].
    apply (combineTimings_content (members group)).
Qed.

(** The loop starts a new group only at a gap above the threshold: the
    groups it forms are separated by more than the threshold. *)
Lemma mergeLoop_separated (ids : nat -> jsString) (gapThreshold : R)
    (rest : list NarrationSegmentConfig) :
  forall (merged : list NarrationSegmentConfig) (group : Group),
  exists g0 gs,
    g_first g0 = g_first group /\
    concat (map members (g0 :: gs)) = members group ++ rest /\
    mergeLoop ids gapThreshold merged group rest
      = merged ++ mapIndexFrom (collapseAt ids) (List.length merged) (g0 :: gs) /\
    (forall i a b, nth_error (g0 :: gs) i = Some a ->
                   nth_error (g0 :: gs) (S i) = Some b ->
                   seg_startTime (g_first b) - seg_endTime (lastOf a)
                     > gapThreshold).
Proof.
  induction rest as [|curr rest IH]; intros merged group.
  - exists group, []. split; [reflexivity|]. split; [reflexivity|].
    split; [reflexivity|].
    intros i a b _ Hb. destruct i; discriminate.
  - simpl mergeLoop. destruct Rle_dec as [Hnear | Hfar].
    + destruct (IH merged (push group curr))
        as (g0 & gs & Hfirst & Hcat & Hloop & Hsep).
      exists g0, gs. split; [exact Hfirst|]. split; [|split; assumption].
      rewrite Hcat. unfold members, push. simpl.
      rewrite <- app_assoc. reflexivity.
    + destruct (IH (merged ++ [collapseGroup (ids (List.length merged)) group])
                   (mkGroup curr []))
        as (g0 & gs & Hfirst & Hcat & Hloop & Hsep).
      exists group, (g0 :: gs). split; [reflexivity|].
      split; [|split].
      * change (concat (map members (group :: g0 :: gs)))
          with (members group ++ concat (map members (g0 :: gs))).
        rewrite Hcat. reflexivity.
      * rewrite Hloop. rewrite <- app_assoc. simpl.
        rewrite length_app. simpl.
        replace (List.length merged + 1)%nat with (S (List.length merged))
          by lia.
        reflexivity.
      * intros i a b Ha Hb. destruct i as [|i].
        -- simpl in Ha, Hb. injection Ha as <-. injection Hb as <-.
           rewrite Hfirst. simpl. apply Rnot_le_gt. exact Hfar.
        -- apply (Hsep i a b); assumption.
Qed.

Lemma groups_not_longer (groups : list Group) :
  (List.length groups <= List.length (concat (map members groups)))%nat.
Proof.
  induction groups as [|g groups IH]; [simpl; lia|].
  change (concat (map members (g :: groups)))
    with ((g_first g :: g_pushed g) ++ concat (map members groups)).
  rewrite length_app. simpl. lia.
Qed.

Lemma collapsed_timings (ids : nat -> jsString) (groups : list Group) :
  forall i,
    map timingContent
        (flat_map seg_wordTimings (mapIndexFrom (collapseAt ids) i groups))
    = map timingContent
          (flat_map seg_wordTimings (concat (map members groups))).
Proof.
  induction groups as [|g groups IH]; intros i; [reflexivity|].
  change (mapIndexFrom (collapseAt ids) i (g :: groups))
    with (collapseGroup (ids i) g :: mapIndexFrom (collapseAt ids) (S i) groups).
  change (concat (map members (g :: groups)))
    with (members g ++ concat (map members groups)).
  rewrite flat_map_app. simpl flat_map at 1. rewrite !map_app, IH.
  f_equal. apply collapseGroup_span.
Qed.

(** Merging loses nothing and separates what it returns: the word
    timings of the output, in order, are those of the input sorted by
    start time (only their indices are renumbered), the output is never
    longer than the input, and the gap between two consecutive output
    segments always exceeds the threshold. *)
Theorem mergeAdjacentSegments_conserves (ids : nat -> jsString)
    (segments : list NarrationSegmentConfig) (gapThreshold : R) :
  let out := mergeAdjacentSegments ids segments gapThreshold in
  (List.length out <= List.length segments)%nat /\
  (out = [] <-> segments = []) /\
  map timingContent (flat_map seg_wordTimings out)
  = map timingContent
        (flat_map seg_wordTimings (Js.sort compareSegments segments)) /\
  (forall i a b, nth_error out i = Some a -> nth_error out (S i) = Some b ->
                 seg_startTime b - seg_endTime a > gapThreshold).
Proof.
  cbv zeta. unfold mergeAdjacentSegments.
  destruct segments as [|s0 segments].
  { simpl. split; [lia|]. split; [tauto|]. split; [reflexivity|].
    intros i a b Ha. destruct i; discriminate. }
  simpl Nat.eqb. cbv iota.
  pose proof (sort_length compareSegments (s0 :: segments)) as Hlen.
  destruct (Js.sort compareSegments (s0 :: segments)) as [|first rest]
    eqn:Hsorted; [simpl in Hlen; discriminate|].
  destruct (mergeLoop_separated ids gapThreshold rest [] (mkGroup first []))
    as (g0 & gs & _ & Hcat & -> & Hsep).
  rewrite app_nil_l.
  change (List.length (@nil NarrationSegmentConfig)) with 0%nat.
  change (members (mkGroup first []) ++ rest) with (first :: rest) in Hcat.
  split; [|split; [|split]].
  - rewrite mapIndexFrom_length, <- Hlen, <- Hcat. apply groups_not_longer.
  - split; intros H; discriminate.
  - rewrite collapsed_timings, Hcat. reflexivity.
  - intros i a b Ha Hb.
    apply mapIndexFrom_nth_inv in Ha. destruct Ha as (ga & Hga & ->).
    apply mapIndexFrom_nth_inv in Hb. destruct Hb as (gb & Hgb & ->).
    unfold collapseAt.
    destruct (collapseGroup_span (ids (0 + i)%nat) ga) as (_ & -> & _).
    destruct (collapseGroup_span (ids (0 + S i)%nat) gb) as (-> & _ & _).
    apply (Hsep i ga gb); assumption.
Qed.

Lemma mergeAdjacentSegments_conserves_witness :
  mergeAdjacentSegments sampleIds [longSegment; nestedSegment] 0.3 <> [].
Proof.
  destruct (mergeAdjacentSegments_conserves sampleIds
              [longSegment; nestedSegment] 0.3) as (_ & Hempty & _).
  intros Hnil. apply Hempty in Hnil. discriminate.
Defined.

(* ================================================================== *)
(** * Properties of the playback controller *)
(* ================================================================== *)

(** ** The pure transitions keep a state well formed *)

Lemma wellFormed_initial : wellFormed createInitialEngineState.
Proof.
  unfold wellFormed, playingInvariant, withinBounds,
    MIN_PLAYBACK_RATE, MAX_PLAYBACK_RATE. simpl.
  split; [split; discriminate | lra].
Qed.

Lemma wellFormed_advance (s : EngineState) (deltaMs : R) :
  wellFormed s -> wellFormed (advanceEngineState s deltaMs).
Proof.
  unfold wellFormed, playingInvariant, withinBounds.
  intros [Hinv [Ht Hr]]. unfold advanceEngineState.
  destruct (negb (isPlaying s) || _) eqn:Hcase; [repeat split; tauto|].
  apply orb_false_iff in Hcase. destruct Hcase as [Hp Hs].
  apply negb_false_iff in Hp. apply negb_false_iff in Hs.
  apply EngineStatus_eqb_eq in Hs.
  destruct Rge_dec; simpl.
  - split; [split; discriminate|]. split; [lra | exact Hr].
  - split; [exact Hinv|]. split; [|exact Hr].
    unfold Rmax. destruct Rle_dec; lra.
Qed.

Lemma wellFormed_pause (s : EngineState) :
  wellFormed s -> wellFormed (pauseEngine s).
Proof.
  unfold wellFormed, playingInvariant, withinBounds.
  intros [Hinv Hb]. unfold pauseEngine.
  destruct (negb (isPlaying s)); simpl; [split; assumption|].
  split; [split; discriminate | exact Hb].
Qed.

Lemma wellFormed_resume (s : EngineState) :
  wellFormed s -> wellFormed (resumeEngine s).
Proof.
  unfold wellFormed, playingInvariant, withinBounds.
  intros [Hinv Hb]. unfold resumeEngine.
  destruct (_ && _); simpl; [split; assumption|].
  split; [split; reflexivity | exact Hb].
Qed.

Lemma wellFormed_seek (s : EngineState) (time : R) :
  wellFormed s -> wellFormed (seekEngine s time).
Proof.
  unfold wellFormed, playingInvariant, withinBounds.
  intros [Hinv [Ht Hr]]. simpl.
  split; [exact Hinv|]. split; [|exact Hr].
  apply clampTime_range. lra.
Qed.

Lemma wellFormed_setPlaybackRate (s : EngineState) (rate : R) :
  wellFormed s -> wellFormed (setPlaybackRate s rate).
Proof.
  unfold wellFormed, playingInvariant, withinBounds.
  intros [Hinv [Ht Hr]]. simpl.
  split; [exact Hinv|]. split; [exact Ht|].
  apply clampTime_range. unfold MIN_PLAYBACK_RATE, MAX_PLAYBACK_RATE. lra.
Qed.

Lemma wellFormed_setEngineStatus (s : EngineState) (newStatus : EngineStatus) :
  wellFormed s -> wellFormed (setEngineStatus s newStatus).
Proof.
  unfold wellFormed, playingInvariant, withinBounds.
  intros [_ Hb]. simpl. split; [|exact Hb].
  apply EngineStatus_eqb_eq.
Qed.

Lemma wellFormed_loaded (total : R) :
  wellFormed (setEngineDuration createInitialEngineState total).
Proof.
  unfold wellFormed, playingInvariant, withinBounds,
    MIN_PLAYBACK_RATE, MAX_PLAYBACK_RATE. simpl.
  split; [split; discriminate|].
  split; [|lra]. unfold Rmax. destruct Rle_dec; lra.
Qed.

Lemma play_state (nowMs : R) (e : Playback.LessonPlaybackEngine) :
  wellFormed (Playback.e_state e) ->
  wellFormed (Playback.e_state (fst (Playback.play nowMs e))).
Proof.
  intros Hwf. unfold Playback.play.
  destruct (EngineStatus_eqb _ playing); [exact Hwf|].
  destruct Rle_dec; [exact Hwf|]. simpl.
  assert (H1 : wellFormed
                 (if Rge_dec (currentTime (Playback.e_state e))
                             (duration (Playback.e_state e))
                  then seekEngine (Playback.e_state e) 0
                  else Playback.e_state e))
    by (destruct Rge_dec; [apply wellFormed_seek|]; exact Hwf).
  apply wellFormed_resume in H1.
  destruct (negb _); [apply wellFormed_setEngineStatus|]; exact H1.
Qed.

Lemma processTick_state (timestamp : R) (e : Playback.LessonPlaybackEngine) :
  Playback.e_state (fst (fst (Playback.processTick timestamp e)))
  = advanceEngineState (Playback.e_state e)
      (Rmin (Rmax (if Rgt_dec (Playback.e_lastTickTimestamp e) 0
                   then timestamp - Playback.e_lastTickTimestamp e
                   else 0) 0)
            (cfg_maxDeltaMs (Playback.e_config e))).
Proof.
  unfold Playback.processTick.
  destruct (_ && _ && _); reflexivity.
Qed.

(** Every operation of the controller leaves its engine state well
    formed ([isPlaying] exactly in status [playing], [currentTime]
    within [[0, duration]], [playbackRate] within [[0.25, 4.0]]): the
    state of a new engine is, so is the state after [load] or [destroy]
    whatever came before, and [play], [pause], [resume], [seek],
    [setSpeed], [tick] and the timer callback of the self-managed loop
    keep it so. *)
Theorem controller_keeps_state_well_formed
    (config : Playback.PartialConfig) (e : Playback.LessonPlaybackEngine)
    (tracks : list TimelineTrack) (t1 t2 t3 value : R) :
  wellFormed (Playback.e_state (Playback.construct config)) /\
  wellFormed (Playback.e_state (fst (Playback.load tracks t1 t2 t3 e))) /\
  wellFormed (Playback.e_state (Playback.destroy e)) /\
  (wellFormed (Playback.e_state e) ->
   wellFormed (Playback.e_state (fst (Playback.play t1 e))) /\
   wellFormed (Playback.e_state (fst (Playback.pause e))) /\
   wellFormed (Playback.e_state (fst (Playback.resume t1 e))) /\
   wellFormed (Playback.e_state (fst (Playback.seek value t1 e))) /\
   wellFormed (Playback.e_state (fst (Playback.setSpeed value e))) /\
   wellFormed (Playback.e_state (fst (fst (Playback.tick t1 e)))) /\
   wellFormed (Playback.e_state (fst (Playback.timerFired t1 t2 e)))).
Proof.
  split; [apply wellFormed_initial|]. split; [|split].
  - unfold Playback.load.
    destruct (cfg_autoPlay (Playback.e_config e)); [|apply wellFormed_loaded].
    match goal with
    | |- context [Playback.play t1 ?e1] =>
        pose proof (play_state t1 e1 (wellFormed_loaded _)) as Hplay;
        destruct (Playback.play t1 e1) as [e2 played]
    end.
    simpl in Hplay. simpl fst. unfold Playback.startLoop.
    destruct (Playback.e_loopRunning e2); exact Hplay.
  - apply wellFormed_initial.
  - intros Hwf.
    split; [apply play_state; exact Hwf|].
    split; [|split; [|split; [|split; [|split]]]].
    + unfold Playback.pause. destruct (negb _); [exact Hwf|].
      apply wellFormed_pause. exact Hwf.
    + unfold Playback.resume. destruct (_ && _); [exact Hwf|].
      apply wellFormed_resume. exact Hwf.
    + apply wellFormed_seek. exact Hwf.
    + apply wellFormed_setPlaybackRate. exact Hwf.
    + unfold Playback.tick. rewrite processTick_state.
      apply wellFormed_advance. exact Hwf.
    + unfold Playback.timerFired. simpl.
      destruct (negb (Playback.e_loopRunning e)); [exact Hwf|].
      match goal with
      | |- context [Playback.processTick t1 ?e0] =>
          pose proof (processTick_state t1 e0) as Hstate;
          destruct (Playback.processTick t1 e0) as [[e1 emitted] snapshot]
      end.
      simpl in Hstate.
      destruct (Playback.e_loopRunning e1); [destruct Rlt_dec|];
        simpl; rewrite Hstate; apply wellFormed_advance; exact Hwf.
Qed.

Lemma controller_keeps_state_well_formed_witness :
  wellFormed (Playback.e_state (fst (Playback.play 5 loadedEngine))) /\
  wellFormed (Playback.e_state (fst (fst (Playback.tick 21 loadedEngine)))).
Proof.
  assert (Hwf : wellFormed (Playback.e_state loadedEngine)).
  { apply (controller_keeps_state_well_formed
             (Playback.mkPartialConfig None None None) freshEngine
             [cornerTrack] 0 0 0 0). }
  destruct (controller_keeps_state_well_formed
              (Playback.mkPartialConfig None None None) loadedEngine
              [] 5 0 0 0) as (_ & _ & _ & Hkeep).
  destruct (controller_keeps_state_well_formed
              (Playback.mkPartialConfig None None None) loadedEngine
              [] 21 0 0 0) as (_ & _ & _ & Hkeep').
  split; [apply (Hkeep Hwf) | apply (Hkeep' Hwf)].
Defined.

(** ** Ticks *)




(** ** Transport controls *)

(** [play] does nothing on an engine that is already playing, and only
    logs a warning when the duration is not positive.  Otherwise, from
    any other status, it starts playback: the engine is playing from its
    current time, or from 0 if that time had reached the end, the tick
    baseline is the current clock and one state change is emitted. *)
Theorem play_behaviour (nowMs : R) (e : Playback.LessonPlaybackEngine) :
  let previous := Playback.e_state e in
  (status previous = playing -> Playback.play nowMs e = (e, [])) /\
  (status previous <> playing -> duration previous <= 0 ->
   Playback.play nowMs e = (e, [Playback.Logged Playback.log_warn])) /\
  (status previous <> playing -> 0 < duration previous ->
   let started :=
     {| isPlaying := true;
        currentTime :=
          if Rge_dec (currentTime previous) (duration previous)
          then 0 else currentTime previous;
        duration := duration previous;
        playbackRate := playbackRate previous;
        status := playing |} in
   Playback.play nowMs e
   = (Playback.withLastTick (Playback.withState e started) nowMs,
      [Playback.StateChange started previous])).
Proof.
  cbv zeta. unfold Playback.play. split; [|split].
  - intros Hs. rewrite Hs. reflexivity.
  - intros Hs Hd.
    destruct (EngineStatus_eqb _ playing) eqn:He;
      [apply EngineStatus_eqb_eq in He; contradiction|].
    destruct Rle_dec; [reflexivity | contradiction].
  - intros Hs Hd.
    destruct (EngineStatus_eqb _ playing) eqn:He;
      [apply EngineStatus_eqb_eq in He; contradiction|].
    destruct Rle_dec; [lra|].
    assert (Hclamp : clampTime 0 0 (duration (Playback.e_state e)) = 0)
      by (apply clampTime_inside; lra).
    destruct (Playback.e_state e) as [p t d r st] eqn:Hstate. simpl in *.
    destruct Rge_dec; unfold resumeEngine, seekEngine, setEngineStatus;
      simpl; try rewrite Hclamp; destruct st; simpl;
      try reflexivity; contradiction.
Qed.

Lemma play_behaviour_witness :
  Playback.play 5 freshEngine
  = (freshEngine, [Playback.Logged Playback.log_warn]) /\
  status (Playback.e_state (fst (Playback.play 5 loadedEngine))) = playing.
Proof.
  destruct (play_behaviour 5 freshEngine) as (_ & Hrefuse & _).
  destruct (play_behaviour 5 loadedEngine) as (_ & _ & Hstart).
  split.
  - apply Hrefuse; simpl; [discriminate | lra].
  - rewrite Hstart; [reflexivity | simpl; discriminate |].
    simpl. unfold calculateTimelineDuration. simpl.
    unfold Rmax. destruct Rle_dec; lra.
Defined.

(** [seek] clamps the time into [[0, duration]] whatever the play
    state, resets the tick baseline and emits exactly a seek
    notification from the old to the new time followed by the frame of
    the new position with a delta of 0; it never emits a state change,
    because seeking leaves the status alone. *)
Theorem seek_emits_seek_and_frame (timeMs nowMs : R)
    (e : Playback.LessonPlaybackEngine) :
  let after := fst (Playback.seek timeMs nowMs e) in
  exists snapshot,
    snd (Playback.seek timeMs nowMs e)
    = [Playback.Seek (currentTime (Playback.e_state e))
                     (clampTime timeMs 0 (duration (Playback.e_state e)));
       Playback.Frame snapshot] /\
    Playback.e_lastSnapshot after = Some snapshot /\
    snap_deltaMs snapshot = 0 /\
    snap_currentTime snapshot
    = clampTime timeMs 0 (duration (Playback.e_state e)) /\
    Playback.e_state after = seekEngine (Playback.e_state e) timeMs /\
    status (Playback.e_state after) = status (Playback.e_state e) /\
    isPlaying (Playback.e_state after) = isPlaying (Playback.e_state e) /\
    Playback.e_lastTickTimestamp after = nowMs /\
    (0 <= duration (Playback.e_state e) ->
     0 <= snap_currentTime snapshot <= duration (Playback.e_state e)).
Proof.
  cbv zeta. unfold Playback.seek. simpl.
  replace (EngineStatus_eqb (status (Playback.e_state e))
                            (status (Playback.e_state e))) with true
    by (symmetry; apply EngineStatus_eqb_eq; reflexivity).
  simpl. eexists. split; [reflexivity|].
  repeat split; try reflexivity; apply clampTime_range; assumption.
Qed.

Lemma seek_emits_seek_and_frame_witness :
  exists snapshot,
    Playback.e_lastSnapshot (fst (Playback.seek 5000 7 loadedEngine))
    = Some snapshot /\
    0 <= snap_currentTime snapshot
      <= duration (Playback.e_state loadedEngine).
Proof.
  destruct (seek_emits_seek_and_frame 5000 7 loadedEngine)
    as (snapshot & _ & Hsnap & _ & _ & _ & _ & _ & _ & Hrange).
  exists snapshot. split; [exact Hsnap|].
  apply Hrange. simpl. apply Rmax_l.
Defined.

(** ** Drawing state *)

Lemma playback_clamp01_inside (v : R) :
  0 <= v <= 1 -> Playback.clamp01 v = v.
Proof.
  intros [H0 H1]. unfold Playback.clamp01.
  rewrite Rmax_left by exact H0. apply Rmin_left; exact H1.
Qed.

Lemma eventProgress_in_progress (time : R) (event : TimelineEvent) :
  ev_startTime event <= time < ev_endTime event ->
  Playback.eventProgress time event
  = (time - ev_startTime event) / (ev_endTime event - ev_startTime event) /\
  0 <= Playback.eventProgress time event <= 1.
Proof.
  intros Hin. unfold Playback.eventProgress.
  destruct Rgt_dec as [Hpos | Hnot]; [|lra].
  set (total := ev_endTime event - ev_startTime event) in *.
  assert (Hinv : 0 < / total) by (apply Rinv_0_lt_compat; lra).
  assert (Hlow : 0 <= (time - ev_startTime event) / total)
    by (unfold Rdiv; apply Rmult_le_pos; lra).
  assert (Hhigh : (time - ev_startTime event) / total < 1).
  { apply Rmult_lt_reg_r with total; [lra|].
    unfold Rdiv. rewrite Rmult_assoc, Rinv_l by lra. unfold total. lra. }
  rewrite playback_clamp01_inside by lra.
  split; [reflexivity | lra].
Qed.

Lemma drawEvent_cases (time : R) (acc : list Stroke * option Stroke)
    (event : TimelineEvent) :
  (exists path,
     pl_path (ev_payload event) = Some path /\ path <> [] /\
     ((ev_endTime event <= time /\
       Playback.drawEvent time acc event
       = (fst acc ++ [strokeOfEvent event path], snd acc)) \/
      (ev_startTime event <= time < ev_endTime event /\
       Playback.drawEvent time acc event
       = (fst acc,
          Some (strokeOfEvent event
                  (getStrokeProgress (strokeOfEvent event path)
                     (Playback.eventProgress time event))))))) \/
  Playback.drawEvent time acc event = acc.
Proof.
  unfold Playback.drawEvent.
  destruct (pl_path (ev_payload event)) as [[|first rest]|] eqn:Hpath;
    try (right; reflexivity).
  destruct Rge_dec as [Hdone | Hnot].
  - left. exists (first :: rest). split; [reflexivity|].
    split; [discriminate|]. left. split; [lra | reflexivity].
  - destruct Rge_dec as [Hstarted | Hwait].
    + left. exists (first :: rest). split; [reflexivity|].
      split; [discriminate|]. right. split; [lra | reflexivity].
    + right. destruct acc. reflexivity.
Qed.

Lemma fold_left_invariant {A B : Type} (f : A -> B -> A) (P : A -> Prop)
    (l : list B) :
  (forall a b, In b l -> P a -> P (f a b)) ->
  forall a, P a -> P (fold_left f l a).
Proof.
  induction l as [|b l IH]; intros Hstep a Ha; [exact Ha|].
  simpl. apply IH.
  - intros a' b' Hb'. apply Hstep. right. exact Hb'.
  - apply Hstep; [left; reflexivity | exact Ha].
Qed.

(** The drawing state is read off the timeline.  Every completed
    stroke is the full path of an event of a visible drawing track that
    has ended, and the active stroke, when there is one, belongs to such
    an event in progress: it is the prefix of the event's path that
    [getStrokeProgress] cuts at the event's progress, the elapsed time
    of the event divided by its length, which lies in [[0, 1]]. *)
Theorem drawing_state_follows_time (e : Playback.LessonPlaybackEngine) :
  let time := currentTime (Playback.e_state e) in
  let state := Playback.computeDrawingState e in
  (forall st, In st (dr_strokes state) ->
     exists event path,
       drawnBy e event path /\ ev_endTime event <= time /\
       st = strokeOfEvent event path) /\
  (forall st, dr_activeStroke state = Some st ->
     exists event path,
       drawnBy e event path /\
       ev_startTime event <= time < ev_endTime event /\
       st = strokeOfEvent event
              (getStrokeProgress (strokeOfEvent event path)
                 (Playback.eventProgress time event)) /\
       Playback.eventProgress time event
       = (time - ev_startTime event)
         / (ev_endTime event - ev_startTime event) /\
       0 <= Playback.eventProgress time event <= 1).
Proof.
  cbv zeta. unfold Playback.computeDrawingState.
  set (time := currentTime (Playback.e_state e)).
  set (Good := fun acc : list Stroke * option Stroke =>
    (forall st, In st (fst acc) ->
       exists event path,
         drawnBy e event path /\ ev_endTime event <= time /\
         st = strokeOfEvent event path) /\
    (forall st, snd acc = Some st ->
       exists event path,
         drawnBy e event path /\
         ev_startTime event <= time < ev_endTime event /\
         st = strokeOfEvent event
                (getStrokeProgress (strokeOfEvent event path)
                   (Playback.eventProgress time event)) /\
         Playback.eventProgress time event
         = (time - ev_startTime event)
           / (ev_endTime event - ev_startTime event) /\
         0 <= Playback.eventProgress time event <= 1)).
  assert (Hfold : Good (fold_left (Playback.drawTrack time)
                                  (Playback.e_tracks e) ([], None))).
  { apply fold_left_invariant.
    - intros acc track Htrack Hacc. unfold Playback.drawTrack.
      destruct (negb (TrackType_eqb (trk_type track) drawing)
                || negb (trk_visible track)) eqn:Hskip; [exact Hacc|].
      apply orb_false_iff in Hskip. destruct Hskip as [Hty Hvis].
      apply negb_false_iff in Hty. apply negb_false_iff in Hvis.
      apply TrackType_eqb_eq in Hty.
      apply fold_left_invariant; [|exact Hacc].
      intros acc' event Hevent [Hdone Hactive].
      destruct (drawEvent_cases time acc' event)
        as [(path & Hpath & Hne & [[Hended ->] | [Hrunning ->]]) | ->];
        [| |split; assumption].
      + split; [|exact Hactive].
        intros st Hst. simpl in Hst. apply in_app_or in Hst.
        destruct Hst as [Hst | [<- | []]]; [apply Hdone; exact Hst|].
        exists event, path. split; [|split; [exact Hended | reflexivity]].
        exists track. repeat split; assumption.
      + split; [exact Hdone|].
        intros st Hst. simpl in Hst. injection Hst as <-.
        exists event, path.
        split; [exists track; repeat split; assumption|].
        split; [exact Hrunning|]. split; [reflexivity|].
        exact (eventProgress_in_progress time event Hrunning).
    - split; [intros st [] | intros st Hst; discriminate]. }
  destruct (fold_left (Playback.drawTrack time) (Playback.e_tracks e)
                      ([], None)) as [completed active].
  exact Hfold.
Qed.

Lemma drawing_state_follows_time_witness :
  exists st event path,
    dr_activeStroke
      (Playback.computeDrawingState
         (fst (Playback.seek 500 0 loadedEngine))) = Some st /\
    drawnBy (fst (Playback.seek 500 0 loadedEngine)) event path /\
    st = strokeOfEvent event
           (getStrokeProgress (strokeOfEvent event path)
              (Playback.eventProgress
                 (currentTime
                    (Playback.e_state (fst (Playback.seek 500 0 loadedEngine))))
                 event)).
Proof.
  assert (Hsome : exists st,
            dr_activeStroke
              (Playback.computeDrawingState
                 (fst (Playback.seek 500 0 loadedEngine))) = Some st).
  { unfold Playback.computeDrawingState. simpl.
    unfold calculateTimelineDuration, clampTime. simpl.
    replace (Rmin (Rmax 500 0) (Rmax 0 1000)) with 500
      by (unfold Rmin, Rmax; repeat destruct Rle_dec; lra).
    unfold Playback.drawTrack. simpl. unfold Playback.drawEvent. simpl.
    unfold cornerPath.
    destruct Rge_dec; [lra|]. destruct Rge_dec; [|lra].
    eexists. reflexivity. }
  destruct Hsome as [st Hst].
  destruct (drawing_state_follows_time (fst (Playback.seek 500 0 loadedEngine)))
    as [_ Hactive].
  destruct (Hactive st Hst) as (event & path & Hdrawn & _ & Hpoints & _).
  exists st, event, path. split; [exact Hst|]. split; assumption.
Defined.

(** ** Loading *)

(** Loading never fails and does not depend on what validation finds:
    without autoplay, [load] leaves the engine ready at time 0 with the
    1x rate and the duration of the timeline, holding the tracks with
    their events sorted and no snapshot; it logs one entry per
    validation finding, then reports the state change and logs the
    summary. *)
Theorem load_prepares_engine (tracks : list TimelineTrack) (t1 t2 t3 : R)
    (e : Playback.LessonPlaybackEngine) :
  cfg_autoPlay (Playback.e_config e) = false ->
  let after := fst (Playback.load tracks t1 t2 t3 e) in
  let emitted := snd (Playback.load tracks t1 t2 t3 e) in
  let total := calculateTimelineDuration (flat_map trk_events tracks) in
  Playback.e_state after
  = {| isPlaying := false; currentTime := 0; duration := Rmax 0 total;
       playbackRate := 1; status := ready |} /\
  (forall track event, In track tracks -> In event (trk_events track) ->
     ev_endTime event <= duration (Playback.e_state after)) /\
  Playback.e_tracks after = br_tracks (buildTimeline tracks) /\
  Playback.e_lastSnapshot after = None /\
  List.length emitted = (List.length (validateTimeline tracks) + 2)%nat /\
  (exists logs,
     emitted = logs ++ [Playback.StateChange (Playback.e_state after)
                                             (Playback.e_state e);
                        Playback.Logged Playback.log_info] /\
     List.length logs = List.length (validateTimeline tracks) /\
     forall entry, In entry logs ->
       entry = Playback.Logged Playback.log_error \/
       entry = Playback.Logged Playback.log_warn).
Proof.
  intros Hauto. cbv zeta. unfold Playback.load. rewrite Hauto. simpl.
  split; [reflexivity|]. split; [|split; [reflexivity|split; [reflexivity|]]].
  - intros track event Htrack Hevent.
    assert (Hin : In event (flat_map trk_events tracks))
      by (apply in_flat_map; exists track; split; assumption).
    unfold calculateTimelineDuration.
    destruct (flat_map trk_events tracks) as [|e0 events]; [destruct Hin|].
    simpl.
    destruct (maxOf_bounds (map ev_endTime events) (ev_endTime e0))
      as (Hge & Hall & _).
    pose proof (Rmax_r 0 (maxOf (ev_endTime e0) (map ev_endTime events))).
    destruct Hin as [<- | Hin]; [lra|].
    specialize (Hall (ev_endTime event) (in_map ev_endTime _ _ Hin)). lra.
  - split.
    + rewrite length_app, length_map. reflexivity.
    + eexists. split; [reflexivity|]. split; [apply length_map|].
      intros entry Hentry. apply in_map_iff in Hentry.
      destruct Hentry as (err & <- & _).
      destruct (ve_severity err); [right | left]; reflexivity.
Qed.

Lemma load_prepares_engine_witness :
  status (Playback.e_state loadedEngine) = ready /\
  Playback.e_lastSnapshot loadedEngine = None.
Proof.
  assert (Hauto : cfg_autoPlay (Playback.e_config freshEngine) = false)
    by reflexivity.
  destruct (load_prepares_engine [cornerTrack] 0 0 0 freshEngine Hauto)
    as (Hstate & _ & _ & Hsnap & _).
  unfold loadedEngine. rewrite Hstate. split; [reflexivity | exact Hsnap].
Defined.
